(** * synet.utils.fnfree_policy: match and action combinators over symbolic
      announcements

    A shallow embedding of [src/synet/utils/fnfree_policy.py].  The Python
    objects (match nodes with their per-announcement caches, action nodes
    with their old and new announcement sets) live in a store that is
    threaded through every call together with the solver context; Python
    exceptions are the error side of the monad. *)

From Stdlib Require Import ZArith Lia.
From stdpp Require Import base decidable option list strings.

Set Warnings "-register-all".
Local Open Scope string_scope.
Local Open Scope list_scope.
Local Open Scope Z_scope.

(** ** Symbolic values and solver expressions *)

(** [z3.BoolSort()], [z3.IntSort()] and the finite-domain sorts obtained
    from [ctx.get_enum_type]. *)
Inductive vsort :=
| BoolSort
| IntSort
| EnumSort (domain : string).

(** A host-language value handed to [create_fresh_var] as [value=...].
    [PObj uid] is a reference to the [SMTVar] object named [uid]: Python
    allows any object there, and two call sites pass an [SMTVar]. *)
Inductive pyval :=
| PBool (b : bool)
| PInt (z : Z)
| PEnum (s : string)
| PObj (uid : nat).

#[global] Instance vsort_eq_dec : EqDecision vsort.
Proof. solve_decision. Defined.

#[global] Instance pyval_eq_dec : EqDecision pyval.
Proof. solve_decision. Defined.

(** Modelled from the spec: [SMTVar] of [synet.utils.fnfree_smt_context],
    missing from src.  Spec section 3: a Symbolic Value is a sort, an
    optional concrete value and a solver handle; it is concrete iff the
    concrete value is present.  The handle is determined by the unique
    name ([name_prefix] and [uid]). *)
Record SMTVar := mkSMTVar {
  name_prefix : option string;
  uid : nat;
  vsort_of : vsort;
  value : option pyval
}.

#[global] Instance SMTVar_eq_dec : EqDecision SMTVar.
Proof. solve_decision. Defined.

Definition is_concrete (v : SMTVar) : bool :=
  match value v with Some _ => true | None => false end.

(** Python truthiness of a host value, as used by [all], [any] and [if]. *)
Definition truthy (v : pyval) : bool :=
  match v with
  | PBool b => b
  | PInt z => negb (z =? 0)
  | PEnum _ => true
  | PObj _ => true
  end.

(** [get_value()] of a concrete value, seen through Python truthiness. *)
Definition get_value (v : SMTVar) : bool :=
  match value v with Some x => truthy x | None => false end.

(** Solver terms built by the z3 calls of the source. *)
Inductive expr :=
| EConst (uid : nat) (s : vsort)
| ELit (v : pyval)
| EEq (a b : expr)
| EGe (a b : expr)
| ELt (a b : expr)
| EAnd (l : list expr)
| EOr (l : list expr)
| EIf (c t e : expr).

(** Modelled from the spec: the [.var] handle of a Symbolic Value, missing
    from src.  A concrete value is its literal, a symbolic one the solver
    constant of its name and sort. *)
Definition var (v : SMTVar) : expr :=
  match value v with
  | Some x => ELit x
  | None => EConst (uid v) (vsort_of v)
  end.

(** Modelled from the spec: [SMTVar.check_eq] and [is_symbolic], missing
    from src.  Spec section 2: equality comparison yields either a concrete
    boolean or a symbolic constraint.  [inl b] is the Python boolean,
    [inr e] the solver expression ([is_symbolic] holds of it). *)
Definition check_eq (a b : SMTVar) : bool + expr :=
  match value a, value b with
  | Some x, Some y => inl (bool_decide (x = y))
  | _, _ => inr (EEq (var a) (var b))
  end.

(** Modelled from the spec: [self.index_var >= 0] in
    [SMTMatchSelectOne.__init__] compares the wrapper itself, not its [.var]
    handle, with a host integer, and [SMTVar] is missing from src.  Spec
    section 2 gives a Symbolic Value an equality comparison and no ordering,
    so the comparison is the host's: Python 2 (the language of the file,
    with its [iteritems] and [index.next()]) orders every number before
    every object that is no number, and the result is the boolean [True]
    whatever the value; [z3.And] takes it as the literal [true]. *)
Definition SMTVar_ge (v : SMTVar) (z : Z) : expr := ELit (PBool true).

(** Meaning of a solver term under an assignment of the solver constants. *)
Fixpoint eval (env : nat -> pyval) (e : expr) : option pyval :=
  match e with
  | EConst u _ => Some (env u)
  | ELit v => Some v
  | EEq a b =>
      match eval env a, eval env b with
      | Some x, Some y => Some (PBool (bool_decide (x = y)))
      | _, _ => None
      end
  | EGe a b =>
      match eval env a, eval env b with
      | Some (PInt x), Some (PInt y) => Some (PBool (y <=? x))
      | _, _ => None
      end
  | ELt a b =>
      match eval env a, eval env b with
      | Some (PInt x), Some (PInt y) => Some (PBool (x <? y))
      | _, _ => None
      end
  | EAnd l =>
      (fix conj (l : list expr) : option pyval :=
         match l with
         | [] => Some (PBool true)
         | x :: r =>
             match eval env x, conj r with
             | Some (PBool b1), Some (PBool b2) => Some (PBool (b1 && b2))
             | _, _ => None
             end
         end) l
  | EOr l =>
      (fix disj (l : list expr) : option pyval :=
         match l with
         | [] => Some (PBool false)
         | x :: r =>
             match eval env x, disj r with
             | Some (PBool b1), Some (PBool b2) => Some (PBool (b1 || b2))
             | _, _ => None
             end
         end) l
  | EIf c t e =>
      match eval env c with
      | Some (PBool true) => eval env t
      | Some (PBool false) => eval env e
      | _ => None
      end
  end.

Definition holds (env : nat -> pyval) (e : expr) : Prop :=
  eval env e = Some (PBool true).

(** ** Announcements *)

(** A community tag ([synet.topo.bgp.Community]). *)
Inductive Community := Comm (tag : string).

#[global] Instance Community_eq_dec : EqDecision Community.
Proof. solve_decision. Defined.

(** Modelled from the spec: [Announcement] of [synet.topo.bgp], missing
    from src.  Spec section 3: nine named attributes holding a Symbolic
    Value each, plus [communities], a mapping from community tag to a
    boolean Symbolic Value (kept in insertion order). *)
Record Announcement := mkAnnouncement {
  prefix : SMTVar;
  peer : SMTVar;
  origin : SMTVar;
  as_path : SMTVar;
  as_path_len : SMTVar;
  next_hop : SMTVar;
  local_pref : SMTVar;
  med : SMTVar;
  communities : list (Community * SMTVar);
  permitted : SMTVar
}.

#[global] Instance Announcement_eq_dec : EqDecision Announcement.
Proof. solve_decision. Defined.

(** [Announcement.attributes]: the attribute names, [communities] among
    them (the loops of the source test [attr == 'communities']). *)
Definition Announcement_attributes : list string :=
  ["prefix"; "peer"; "origin"; "as_path"; "as_path_len"; "next_hop";
   "local_pref"; "med"; "communities"; "permitted"].

(** What [getattr(announcement, attr)] can return: a Symbolic Value or the
    communities dictionary. *)
Inductive attr_val :=
| AVar (v : SMTVar)
| AComms (c : list (Community * SMTVar)).

(** ** Exceptions, solver context and store *)

Inductive exn :=
| AssertionError
| AttributeError
| KeyError
| IndexError
| TypeError
| NameError
| ValueError
| ReferenceError
| RecursionError.

Inductive res (A : Type) :=
| OK (x : A)
| Raise (e : exn).
Arguments OK {A} x.
Arguments Raise {A} e.

(** Modelled from the spec: [SolverContext] of
    [synet.utils.fnfree_smt_context], missing from src.  Spec section 6:
    [create_fresh_var] returns a Symbolic Value with a fresh name, concrete
    iff a value is given; [register_constraint] appends to the constraint
    set, in insertion order. *)
Record SolverContext := mkCtx {
  next_uid : nat;
  vars : list SMTVar;
  constraints : list (option string * expr)
}.

(** The class and parameters of a match object; sub-matches are references
    into the store.  [KSMTMatch] is the route-map adapter [SMTMatch], of
    which only [is_match] (a delegation to [self.smt_match]) is modelled:
    its constructor reads the clause classes of [synet.topo.bgp]. *)
Inductive match_kind :=
| KMatchAll (match_var : SMTVar)
| KMatchNone (match_var : SMTVar)
| KMatchAnd (matches : list nat)
| KMatchOr (matches : list nat)
| KMatchSelectOne (index_var : SMTVar) (matches : list nat)
| KMatchAttribute (attribute : string) (val : SMTVar)
| KMatchCommunity (community : Community) (val : SMTVar)
| KSMTMatch (smt_match : option nat).

(** A match object: its parameters, the announcements it was built over
    and [self.matched_announcements], the per-announcement cache. *)
Record match_node := mkMatch {
  mkind : match_kind;
  m_announcements : list Announcement;
  matched_announcements : list (Announcement * SMTVar)
}.

(** Modelled from the spec: the Announcement-Set (the announcements
    container with [create_new]), missing from src.  Spec section 3: an
    ordered sequence of announcements; [create_new(list, action)] returns a
    new version with a back-reference to the producing action. *)
Record AnnouncementsContext := mkAnns {
  announcements_list : list Announcement;
  produced_by : option nat
}.

#[global] Instance AnnouncementsContext_eq_dec : EqDecision AnnouncementsContext.
Proof. solve_decision. Defined.

Definition create_new (new_list : list Announcement) (self : nat)
  : AnnouncementsContext :=
  mkAnns new_list (Some self).

Inductive action_kind :=
| KSetAttribute (attribute : string) (val : SMTVar)
| KSetCommunity (community : Community) (val : SMTVar)
| KSetOne (index_var : SMTVar) (actions : list nat).

(** An action object: [self.match], [self._old_announcements] and
    [self._announcements] ([None] until [execute] has run). *)
Record action_node := mkAction {
  akind : action_kind;
  a_match : nat;
  _old_announcements : AnnouncementsContext;
  _announcements : option AnnouncementsContext
}.

Record state := mkState {
  ctx : SolverContext;
  match_store : list match_node;
  action_store : list action_node
}.

(** ** The state and exception monad *)

Definition M (A : Type) : Type := state -> res (A * state).

Definition ret {A} (x : A) : M A := fun s => OK (x, s).

Definition raise {A} (e : exn) : M A := fun _ => Raise e.

Definition bind {A B} (c : M A) (k : A -> M B) : M B :=
  fun s => match c s with
           | OK (x, s') => k x s'
           | Raise e => Raise e
           end.

Declare Scope py_scope.
Delimit Scope py_scope with py.
Notation "x <- c ;; k" := (bind c (fun x => k))
  (at level 100, c at next level, right associativity) : py_scope.
Notation "c ;;; k" := (bind c (fun _ => k))
  (at level 100, right associativity) : py_scope.
Local Open Scope py_scope.

Definition assert (b : bool) : M unit :=
  if b then ret tt else raise AssertionError.

Fixpoint mapM {A B} (f : A -> M B) (l : list A) : M (list B) :=
  match l with
  | [] => ret []
  | x :: r => y <- f x ;; ys <- mapM f r ;; ret (y :: ys)
  end.

(** ** Solver context operations *)

Definition create_fresh_var (vs : vsort) (prefix : option string)
    (val : option pyval) : M SMTVar :=
  fun s =>
    let c := ctx s in
    let v := mkSMTVar prefix (next_uid c) vs val in
    OK (v, mkState (mkCtx (S (next_uid c)) (vars c ++ [v]) (constraints c))
                   (match_store s) (action_store s)).

Definition register_constraint (e : expr) (prefix : option string) : M unit :=
  fun s =>
    let c := ctx s in
    OK (tt, mkState (mkCtx (next_uid c) (vars c) (constraints c ++ [(prefix, e)]))
                    (match_store s) (action_store s)).

(** ** Dictionaries, attribute access and the store *)

(** A Python [dict] in insertion order: [d[k]], [k in d] and [d[k] = v]. *)
Fixpoint dict_get {K V} `{EqDecision K} (d : list (K * V)) (k : K) : option V :=
  match d with
  | [] => None
  | (k', v) :: r => if decide (k = k') then Some v else dict_get r k
  end.

Fixpoint dict_set {K V} `{EqDecision K} (d : list (K * V)) (k : K) (v : V)
  : list (K * V) :=
  match d with
  | [] => [(k, v)]
  | (k', v') :: r =>
      if decide (k = k') then (k, v) :: r else (k', v') :: dict_set r k v
  end.

Definition dict_has {K V} `{EqDecision K} (d : list (K * V)) (k : K) : bool :=
  match dict_get d k with Some _ => true | None => false end.

Definition lift {A} (r : res A) : M A :=
  fun s => match r with OK x => OK (x, s) | Raise e => Raise e end.

(** [getattr(announcement, attr)]. *)
Definition getattr (a : Announcement) (attr : string) : res attr_val :=
  match
    dict_get
      [("prefix", AVar (prefix a)); ("peer", AVar (peer a));
       ("origin", AVar (origin a)); ("as_path", AVar (as_path a));
       ("as_path_len", AVar (as_path_len a)); ("next_hop", AVar (next_hop a));
       ("local_pref", AVar (local_pref a)); ("med", AVar (med a));
       ("communities", AComms (communities a));
       ("permitted", AVar (permitted a))] attr
  with
  | Some x => OK x
  | None => Raise AttributeError
  end.

(** [x.vsort], [x.var] and [x.check_eq(v)] on what [getattr] returned: a
    dictionary has none of them. *)
Definition attr_smtvar (x : attr_val) : res SMTVar :=
  match x with
  | AVar v => OK v
  | AComms _ => Raise AttributeError
  end.

Definition attr_vsort (x : attr_val) : res vsort :=
  match attr_smtvar x with OK v => OK (vsort_of v) | Raise e => Raise e end.

Definition attr_var (x : attr_val) : res expr :=
  match attr_smtvar x with OK v => OK (var v) | Raise e => Raise e end.

Definition attr_check_eq (x : attr_val) (v : SMTVar) : res (bool + expr) :=
  match attr_smtvar x with OK a => OK (check_eq a v) | Raise e => Raise e end.

(** [announcements[0]]. *)
Definition first_announcement (l : list Announcement) : res Announcement :=
  match l with
  | a :: _ => OK a
  | [] => Raise IndexError
  end.

(** Dereferencing a match object. *)
Definition get_match (m : nat) : M match_node :=
  fun s => match match_store s !! m with
           | Some nd => OK (nd, s)
           | None => Raise ReferenceError
           end.

(** [announcement in self.matched_announcements] *)
Definition cached (self : match_node) (a : Announcement) : bool :=
  dict_has (matched_announcements self) a.

(** [self.matched_announcements[announcement]] *)
Definition cache_get (m : nat) (a : Announcement) : M SMTVar :=
  fun s => match match_store s !! m with
           | Some nd =>
               match dict_get (matched_announcements nd) a with
               | Some v => OK (v, s)
               | None => Raise KeyError
               end
           | None => Raise ReferenceError
           end.

(** [self.matched_announcements[announcement] = v] *)
Definition cache_set (m : nat) (a : Announcement) (v : SMTVar) : M unit :=
  fun s => match match_store s !! m with
           | Some nd =>
               OK (tt, mkState (ctx s)
                         (<[m := mkMatch (mkind nd) (m_announcements nd)
                                   (dict_set (matched_announcements nd) a v)]>
                            (match_store s))
                         (action_store s))
           | None => Raise ReferenceError
           end.

(** ** Matches *)

(** [var == True] for each sub-result, as in [z3.And([...])]. *)
Definition eq_true (r : SMTVar) : expr := EEq (var r) (ELit (PBool true)).

(** [SMTMatchSelectOne._get_match]: the nested conditional over the
    candidates from [current_index] on ([matches] is the part of
    [self.matches] at the keys [current_index], [current_index + 1], ...). *)
Fixpoint _get_match (is_match : nat -> Announcement -> M SMTVar)
    (index_var : SMTVar) (matches : list nat) (announcement : Announcement)
    (current_index : Z) : M expr :=
  match matches with
  | [] =>
      ret (EAnd [EEq (var index_var) (ELit (PInt current_index));
                 ELit (PBool false)])
  | m :: rest =>
      r <- is_match m announcement ;;
      let match_var := var r in
      let index_check := EEq (var index_var) (ELit (PInt current_index)) in
      next_attr <- _get_match is_match index_var rest announcement
                     (current_index + 1) ;;
      ret (EIf index_check match_var next_attr)
  end.

(** [is_match] of every match class, dispatched on the object at [m].
    [fuel] bounds the depth of the calls into sub-matches. *)
Fixpoint is_match (fuel : nat) (m : nat) (announcement : Announcement)
  : M SMTVar :=
  match fuel with
  | O => raise RecursionError
  | S fuel =>
      self <- get_match m ;;
      match mkind self with
      | KMatchAll match_var => ret match_var
      | KMatchNone match_var => ret match_var
      | KMatchAnd matches =>
          (if cached self announcement then ret tt
           else
             results <- mapM (fun sub => is_match fuel sub announcement) matches ;;
             let conc := forallb is_concrete results in
             let val := if conc then Some (PBool (forallb get_value results))
                        else None in
             match_var <- create_fresh_var BoolSort (Some "match_and_") val ;;
             (if conc then ret tt
              else register_constraint
                     (EEq (var match_var) (EAnd (map eq_true results)))
                     (Some "const_and_")) ;;;
             cache_set m announcement match_var) ;;;
          cache_get m announcement
      | KMatchOr matches =>
          (if cached self announcement then ret tt
           else
             results <- mapM (fun sub => is_match fuel sub announcement) matches ;;
             let conc := forallb is_concrete results in
             let val := if conc then Some (PBool (existsb get_value results))
                        else None in
             match_var <- create_fresh_var BoolSort (Some "match_or_") val ;;
             (if conc then ret tt
              else register_constraint
                     (EEq (var match_var) (EOr (map eq_true results)))
                     (Some "const_or_")) ;;;
             cache_set m announcement match_var) ;;;
          cache_get m announcement
      | KMatchSelectOne index_var matches =>
          (if cached self announcement then ret tt
           else
             v <- create_fresh_var BoolSort None None ;;
             cache_set m announcement v ;;;
             e <- _get_match (is_match fuel) index_var matches announcement 0 ;;
             register_constraint (EEq (var v) e) (Some "SelectOne_match_")) ;;;
          cache_get m announcement
      | KMatchAttribute attribute value =>
          attr <- lift (getattr announcement attribute) ;;
          (if cached self announcement then ret tt
           else
             constraint <- lift (attr_check_eq attr value) ;;
             let val := match constraint with
                        | inl b => Some (PBool b)
                        | inr _ => None
                        end in
             match_var <- create_fresh_var BoolSort
                            (Some ("match_" +:+ attribute +:+ "_var_")) val ;;
             match constraint with
             | inl _ => ret tt
             | inr c => register_constraint (EEq (var match_var) c)
                          (Some ("const_match_" +:+ attribute +:+ "_"))
             end ;;;
             cache_set m announcement match_var) ;;;
          cache_get m announcement
      | KMatchCommunity community value =>
          (if cached self announcement then ret tt
           else
             attr <- lift (match dict_get (communities announcement) community with
                           | Some x => OK x
                           | None => Raise KeyError
                           end) ;;
             let constraint := check_eq attr value in
             let val := match constraint with
                        | inl b => Some (PBool b)
                        | inr _ => None
                        end in
             match_var <- create_fresh_var BoolSort None val ;;
             match constraint with
             | inl _ => ret tt
             | inr c => register_constraint (EEq (var match_var) c) None
             end ;;;
             cache_set m announcement match_var) ;;;
          cache_get m announcement
      | KSMTMatch smt_match =>
          match smt_match with
          | Some sub => is_match fuel sub announcement
          | None => raise AttributeError
          end
      end
  end.

(** Allocation of a new match object; the reference is its position. *)
Definition alloc_match (nd : match_node) : M nat :=
  fun s => OK (length (match_store s),
               mkState (ctx s) (match_store s ++ [nd]) (action_store s)).

(** [assert announcements]: an empty announcement list is falsy. *)
Definition nonempty {A} (l : list A) : bool :=
  match l with [] => false | _ :: _ => true end.

Definition SMTMatchAll : M nat :=
  match_var <- create_fresh_var BoolSort (Some "match_all_") (Some (PBool true)) ;;
  alloc_match (mkMatch (KMatchAll match_var) [] []).

Definition SMTMatchNone : M nat :=
  match_var <- create_fresh_var BoolSort (Some "match_none_") (Some (PBool false)) ;;
  alloc_match (mkMatch (KMatchNone match_var) [] []).

Definition SMTMatchAnd (matches : list nat) (announcements : list Announcement)
  : M nat :=
  alloc_match (mkMatch (KMatchAnd matches) announcements []).

Definition SMTMatchOr (matches : list nat) (announcements : list Announcement)
  : M nat :=
  alloc_match (mkMatch (KMatchOr matches) announcements []).

Definition SMTMatchAttribute (attribute : string) (value : option SMTVar)
    (announcements : list Announcement) : M nat :=
  assert (nonempty announcements) ;;;
  assert (bool_decide (attribute ∈ Announcement_attributes)) ;;;
  value <- match value with
           | Some v => ret v
           | None =>
               a0 <- lift (first_announcement announcements) ;;
               x <- lift (getattr a0 attribute) ;;
               asort <- lift (attr_vsort x) ;;
               create_fresh_var asort
                 (Some ("Match_attr_" +:+ attribute +:+ "_")) None
           end ;;
  a0 <- lift (first_announcement announcements) ;;
  x <- lift (getattr a0 attribute) ;;
  attr_sort <- lift (attr_vsort x) ;;
  assert (bool_decide (attr_sort = vsort_of value)) ;;;
  alloc_match (mkMatch (KMatchAttribute attribute value) announcements []).

Definition SMTMatchCommunity (community : Community) (value : option SMTVar)
    (announcements : list Announcement) : M nat :=
  assert (nonempty announcements) ;;;
  a0 <- lift (first_announcement announcements) ;;
  assert (dict_has (communities a0) community) ;;;
  value <- match value with
           | Some v => ret v
           | None => create_fresh_var BoolSort (Some "Match_Community_var_")
                       (Some (PBool true))
           end ;;
  alloc_match (mkMatch (KMatchCommunity community value) announcements []).

(** [attribute_match_factory] called with announcements and a context: the
    key is an attribute name of the table or a [Community]. *)
Definition attribute_match_factory (attribute : string + Community)
    (value : option SMTVar) (announcements : list Announcement) : M nat :=
  match attribute with
  | inl name =>
      if bool_decide (name ∈ ["prefix"; "peer"; "origin"; "as_path";
                              "as_path_len"; "next_hop"; "local_pref";
                              "permitted"; "med"])
      then SMTMatchAttribute name value announcements
      else raise ValueError
  | inr community => SMTMatchCommunity community value announcements
  end.

(** The default universe of [SMTMatchSelectOne] and [SMTSetOne]: every
    attribute, and for [communities] every tag of the first announcement. *)
Definition default_universe (announcements : list Announcement)
  : res (list (string + Community)) :=
  match first_announcement announcements with
  | OK a0 =>
      OK (concat (map (fun attr : string =>
                         if bool_decide (attr = "communities")
                         then map (fun kv : Community * SMTVar => inr (fst kv))
                                  (communities a0)
                         else [inl attr])
                      Announcement_attributes))
  | Raise e => Raise e
  end.

Definition SMTMatchSelectOne (announcements : list Announcement)
    (matches : option (list nat)) : M nat :=
  assert (nonempty announcements) ;;;
  matches <- match matches with
             | Some (m :: ms) => ret (m :: ms)
             | _ =>
                 keys <- lift (default_universe announcements) ;;
                 mapM (fun key => attribute_match_factory key None announcements)
                      keys
             end ;;
  index_var <- create_fresh_var IntSort (Some "SelectOne_index_") None ;;
  (* [index] is the last value bound by [enumerate] *)
  index <- match matches with
           | [] => raise NameError
           | _ :: _ => ret (Z.of_nat (length matches) - 1)
           end ;;
  register_constraint
    (EAnd [SMTVar_ge index_var 0; ELt (var index_var) (ELit (PInt (index + 1)))])
    (Some "SelectOne_index_range_") ;;;
  alloc_match (mkMatch (KMatchSelectOne index_var matches) announcements []).

(** ** Actions *)

Definition alloc_action (nd : action_node) : M nat :=
  fun s => OK (length (action_store s),
               mkState (ctx s) (match_store s) (action_store s ++ [nd])).

Definition get_action (a : nat) : M action_node :=
  fun s => match action_store s !! a with
           | Some nd => OK (nd, s)
           | None => Raise ReferenceError
           end.

(** [self._announcements = new] *)
Definition set_announcements (a : nat) (new : AnnouncementsContext) : M unit :=
  fun s => match action_store s !! a with
           | Some nd =>
               OK (tt, mkState (ctx s) (match_store s)
                         (<[a := mkAction (akind nd) (a_match nd)
                                   (_old_announcements nd) (Some new)]>
                            (action_store s)))
           | None => Raise ReferenceError
           end.

(** Truthiness of [self._announcements]: [None] and an empty announcement
    set are falsy. *)
Definition populated (x : option AnnouncementsContext) : bool :=
  match x with
  | Some c => nonempty (announcements_list c)
  | None => false
  end.

(** The [Announcement] constructor applied to the keyword dictionary
    [new_vals]. *)
Definition Announcement_of (new_vals : list (string * attr_val))
  : res Announcement :=
  let field (k : string) : option SMTVar :=
    match dict_get new_vals k with
    | Some (AVar v) => Some v
    | _ => None
    end in
  match field "prefix", field "peer", field "origin", field "as_path",
        field "as_path_len", field "next_hop", field "local_pref",
        field "med", dict_get new_vals "communities", field "permitted" with
  | Some p, Some pe, Some o, Some ap, Some apl, Some nh, Some lp, Some me,
    Some (AComms c), Some pm =>
      OK (mkAnnouncement p pe o ap apl nh lp me c pm)
  | _, _, _, _, _, _, _, _, _, _ => Raise TypeError
  end.

(** A loop that fills a dictionary and collects constraints on the way. *)
Fixpoint for_each {K V} `{EqDecision K} (body : K -> M (V * list expr))
    (keys : list K) (acc : list (K * V)) (constraints : list expr)
  : M (list (K * V) * list expr) :=
  match keys with
  | [] => ret (acc, constraints)
  | k :: r =>
      x <- body k ;;
      for_each body r (dict_set acc k (fst x)) (constraints ++ snd x)
  end.

(** Body of the attribute loop of [SMTSetAttribute.execute].  The source
    writes [new_var.var == self.value] with the wrapper on the right; it is
    read as the comparison with the handle of [self.value].  The fresh value
    is created with [value=self.value], the wrapper object itself. *)
Definition SMTSetAttribute_attr (fuel : nat) (m : nat) (attribute : string)
    (value : SMTVar) (announcement : Announcement) (attr : string)
  : M (attr_val * list expr) :=
  attr_v <- lift (getattr announcement attr) ;;
  if bool_decide (attr = attribute) then
    im <- is_match fuel m announcement ;;
    if is_concrete im then
      if get_value im then ret (AVar value, [])
      else x <- lift (getattr announcement attr) ;; ret (x, [])
    else
      vs <- lift (attr_vsort attr_v) ;;
      new_var <- create_fresh_var vs (Some ("Action" +:+ attr +:+ "Val"))
                   (Some (PObj (uid value))) ;;
      old <- lift (attr_var attr_v) ;;
      ret (AVar new_var,
           [EIf (var im) (EEq (var new_var) (var value))
                (EEq (var new_var) old)])
  else ret (attr_v, []).

(** One iteration of the loop over [self._old_announcements] in
    [SMTSetAttribute.execute]. *)
Definition SMTSetAttribute_announcement (fuel : nat) (m : nat)
    (attribute : string) (value : SMTVar) (announcement : Announcement)
  : M (Announcement * list expr) :=
  r <- for_each (SMTSetAttribute_attr fuel m attribute value announcement)
         Announcement_attributes [] [] ;;
  new_ann <- lift (Announcement_of (fst r)) ;;
  ret (new_ann, snd r).

(** The loop over the old announcements: the new announcements and the
    constraints, both in order. *)
Fixpoint for_announcements (body : Announcement -> M (Announcement * list expr))
    (olds : list Announcement) : M (list Announcement * list expr) :=
  match olds with
  | [] => ret ([], [])
  | a :: r =>
      x <- body a ;;
      xs <- for_announcements body r ;;
      ret (fst x :: fst xs, snd x ++ snd xs)
  end.

(** The tail shared by both [execute] methods: register the conjunction if
    there is any constraint, then publish the new version. *)
Definition finish_execute (self : nat) (old : AnnouncementsContext)
    (r : list Announcement * list expr) : M unit :=
  (if nonempty (snd r) then register_constraint (EAnd (snd r)) None
   else ret tt) ;;;
  set_announcements self (create_new (fst r) self).

Definition SMTSetAttribute_execute (fuel : nat) (self : nat) (nd : action_node)
    (attribute : string) (value : SMTVar) : M unit :=
  if populated (_announcements nd) then ret tt
  else
    r <- for_announcements
           (SMTSetAttribute_announcement fuel (a_match nd) attribute value)
           (announcements_list (_old_announcements nd)) ;;
    finish_execute self (_old_announcements nd) r.

(** Body of the loop over [announcement.communities.iteritems()] in
    [SMTSetCommunity.execute]; [attr] is ["communities"] and [attr_v] the
    dictionary itself. *)
Definition SMTSetCommunity_community (fuel : nat) (m : nat)
    (self_community : Community) (value : SMTVar) (announcement : Announcement)
    (attr : string) (attr_v : attr_val) (item : Community * SMTVar)
  : M (SMTVar * list expr) :=
  let (community, old_var) := item in
  if negb (bool_decide (community = self_community)) then ret (old_var, [])
  else
    im <- is_match fuel m announcement ;;
    if is_concrete im then
      ret (if get_value im then value else old_var, [])
    else
      new_var <- create_fresh_var BoolSort
                   (Some ("set_community_" +:+ attr +:+ "_val"))
                   (Some (PObj (uid value))) ;;
      old <- lift (attr_var attr_v) ;;
      ret (new_var,
           [EIf (var im) (EEq (var new_var) (var value))
                (EEq (var new_var) old)]).

Definition SMTSetCommunity_attr (fuel : nat) (m : nat)
    (self_community : Community) (value : SMTVar) (announcement : Announcement)
    (attr : string) : M (attr_val * list expr) :=
  attr_v <- lift (getattr announcement attr) ;;
  if negb (bool_decide (attr = "communities")) then ret (attr_v, [])
  else
    r <- for_each
           (fun community =>
              match dict_get (communities announcement) community with
              | Some old_var =>
                  SMTSetCommunity_community fuel m self_community value
                    announcement attr attr_v (community, old_var)
              | None => raise KeyError
              end)
           (map fst (communities announcement)) [] [] ;;
    ret (AComms (fst r), snd r).

Definition SMTSetCommunity_announcement (fuel : nat) (m : nat)
    (self_community : Community) (value : SMTVar) (announcement : Announcement)
  : M (Announcement * list expr) :=
  r <- for_each (SMTSetCommunity_attr fuel m self_community value announcement)
         Announcement_attributes [] [] ;;
  new_ann <- lift (Announcement_of (fst r)) ;;
  ret (new_ann, snd r).

Definition SMTSetCommunity_execute (fuel : nat) (self : nat) (nd : action_node)
    (community : Community) (value : SMTVar) : M unit :=
  if populated (_announcements nd) then ret tt
  else
    r <- for_announcements
           (SMTSetCommunity_announcement fuel (a_match nd) community value)
           (announcements_list (_old_announcements nd)) ;;
    finish_execute self (_old_announcements nd) r.

(** Python sets of names, kept as duplicate-free lists; [reduce(set.union, l)]
    raises on an empty list. *)
Definition set_union {A} `{EqDecision A} (x y : list A) : list A :=
  x ++ list_difference y x.

Definition reduce_union {A} `{EqDecision A} (l : list (list A)) : res (list A) :=
  match l with
  | [] => Raise TypeError
  | x :: r => OK (foldl set_union x r)
  end.

(** The [attributes] property of an action (its footprint on attribute
    names).  Every action class defines it, so the [set([None])] default of
    [getattr(a, 'attributes', set([None]))] is never taken. *)
Fixpoint SMTAction_attributes (fuel : nat) (a : nat) : M (list (option string)) :=
  match fuel with
  | O => raise RecursionError
  | S fuel =>
      nd <- get_action a ;;
      match akind nd with
      | KSetAttribute attribute _ => ret [Some attribute]
      | KSetCommunity _ _ => ret [Some "communities"]
      | KSetOne _ actions =>
          l <- mapM (SMTAction_attributes fuel) actions ;;
          lift (reduce_union l)
      end
  end.

(** The [communities] property of an action. *)
Fixpoint SMTAction_communities (fuel : nat) (a : nat) : M (list Community) :=
  match fuel with
  | O => raise RecursionError
  | S fuel =>
      nd <- get_action a ;;
      match akind nd with
      | KSetAttribute _ _ => ret []
      | KSetCommunity community _ => ret [community]
      | KSetOne _ actions =>
          l <- mapM (SMTAction_communities fuel) actions ;;
          lift (reduce_union l)
      end
  end.

(** [action.announcements[ann_index]] *)
Definition action_announcement (a : nat) (ann_index : nat) : M Announcement :=
  nd <- get_action a ;;
  match _announcements nd with
  | None => raise TypeError
  | Some c =>
      match announcements_list c !! ann_index with
      | Some ann => ret ann
      | None => raise IndexError
      end
  end.

(** [SMTSetOne._get_actions]: the nested conditional over the candidates'
    new values of [attribute], from key [index] on. *)
Fixpoint _get_actions (index_var : SMTVar) (actions : list nat)
    (ann_index : nat) (attribute : string) (default : expr) (index : Z)
  : M expr :=
  match actions with
  | [] => ret default
  | action :: rest =>
      ann <- action_announcement action ann_index ;;
      value <- lift (getattr ann attribute) ;;
      let index_check := EEq (var index_var) (ELit (PInt index)) in
      next_attr <- _get_actions index_var rest ann_index attribute default
                     (index + 1) ;;
      v <- lift (attr_var value) ;;
      ret (EIf index_check v next_attr)
  end.

(** [SMTSetOne._get_communities] *)
Fixpoint _get_communities (index_var : SMTVar) (actions : list nat)
    (ann_index : nat) (community : Community) (default : expr) (index : Z)
  : M expr :=
  match actions with
  | [] => ret default
  | action :: rest =>
      ann <- action_announcement action ann_index ;;
      value <- lift (match dict_get (communities ann) community with
                     | Some x => OK x
                     | None => Raise KeyError
                     end) ;;
      let index_check := EEq (var index_var) (ELit (PInt index)) in
      next_attr <- _get_communities index_var rest ann_index community default
                     (index + 1) ;;
      ret (EIf index_check (var value) next_attr)
  end.

(** The branch of [SMTSetOne.execute] for an attribute, other than
    [communities], that some candidate can change. *)
Definition SMTSetOne_fresh_attr (index_var : SMTVar) (actions : list nat)
    (index : nat) (old_var : attr_val) (attr : string) : M SMTVar :=
  vs <- lift (attr_vsort old_var) ;;
  new_var <- create_fresh_var vs (Some ("setone_" +:+ attr +:+ "_var_")) None ;;
  value <- _get_actions index_var actions index attr (var new_var) 0 ;;
  register_constraint (EEq (var new_var) value)
    (Some ("setone_" +:+ attr +:+ "_")) ;;;
  ret new_var.

(** The body of the loop over [self.communities] in [SMTSetOne.execute]. *)
Definition SMTSetOne_fresh_community (index_var : SMTVar) (actions : list nat)
    (index : nat) (attr : string) (community : Community) : M SMTVar :=
  new_var <- create_fresh_var BoolSort (Some "setone_community_var_") None ;;
  value <- _get_communities index_var actions index community (var new_var) 0 ;;
  register_constraint (EEq (var new_var) value)
    (Some ("setone_" +:+ attr +:+ "_")) ;;;
  ret new_var.

Fixpoint SMTSetOne_communities (index_var : SMTVar) (actions : list nat)
    (index : nat) (attr : string) (comms : list Community)
    (new_comms : list (Community * SMTVar)) : M (list (Community * SMTVar)) :=
  match comms with
  | [] => ret new_comms
  | community :: r =>
      new_var <- SMTSetOne_fresh_community index_var actions index attr community ;;
      SMTSetOne_communities index_var actions index attr r
        (dict_set new_comms community new_var)
  end.

(** Body of the attribute loop of [SMTSetOne.execute]. *)
Definition SMTSetOne_attr (fuel : nat) (self : nat) (index_var : SMTVar)
    (actions : list nat) (attr_only : bool) (attrs : list (option string))
    (index : nat) (old_ann : Announcement) (attr : string)
  : M (attr_val * list expr) :=
  old_var <- lift (getattr old_ann attr) ;;
  if attr_only && negb (bool_decide (Some attr ∈ attrs)) then
    ret (old_var, [])
  else if bool_decide (attr = "communities") then
    new_comms <- match old_var with
                 | AComms c => ret c
                 | AVar _ => raise TypeError
                 end ;;
    comms <- SMTAction_communities fuel self ;;
    r <- SMTSetOne_communities index_var actions index attr comms new_comms ;;
    ret (AComms r, [])
  else
    new_var <- SMTSetOne_fresh_attr index_var actions index old_var attr ;;
    ret (AVar new_var, []).

(** The loop over [enumerate(self.old_announcements)]. *)
Fixpoint SMTSetOne_announcements (fuel : nat) (self : nat) (index_var : SMTVar)
    (actions : list nat) (attr_only : bool) (attrs : list (option string))
    (index : nat) (olds : list Announcement) : M (list Announcement) :=
  match olds with
  | [] => ret []
  | old_ann :: r =>
      new_values <- for_each
                      (SMTSetOne_attr fuel self index_var actions attr_only
                         attrs index old_ann)
                      Announcement_attributes [] [] ;;
      new_ann <- lift (Announcement_of (fst new_values)) ;;
      rest <- SMTSetOne_announcements fuel self index_var actions attr_only
                attrs (S index) r ;;
      ret (new_ann :: rest)
  end.

(** [execute] of every action class, dispatched on the object at [self]. *)
Fixpoint execute (fuel : nat) (self : nat) : M unit :=
  match fuel with
  | O => raise RecursionError
  | S fuel =>
      nd <- get_action self ;;
      match akind nd with
      | KSetAttribute attribute value =>
          SMTSetAttribute_execute fuel self nd attribute value
      | KSetCommunity community value =>
          SMTSetCommunity_execute fuel self nd community value
      | KSetOne index_var actions =>
          mapM (execute fuel) actions ;;;
          attrs <- SMTAction_attributes (S fuel) self ;;
          let attr_only := negb (bool_decide (None ∈ attrs)) in
          new_anns <- SMTSetOne_announcements (S fuel) self index_var actions
                        attr_only attrs 0
                        (announcements_list (_old_announcements nd)) ;;
          set_announcements self (create_new new_anns self)
      end
  end.

(** [self.announcements] *)
Definition announcements (a : nat) : M (option AnnouncementsContext) :=
  nd <- get_action a ;; ret (_announcements nd).

(** ** Action constructors *)

Definition SMTSetAttribute (fuel : nat) (m : nat) (attribute : string)
    (value : option SMTVar) (anns : AnnouncementsContext) : M nat :=
  assert (bool_decide (attribute ∈ Announcement_attributes)) ;;;
  assert (nonempty (announcements_list anns)) ;;;
  value <- match value with
           | Some v => ret v
           | None =>
               a0 <- lift (first_announcement (announcements_list anns)) ;;
               x <- lift (getattr a0 attribute) ;;
               vs <- lift (attr_vsort x) ;;
               create_fresh_var vs (Some ("Set_" +:+ attribute +:+ "_val")) None
           end ;;
  a0 <- lift (first_announcement (announcements_list anns)) ;;
  x <- lift (getattr a0 attribute) ;;
  attr_sort <- lift (attr_vsort x) ;;
  assert (bool_decide (attr_sort = vsort_of value)) ;;;
  self <- alloc_action (mkAction (KSetAttribute attribute value) m anns None) ;;
  execute fuel self ;;;
  ret self.

Definition SMTSetCommunity (fuel : nat) (m : nat) (community : Community)
    (value : option SMTVar) (anns : AnnouncementsContext) : M nat :=
  a0 <- lift (first_announcement (announcements_list anns)) ;;
  assert (dict_has (communities a0) community) ;;;
  assert (nonempty (announcements_list anns)) ;;;
  value <- match value with
           | Some v => ret v
           | None => create_fresh_var BoolSort (Some "Set_community_val_")
                       (Some (PBool true))
           end ;;
  assert (bool_decide (BoolSort = vsort_of value)) ;;;
  self <- alloc_action (mkAction (KSetCommunity community value) m anns None) ;;
  execute fuel self ;;;
  ret self.

(** [attribute_set_factory] called with a match, announcements and a
    context. *)
Definition attribute_set_factory (fuel : nat) (attribute : string + Community)
    (m : nat) (value : option SMTVar) (anns : AnnouncementsContext) : M nat :=
  match attribute with
  | inl name =>
      if bool_decide (name ∈ ["prefix"; "peer"; "origin"; "as_path";
                              "as_path_len"; "next_hop"; "local_pref";
                              "permitted"; "med"])
      then SMTSetAttribute fuel m name value anns
      else raise ValueError
  | inr community => SMTSetCommunity fuel m community value anns
  end.

(** The two assertions on each candidate of [SMTSetOne.__init__]. *)
Definition check_candidate (m : nat) (anns : AnnouncementsContext)
    (action : nat) : M unit :=
  nd <- get_action action ;;
  assert (bool_decide (a_match nd = m)) ;;;
  assert (bool_decide (_old_announcements nd = anns)).

Definition SMTSetOne (fuel : nat) (m : nat) (anns : AnnouncementsContext)
    (actions : option (list nat)) : M nat :=
  assert (nonempty (announcements_list anns)) ;;;
  actions <- match actions with
             | Some (a :: r) => ret (a :: r)
             | _ =>
                 keys <- lift (default_universe (announcements_list anns)) ;;
                 mapM (fun key => attribute_set_factory fuel key m None anns) keys
             end ;;
  index_var <- create_fresh_var IntSort (Some "SetOneIndex_") None ;;
  mapM (check_candidate m anns) actions ;;;
  register_constraint
    (EAnd [EGe (var index_var) (ELit (PInt 0));
           ELt (var index_var) (ELit (PInt (Z.of_nat (length actions))))])
    (Some "setone_index_max_") ;;;
  alloc_action (mkAction (KSetOne index_var actions) m anns None).

(** * Specification vocabulary *)

(** ** The store only grows: [is_match] keeps every match object, its
    parameters and the cache entries it already had *)

Definition node_le (nd nd' : match_node) : Prop :=
  mkind nd' = mkind nd /\
  m_announcements nd' = m_announcements nd /\
  forall a v, dict_get (matched_announcements nd) a = Some v ->
              dict_get (matched_announcements nd') a = Some v.

Definition store_le (s s' : state) : Prop :=
  action_store s' = action_store s /\
  forall m nd, match_store s !! m = Some nd ->
               exists nd', match_store s' !! m = Some nd' /\ node_le nd nd'.

(** The part of [store_le] on the match objects alone: every match object
    is still there, with its class, its parameters and the answers it had
    cached, whatever happened to the actions and to the solver context. *)
Definition matches_le (s s' : state) : Prop :=
  forall m nd, match_store s !! m = Some nd ->
               exists nd', match_store s' !! m = Some nd' /\ node_le nd nd'.

(** ** Which symbolic value a registered constraint defines *)





(** [c] says exactly [0 <= index < k] of the symbolic integer [idx]. *)
Definition index_range (idx : SMTVar) (k : nat) (c : expr) : Prop :=
  value idx = None /\ vsort_of idx = IntSort /\
  forall env, holds env c <->
              exists i, env (uid idx) = PInt i /\ 0 <= i < Z.of_nat k.

(** [c] says exactly [index < k] of the symbolic integer [idx]: a bound
    from above and none from below. *)
Definition index_below (idx : SMTVar) (k : nat) (c : expr) : Prop :=
  value idx = None /\ vsort_of idx = IntSort /\
  forall env, holds env c <->
              exists i, env (uid idx) = PInt i /\ i < Z.of_nat k.

(** The selection by index over [vals], numbered from [i] on, written the
    way the spec describes it: [if index == i then vals[0] else if
    index == i + 1 then vals[1] ... else default]. *)
Fixpoint nested_conditional (index : expr) (vals : list expr) (default : expr)
    (i : Z) : expr :=
  match vals with
  | [] => default
  | v :: r =>
      EIf (EEq index (ELit (PInt i))) v (nested_conditional index r default (i + 1))
  end.

(** The last [else] branch of a chain of conditionals. *)
Fixpoint fallback_branch (e : expr) : expr :=
  match e with
  | EIf _ _ e' => fallback_branch e'
  | _ => e
  end.

(** The value of [attribute] that candidate [action] computed for the
    announcement at [ann_index], as a solver term. *)
Definition candidate_new_value (s : state) (action : nat) (ann_index : nat)
    (attribute : string) : option expr :=
  match action_store s !! action with
  | Some nd =>
      match _announcements nd with
      | Some c =>
          match announcements_list c !! ann_index with
          | Some ann =>
              match getattr ann attribute with
              | OK x => match attr_var x with OK e => Some e | Raise _ => None end
              | Raise _ => None
              end
          | None => None
          end
      | None => None
      end
  | None => None
  end.

(** A candidate that passes the two assertions of [SMTSetOne.__init__]. *)
Definition valid_candidate (s : state) (m : nat) (anns : AnnouncementsContext)
    (a : nat) : Prop :=
  exists nd, action_store s !! a = Some nd /\
             a_match nd = m /\ _old_announcements nd = anns.

(** ** Example inputs *)

Definition concrete_var (u : nat) (vs : vsort) (x : pyval) : SMTVar :=
  mkSMTVar None u vs (Some x).

Definition symbolic_var (u : nat) (vs : vsort) : SMTVar :=
  mkSMTVar None u vs None.

(** An announcement from peer [P1] whose local preference and community
    [c1] are unknown. *)
Definition ann1 : Announcement :=
  mkAnnouncement
    (concrete_var 100 (EnumSort "Prefix") (PEnum "Prefix1"))
    (concrete_var 101 (EnumSort "Peer") (PEnum "P1"))
    (concrete_var 102 (EnumSort "Origin") (PEnum "IGP"))
    (concrete_var 103 (EnumSort "ASPath") (PEnum "path1"))
    (concrete_var 104 IntSort (PInt 1))
    (concrete_var 105 (EnumSort "NextHop") (PEnum "hop1"))
    (symbolic_var 106 IntSort)
    (concrete_var 107 IntSort (PInt 0))
    [(Comm "c1", symbolic_var 108 BoolSort)]
    (concrete_var 109 BoolSort (PBool true)).


(** The empty solver context and store.  The values written by hand in the
    examples take the names from 100 on; fresh names start at 0. *)
Definition empty_state : state := mkState (mkCtx 0 [] []) [] [].

(** The state a computation leaves, [empty_state] if it raised. *)
Definition state_after {A} (c : M A) : state :=
  match c empty_state with
  | OK (_, s) => s
  | Raise _ => empty_state
  end.


(** An empty [MatchAnd] (0) and an empty [MatchOr] (1). *)
Definition empty_combinators : state :=
  state_after (SMTMatchAnd [] [ann1] ;;; SMTMatchOr [] [ann1]).

(** A match [local_pref == 100] (node 0). *)
Definition local_pref_100 : state :=
  state_after (SMTMatchAttribute "local_pref"
                 (Some (concrete_var 110 IntSort (PInt 100))) [ann1]).

(** The announcement set made of [ann1] alone. *)
Definition anns1 : AnnouncementsContext := mkAnns [ann1] None.

(** A guard that matches everything (match 0) and two candidates over
    [anns1], [local_pref := 200] (action 0) and [med := 7] (action 1). *)
Definition two_candidates : state :=
  state_after
    (m <- SMTMatchAll ;;
     a1 <- SMTSetAttribute 3 m "local_pref"
             (Some (concrete_var 111 IntSort (PInt 200))) anns1 ;;
     SMTSetAttribute 3 m "med"
       (Some (concrete_var 112 IntSort (PInt 7))) anns1).

(** The same with a [SetOne] over the two candidates (action 2),
    constructed but not executed. *)
Definition setone_two_candidates : state :=
  state_after
    (m <- SMTMatchAll ;;
     a1 <- SMTSetAttribute 3 m "local_pref"
             (Some (concrete_var 111 IntSort (PInt 200))) anns1 ;;
     a2 <- SMTSetAttribute 3 m "med"
             (Some (concrete_var 112 IntSort (PInt 7))) anns1 ;;
     SMTSetOne 3 m anns1 (Some [a1; a2])).

(** The index of the [SetOne] in [setone_two_candidates]. *)
Definition setone_index : SMTVar := mkSMTVar (Some "SetOneIndex_") 1 IntSort None.

(** ** Reading the solved index back *)

(** Modelled from the spec: [SMTVar.get_value] once the solver has produced
    a model, missing from src.  A concrete value is its own value, a symbolic
    one is what the model assigns to its solver constant. *)
Definition solved_value (model : nat -> pyval) (v : SMTVar) : pyval :=
  match value v with
  | Some x => x
  | None => model (uid v)
  end.

(** [d[key]] on the dictionary [{0: l[0], 1: l[1], ...}] built by
    [enumerate]: an integer key in range finds its entry ([True] and [False]
    are the keys 1 and 0), any other key raises [KeyError]. *)
Definition dict_index {A} (l : list A) (key : pyval) : res A :=
  let at_index (i : Z) :=
    if 0 <=? i then
      match l !! Z.to_nat i with
      | Some x => OK x
      | None => Raise KeyError
      end
    else Raise KeyError in
  match key with
  | PInt i => at_index i
  | PBool b => at_index (if b then 1 else 0)
  | PEnum _ => Raise KeyError
  | PObj _ => Raise KeyError
  end.

(** [SMTMatchSelectOne.get_used_match]; the other match classes have no
    such method. *)
Definition get_used_match (model : nat -> pyval) (m : nat) : M nat :=
  self <- get_match m ;;
  match mkind self with
  | KMatchSelectOne index_var matches =>
      lift (dict_index matches (solved_value model index_var))
  | _ => raise AttributeError
  end.

(** [SMTSetOne.get_used_action] *)
Definition get_used_action (model : nat -> pyval) (a : nat) : M nat :=
  self <- get_action a ;;
  match akind self with
  | KSetOne index_var actions =>
      lift (dict_index actions (solved_value model index_var))
  | _ => raise AttributeError
  end.

(** ** Vocabulary for the matches *)

(** The first query of a match whose own work is one comparison
    [constraint]: a concrete comparison gives a concrete result and no
    constraint, a symbolic one a fresh symbolic result defined by one
    constraint. *)
Definition comparison_outcome (s s' : state) (v : SMTVar)
    (constraint : bool + expr) (prefix : option string) : Prop :=
  uid v = next_uid (ctx s) /\ vsort_of v = BoolSort /\
  next_uid (ctx s') = S (next_uid (ctx s)) /\
  match constraint with
  | inl b =>
      value v = Some (PBool b) /\ constraints (ctx s') = constraints (ctx s)
  | inr c =>
      value v = None /\
      constraints (ctx s')
      = constraints (ctx s) ++ [(prefix, EEq (EConst (uid v) BoolSort) c)]
  end.

(** ** More example inputs *)

(** [ann1] without any community. *)
Definition ann_plain : Announcement :=
  mkAnnouncement (prefix ann1) (peer ann1) (origin ann1) (as_path ann1)
    (as_path_len ann1) (next_hop ann1) (local_pref ann1) (med ann1) []
    (permitted ann1).

(** A match on community [c1] with the default value (node 0). *)
Definition community_c1 : state :=
  state_after (SMTMatchCommunity (Comm "c1") None [ann1]).

(** The guard [local_pref == 100] (match 0, symbolic on [ann1]) and a
    [SetAttribute] [med := 7] over [anns1] (action 0) that has not been
    executed yet. *)
Definition unexecuted_set_med_node : action_node :=
  mkAction (KSetAttribute "med" (concrete_var 112 IntSort (PInt 7)))
    0 anns1 None.

Definition unexecuted_set_med : state :=
  state_after
    (SMTMatchAttribute "local_pref"
       (Some (concrete_var 110 IntSort (PInt 100))) [ann1] ;;;
     alloc_action unexecuted_set_med_node).

(** The same action under a guard that matches everything (match 0). *)
Definition set_med_under_match_all : state :=
  state_after (SMTMatchAll ;;; alloc_action unexecuted_set_med_node).

(** A [SetCommunity] [c1 := true] over [anns1] (action 0), not executed
    yet, under a guard that matches nothing (match 0). *)
Definition unexecuted_set_c1_node : action_node :=
  mkAction (KSetCommunity (Comm "c1") (concrete_var 113 BoolSort (PBool true)))
    0 anns1 None.

Definition set_c1_under_match_none : state :=
  state_after (SMTMatchNone ;;; alloc_action unexecuted_set_c1_node).

(** A guard that matches everything (match 0) and nothing else. *)
Definition one_match_all : state := state_after SMTMatchAll.

(** A match [local_pref == 100] (node 0), symbolic on [ann1], under a
    [MatchAnd] (node 1). *)
Definition and_over_local_pref : state :=
  state_after
    (m1 <- SMTMatchAttribute "local_pref"
             (Some (concrete_var 110 IntSort (PInt 100))) [ann1] ;;
     SMTMatchAnd [m1] [ann1]).

(** ** Vocabulary for the actions *)

(** The announcement [a] with the attribute named [attr] replaced by [v];
    a name that is no attribute of a symbolic value leaves [a] as it is. *)
Definition set_attr (a : Announcement) (attr : string) (v : SMTVar)
  : Announcement :=
  let pick (k : string) (old : SMTVar) :=
    if bool_decide (k = attr) then v else old in
  mkAnnouncement (pick "prefix" (prefix a)) (pick "peer" (peer a))
    (pick "origin" (origin a)) (pick "as_path" (as_path a))
    (pick "as_path_len" (as_path_len a)) (pick "next_hop" (next_hop a))
    (pick "local_pref" (local_pref a)) (pick "med" (med a))
    (communities a) (pick "permitted" (permitted a)).

(** The communities [comms] with the entry of [tag] replaced by [v]. *)
Definition set_community (comms : list (Community * SMTVar)) (tag : Community)
    (v : SMTVar) : list (Community * SMTVar) :=
  map (fun kv : Community * SMTVar =>
         (fst kv, if bool_decide (fst kv = tag) then v else snd kv)) comms.

(** The announcement [a] with its communities replaced by [comms]. *)
Definition with_communities (a : Announcement)
    (comms : list (Community * SMTVar)) : Announcement :=
  mkAnnouncement (prefix a) (peer a) (origin a) (as_path a) (as_path_len a)
    (next_hop a) (local_pref a) (med a) comms (permitted a).

(** The boolean of [community] that candidate [action] computed for the
    announcement at [ann_index], as a solver term. *)
Definition candidate_new_community (s : state) (action : nat) (ann_index : nat)
    (community : Community) : option expr :=
  match action_store s !! action with
  | Some nd =>
      match _announcements nd with
      | Some c =>
          match announcements_list c !! ann_index with
          | Some ann =>
              match dict_get (communities ann) community with
              | Some v => Some (var v)
              | None => None
              end
          | None => None
          end
      | None => None
      end
  | None => None
  end.

(** The fresh boolean that [SMTSetOne.execute] creates for a community of
    its footprint, and the constraint that defines it from the candidates'
    values [vals]. *)
Definition setone_community_var (u : nat) : SMTVar :=
  mkSMTVar (Some "setone_community_var_") u BoolSort None.

Definition setone_community_constraint (index_var : SMTVar) (attr : string)
    (u : nat) (vals : list expr) : option string * expr :=
  (Some ("setone_" +:+ attr +:+ "_"),
   EEq (var (setone_community_var u))
     (nested_conditional (var index_var) vals (var (setone_community_var u)) 0)).

(** What [execute] may not touch in the action store: the class, the
    guard and the old announcement set of every action. *)
Definition action_le (s s' : state) : Prop :=
  length (action_store s') = length (action_store s) /\
  forall a nd, action_store s !! a = Some nd ->
    exists nd', action_store s' !! a = Some nd' /\
      akind nd' = akind nd /\ a_match nd' = a_match nd /\
      _old_announcements nd' = _old_announcements nd.

(** ** What a query and an execution keep *)

(** The solver context only grew: every value created and every constraint
    registered before is still there, in its place. *)
Definition ctx_le (s s' : state) : Prop :=
  (next_uid (ctx s) <= next_uid (ctx s'))%nat /\
  (exists new, vars (ctx s') = vars (ctx s) ++ new) /\
  (exists new, constraints (ctx s') = constraints (ctx s) ++ new).

(** Between [s] and [s'] the solver context grew and the actions stayed as
    they were: what the loop of [SMTSetOne.execute] does to the state once
    the candidates have been executed. *)
Definition solver_grew (s s' : state) : Prop :=
  ctx_le s s' /\ action_store s' = action_store s.

(** Every candidate has published a set of [n] announcements. *)
Definition candidates_ready (s : state) (actions : list nat) (n : nat) : Prop :=
  Forall (fun a => exists nd c,
              action_store s !! a = Some nd /\
              _announcements nd = Some c /\
              length (announcements_list c) = n) actions.

(** What an announcement holds under an attribute name: the communities
    dictionary under [communities], a symbolic value under the others. *)
Definition attr_shape (attr : string) (x : attr_val) : Prop :=
  if bool_decide (attr = "communities") then exists c, x = AComms c
  else exists v, x = AVar v.

(** * Properties *)

(** ** The monad *)

Lemma bind_OK {A B} (c : M A) (k : A -> M B) s y s' :
  bind c k s = OK (y, s') ->
  exists x s1, c s = OK (x, s1) /\ k x s1 = OK (y, s').
Proof.
  unfold bind. destruct (c s) as [[x s1]|e]; [eauto | discriminate].
Qed.

Lemma bind_run {A B} (c : M A) (k : A -> M B) s x s1 :
  c s = OK (x, s1) -> bind c k s = k x s1.
Proof. unfold bind. intros ->. reflexivity. Qed.

Lemma lift_OK {A} (r : res A) s x s' :
  lift r s = OK (x, s') -> r = OK x /\ s' = s.
Proof. unfold lift. destruct r; intros H; inversion H; auto. Qed.

Lemma assert_OK b s u s' : assert b s = OK (u, s') -> b = true /\ s' = s.
Proof. unfold assert. destruct b; intros H; inversion H; auto. Qed.

(** Splits a successful run along its [bind]s. *)
Ltac run_inv H :=
  lazymatch type of H with
  | bind _ _ _ = OK _ =>
      let x := fresh "x" in
      let s := fresh "s" in
      let E := fresh "E" in
      apply bind_OK in H as (x & s & E & H); run_inv E; run_inv H
  | ret _ _ = OK _ => unfold ret in H; inversion H; subst; clear H
  | lift _ _ = OK _ =>
      let E := fresh "E" in
      apply lift_OK in H as [E ->]
  | assert _ _ = OK _ =>
      let E := fresh "E" in
      apply assert_OK in H as [E ->]
  | raise _ _ = OK _ => discriminate H
  | _ => idtac
  end.

(** ** Dictionaries *)

Lemma dict_get_set_eq {K V} `{EqDecision K} (d : list (K * V)) k v :
  dict_get (dict_set d k v) k = Some v.
Proof.
  induction d as [|[k' v'] d IH]; simpl.
  - destruct (decide (k = k)); congruence.
  - destruct (decide (k = k')) as [->|Hne]; simpl.
    + destruct (decide (k' = k')); congruence.
    + destruct (decide (k = k')); [contradiction | exact IH].
Qed.

Lemma dict_get_set_ne {K V} `{EqDecision K} (d : list (K * V)) k k' v :
  k <> k' -> dict_get (dict_set d k v) k' = dict_get d k'.
Proof.
  intros Hne. induction d as [|[k0 v0] d IH]; simpl.
  - destruct (decide (k' = k)); congruence.
  - destruct (decide (k = k0)) as [->|Hne0]; simpl.
    + destruct (decide (k' = k0)); congruence.
    + destruct (decide (k' = k0)); [reflexivity | exact IH].
Qed.

(** ** Solver context operations *)

Lemma create_fresh_var_OK vs p val s v s' :
  create_fresh_var vs p val s = OK (v, s') ->
  v = mkSMTVar p (next_uid (ctx s)) vs val /\
  match_store s' = match_store s /\
  action_store s' = action_store s /\
  constraints (ctx s') = constraints (ctx s) /\
  next_uid (ctx s') = S (next_uid (ctx s)).
Proof. unfold create_fresh_var. intros H; inversion H; subst; simpl; auto. Qed.

Lemma register_constraint_OK e p s u s' :
  register_constraint e p s = OK (u, s') ->
  match_store s' = match_store s /\
  action_store s' = action_store s /\
  constraints (ctx s') = constraints (ctx s) ++ [(p, e)] /\
  next_uid (ctx s') = next_uid (ctx s).
Proof. unfold register_constraint. intros H; inversion H; subst; simpl; auto. Qed.

Lemma node_le_refl nd : node_le nd nd.
Proof. unfold node_le; auto. Qed.

Lemma node_le_trans a b c : node_le a b -> node_le b c -> node_le a c.
Proof.
  intros (K1 & A1 & C1) (K2 & A2 & C2). unfold node_le.
  repeat split; try congruence. auto.
Qed.

Lemma store_le_refl s : store_le s s.
Proof. split; [reflexivity|]. intros m nd H. exists nd. split; [exact H | apply node_le_refl]. Qed.

Lemma store_le_trans s1 s2 s3 : store_le s1 s2 -> store_le s2 s3 -> store_le s1 s3.
Proof.
  intros [A1 H1] [A2 H2]. split; [congruence|].
  intros m nd Hm. destruct (H1 m nd Hm) as (nd2 & Hm2 & L2).
  destruct (H2 m nd2 Hm2) as (nd3 & Hm3 & L3).
  exists nd3. split; [exact Hm3 | eapply node_le_trans; eauto].
Qed.

Lemma store_le_stores s s' :
  match_store s' = match_store s -> action_store s' = action_store s ->
  store_le s s'.
Proof.
  intros Hm Ha. split; [exact Ha|]. intros m nd H. exists nd. rewrite Hm.
  split; [exact H | apply node_le_refl].
Qed.

Lemma matches_le_refl s : matches_le s s.
Proof. intros m nd H. exists nd. split; [exact H | apply node_le_refl]. Qed.

Lemma matches_le_trans s1 s2 s3 :
  matches_le s1 s2 -> matches_le s2 s3 -> matches_le s1 s3.
Proof.
  intros H1 H2 m nd Hm. destruct (H1 m nd Hm) as (nd2 & Hm2 & L2).
  destruct (H2 m nd2 Hm2) as (nd3 & Hm3 & L3).
  exists nd3. split; [exact Hm3 | eapply node_le_trans; eauto].
Qed.

Lemma matches_le_same s s' : match_store s' = match_store s -> matches_le s s'.
Proof.
  intros E m nd H. exists nd. rewrite E. split; [exact H | apply node_le_refl].
Qed.


Lemma create_fresh_var_le vs p val s v s' :
  create_fresh_var vs p val s = OK (v, s') -> store_le s s'.
Proof. intros H. apply create_fresh_var_OK in H as (_ & ? & ? & _). by apply store_le_stores. Qed.

Lemma register_constraint_le e p s u s' :
  register_constraint e p s = OK (u, s') -> store_le s s'.
Proof. intros H. apply register_constraint_OK in H as (? & ? & _). by apply store_le_stores. Qed.

Lemma cache_get_OK m a s v s' :
  cache_get m a s = OK (v, s') ->
  s' = s /\ exists nd, match_store s !! m = Some nd /\
                       dict_get (matched_announcements nd) a = Some v.
Proof.
  unfold cache_get. destruct (match_store s !! m) as [nd|] eqn:E; [|discriminate].
  destruct (dict_get (matched_announcements nd) a) eqn:D; [|discriminate].
  intros H; inversion H; subst. eauto.
Qed.

Lemma cache_get_run m a s nd v :
  match_store s !! m = Some nd ->
  dict_get (matched_announcements nd) a = Some v ->
  cache_get m a s = OK (v, s).
Proof. unfold cache_get. intros -> ->. reflexivity. Qed.

Lemma cache_set_OK m a v s u s' :
  cache_set m a v s = OK (u, s') ->
  exists nd, match_store s !! m = Some nd /\
    ctx s' = ctx s /\ action_store s' = action_store s /\
    match_store s' =
      <[m := mkMatch (mkind nd) (m_announcements nd)
               (dict_set (matched_announcements nd) a v)]> (match_store s).
Proof.
  unfold cache_set. destruct (match_store s !! m) as [nd|] eqn:E; [|discriminate].
  intros H; inversion H; subst; simpl. eauto.
Qed.

(** After [cache_set m a v] the entry reads back as [v]. *)
Lemma cache_set_get m a v s u s' :
  cache_set m a v s = OK (u, s') ->
  exists nd', match_store s' !! m = Some nd' /\
              dict_get (matched_announcements nd') a = Some v.
Proof.
  intros H. apply cache_set_OK in H as (nd & Hm & _ & _ & Hs).
  eexists. split.
  - rewrite Hs. apply list_lookup_insert_eq. eapply lookup_lt_Some; eauto.
  - simpl. apply dict_get_set_eq.
Qed.

(** Writing an entry that the starting state [s0] did not have keeps
    everything [s0] had. *)
Lemma cache_set_le s0 m a v s u s' :
  store_le s0 s ->
  (forall nd, match_store s0 !! m = Some nd ->
              dict_get (matched_announcements nd) a = None) ->
  cache_set m a v s = OK (u, s') ->
  store_le s0 s'.
Proof.
  intros [Ha Hle] Hmiss H.
  apply cache_set_OK in H as (nd & Hm & _ & Ha' & Hs).
  split; [congruence|].
  intros m' nd0 Hm0. destruct (Hle m' nd0 Hm0) as (nd1 & Hm1 & (K & A & C)).
  destruct (decide (m = m')) as [<-|Hne].
  - eexists. split.
    + rewrite Hs. apply list_lookup_insert_eq. eapply lookup_lt_Some; eauto.
    + assert (nd1 = nd) by congruence. subst nd1.
      repeat split; simpl; auto.
      intros a' v' Hget.
      destruct (decide (a = a')) as [<-|Hna].
      * rewrite (Hmiss nd0 Hm0) in Hget. discriminate.
      * rewrite dict_get_set_ne by exact Hna. auto.
  - exists nd1. split.
    + rewrite Hs. rewrite list_lookup_insert_ne by exact Hne. exact Hm1.
    + repeat split; auto.
Qed.

Lemma mapM_le {A B} (f : A -> M B) (l : list A) :
  (forall x s y s', f x s = OK (y, s') -> store_le s s') ->
  forall s ys s', mapM f l s = OK (ys, s') -> store_le s s'.
Proof.
  intros Hf. induction l as [|x l IH]; simpl; intros s ys s' H.
  - run_inv H. apply store_le_refl.
  - run_inv H. eapply store_le_trans; [eapply Hf; eauto|]. eapply IH; eauto.
Qed.

Lemma _get_match_le (f : nat -> Announcement -> M SMTVar) idx a :
  (forall m s v s', f m a s = OK (v, s') -> store_le s s') ->
  forall l i s e s', _get_match f idx l a i s = OK (e, s') -> store_le s s'.
Proof.
  intros Hf. induction l as [|m l IH]; simpl; intros i s e s' H.
  - run_inv H. apply store_le_refl.
  - run_inv H. eapply store_le_trans; [eapply Hf; eauto|]. eapply IH; eauto.
Qed.

Lemma get_match_OK m s nd s' :
  get_match m s = OK (nd, s') -> s' = s /\ match_store s !! m = Some nd.
Proof.
  unfold get_match. destruct (match_store s !! m) eqn:E; [|discriminate].
  intros H; inversion H; subst; auto.
Qed.

Lemma cached_false nd a :
  cached nd a = false -> dict_get (matched_announcements nd) a = None.
Proof. unfold cached, dict_has. destruct (dict_get _ a); [discriminate | reflexivity]. Qed.

Lemma cached_true nd a :
  cached nd a = true -> exists v, dict_get (matched_announcements nd) a = Some v.
Proof. unfold cached, dict_has. destruct (dict_get _ a); [eauto | discriminate]. Qed.

(** Walks a goal [store_le s s'] along the steps recorded in the context. *)
Ltac le_step :=
  match goal with
  | |- store_le ?s ?s => apply store_le_refl
  | H : create_fresh_var _ _ _ ?s = OK _ |- store_le ?s _ =>
      eapply store_le_trans; [eapply create_fresh_var_le; exact H|]
  | H : register_constraint _ _ ?s = OK _ |- store_le ?s _ =>
      eapply store_le_trans; [eapply register_constraint_le; exact H|]
  | H : (if ?b then _ else _) ?s = OK _ |- store_le ?s _ =>
      destruct b; run_inv H
  | H : match ?c with inl _ => _ | inr _ => _ end ?s = OK _ |- store_le ?s _ =>
      destruct c; run_inv H
  end.

Lemma is_match_le fuel :
  forall m a s v s', is_match fuel m a s = OK (v, s') -> store_le s s'.
Proof.
  induction fuel as [|fuel IH]; intros m a s v s' H; [discriminate|].
  simpl in H. apply bind_OK in H as (self & s1 & Hself & H).
  apply get_match_OK in Hself as [-> Hself].
  assert (Hmiss : cached self a = false ->
            forall nd, match_store s !! m = Some nd ->
                       dict_get (matched_announcements nd) a = None).
  { intros Hc nd Hnd. rewrite Hself in Hnd. inversion Hnd; subst.
    by apply cached_false. }
  assert (Hsub : forall x s y s',
            (fun sub => is_match fuel sub a) x s = OK (y, s') -> store_le s s').
  { intros ? ? ? ? Hx. exact (IH _ _ _ _ _ Hx). }
  destruct (mkind self) as [mv|mv|ms|ms|idx ms|attribute val|community val|sub];
    try (destruct sub as [sub|]; [exact (IH _ _ _ _ _ H) | discriminate]);
    try (run_inv H; apply store_le_refl);
    try (apply bind_OK in H as (attr & s1 & Hattr & H);
         apply lift_OK in Hattr as [Hattr ->]);
    apply bind_OK in H as (u & s2 & Hbody & Hget);
    apply cache_get_OK in Hget as [-> _];
    (destruct (cached self a) eqn:Hc; [run_inv Hbody; apply store_le_refl|]);
    run_inv Hbody.
  - eapply cache_set_le; [| by apply Hmiss | eassumption].
    eapply store_le_trans; [eapply mapM_le; [exact Hsub | eassumption]|].
    repeat le_step.
  - eapply cache_set_le; [| by apply Hmiss | eassumption].
    eapply store_le_trans; [eapply mapM_le; [exact Hsub | eassumption]|].
    repeat le_step.
  - eapply store_le_trans;
      [eapply cache_set_le; [| by apply Hmiss | eassumption]; repeat le_step|].
    eapply store_le_trans;
      [eapply _get_match_le; [|eassumption];
       intros ? ? ? ? Hx; exact (IH _ _ _ _ _ Hx)|].
    repeat le_step.
  - eapply cache_set_le; [| by apply Hmiss | eassumption]. repeat le_step.
  - eapply cache_set_le; [| by apply Hmiss | eassumption]. repeat le_step.
Qed.

(** ** Definitions grow with the fresh values *)












(** A second call on the same match object and announcement finds the
    cache entry of the first: same value, nothing changed. *)
Lemma is_match_again fuel :
  forall m a s v s1,
    is_match fuel m a s = OK (v, s1) -> is_match fuel m a s1 = OK (v, s1).
Proof.
  induction fuel as [|fuel IH]; intros m a s v s1 H; [discriminate|].
  pose proof (is_match_le _ _ _ _ _ _ H) as [_ Hle].
  simpl in H |- *. apply bind_OK in H as (self & s0 & Hself & H).
  apply get_match_OK in Hself as [-> Hself].
  destruct (Hle m self Hself) as (self1 & Hself1 & K & _ & _).
  rewrite (bind_run _ _ _ self1 s1)
    by (unfold get_match; rewrite Hself1; reflexivity).
  rewrite K.
  assert (Hhit : forall u s2, cache_get m a s2 = OK (v, s1) ->
            bind (if cached self1 a then ret tt else u) (fun _ => cache_get m a) s1
            = OK (v, s1)).
  { intros u s2 Hget. apply cache_get_OK in Hget as (-> & nd & Hnd & Hv).
    assert (nd = self1) by congruence. subst nd.
    unfold cached, dict_has. rewrite Hv.
    unfold bind, ret. eapply cache_get_run; eauto. }
  destruct (mkind self) as [mv|mv|ms|ms|idx ms|attribute val|community val|sub].
  - run_inv H. reflexivity.
  - run_inv H. reflexivity.
  - apply bind_OK in H as (u & s2 & _ & Hget). eapply Hhit; eauto.
  - apply bind_OK in H as (u & s2 & _ & Hget). eapply Hhit; eauto.
  - apply bind_OK in H as (u & s2 & _ & Hget). eapply Hhit; eauto.
  - apply bind_OK in H as (attr & s0 & Hattr & H).
    apply lift_OK in Hattr as [Hattr ->].
    rewrite (bind_run _ _ _ attr s1) by (unfold lift; by rewrite Hattr).
    apply bind_OK in H as (u & s2 & _ & Hget). eapply Hhit; eauto.
  - apply bind_OK in H as (u & s2 & _ & Hget). eapply Hhit; eauto.
  - destruct sub as [sub|]; [|discriminate]. eapply IH; eauto.
Qed.


(** ** Partial evaluation: a concrete result costs no constraint *)

Lemma mapM_concrete_silent {A} (f : A -> M SMTVar) (l : list A) :
  (forall x s y s', f x s = OK (y, s') -> is_concrete y = true ->
                    constraints (ctx s') = constraints (ctx s)) ->
  forall s ys s', mapM f l s = OK (ys, s') ->
    forallb is_concrete ys = true ->
    constraints (ctx s') = constraints (ctx s).
Proof.
  intros Hf. induction l as [|x l IH]; simpl; intros s ys s' H Hc.
  - run_inv H. reflexivity.
  - run_inv H. simpl in Hc. apply andb_prop in Hc as [Hc1 Hc2].
    erewrite IH by eauto. eapply Hf; eauto.
Qed.

(** The value that [cache_get] reads right after [cache_set] wrote it,
    possibly with steps in between that keep the store. *)
Lemma cache_set_then_get m a x s u s1 s2 v s3 :
  cache_set m a x s = OK (u, s1) ->
  store_le s1 s2 ->
  cache_get m a s2 = OK (v, s3) ->
  v = x /\ s3 = s2.
Proof.
  intros Hset [_ Hle] Hget.
  apply cache_set_get in Hset as (nd1 & Hnd1 & Hv1).
  destruct (Hle m nd1 Hnd1) as (nd2 & Hnd2 & _ & _ & Hc).
  apply cache_get_OK in Hget as (-> & nd & Hnd & Hv).
  assert (nd = nd2) by congruence. subst nd.
  rewrite (Hc a x Hv1) in Hv. split; congruence.
Qed.

Lemma is_match_concrete_silent fuel :
  forall m a s v s',
    is_match fuel m a s = OK (v, s') -> is_concrete v = true ->
    constraints (ctx s') = constraints (ctx s).
Proof.
  induction fuel as [|fuel IH]; intros m a s v s' H Hv; [discriminate|].
  simpl in H. apply bind_OK in H as (self & s1 & Hself & H).
  apply get_match_OK in Hself as [-> Hself].
  assert (Hsub : forall x s y s',
            (fun sub => is_match fuel sub a) x s = OK (y, s') ->
            is_concrete y = true -> constraints (ctx s') = constraints (ctx s)).
  { intros ? ? ? ? Hx. exact (IH _ _ _ _ _ Hx). }
  destruct (mkind self) as [mv|mv|ms|ms|idx ms|attribute val|community val|sub];
    try (destruct sub as [sub|]; [exact (IH _ _ _ _ _ H Hv) | discriminate]);
    try (run_inv H; reflexivity);
    try (apply bind_OK in H as (attr & s1 & Hattr & H);
         apply lift_OK in Hattr as [Hattr ->]);
    apply bind_OK in H as (u & s2 & Hbody & Hget);
    (destruct (cached self a) eqn:Hc;
     [apply cache_get_OK in Hget as [-> _]; run_inv Hbody; reflexivity|]);
    run_inv Hbody.
  - destruct (cache_set_then_get _ _ _ _ _ _ _ _ _ Hbody (store_le_refl _) Hget)
      as [-> ->].
    apply cache_set_OK in Hbody as (nd' & _ & Hctx & _); rewrite Hctx.
    apply create_fresh_var_OK in E0 as (-> & _ & _ & Hc0 & _).
    destruct (forallb is_concrete x) eqn:Hall; [|discriminate Hv].
    run_inv E1. rewrite Hc0. eapply mapM_concrete_silent; eauto.
  - destruct (cache_set_then_get _ _ _ _ _ _ _ _ _ Hbody (store_le_refl _) Hget)
      as [-> ->].
    apply cache_set_OK in Hbody as (nd' & _ & Hctx & _); rewrite Hctx.
    apply create_fresh_var_OK in E0 as (-> & _ & _ & Hc0 & _).
    destruct (forallb is_concrete x) eqn:Hall; [|discriminate Hv].
    run_inv E1. rewrite Hc0. eapply mapM_concrete_silent; eauto.
  - exfalso.
    assert (L : store_le s1 s2).
    { eapply store_le_trans; [|eapply register_constraint_le; exact Hbody].
      eapply _get_match_le; [|exact E1].
      intros ? ? ? ? Hx. exact (is_match_le _ _ _ _ _ _ Hx). }
    destruct (cache_set_then_get _ _ _ _ _ _ _ _ _ E0 L Hget) as [-> _].
    apply create_fresh_var_OK in E as (-> & _). discriminate.
  - destruct (cache_set_then_get _ _ _ _ _ _ _ _ _ Hbody (store_le_refl _) Hget)
      as [-> ->].
    apply cache_set_OK in Hbody as (nd' & _ & Hctx & _); rewrite Hctx.
    match goal with
    | H : create_fresh_var _ _ _ _ = OK _ |- _ =>
        apply create_fresh_var_OK in H as (-> & _ & _ & Hc0 & _)
    end.
    match goal with
    | H : match ?c with inl _ => _ | inr _ => _ end _ = OK _ |- _ =>
        destruct c; run_inv H; [exact Hc0 | discriminate]
    end.
  - destruct (cache_set_then_get _ _ _ _ _ _ _ _ _ Hbody (store_le_refl _) Hget)
      as [-> ->].
    apply cache_set_OK in Hbody as (nd' & _ & Hctx & _); rewrite Hctx.
    match goal with
    | H : create_fresh_var _ _ _ _ = OK _ |- _ =>
        apply create_fresh_var_OK in H as (-> & _ & _ & Hc0 & _)
    end.
    match goal with
    | H : match ?c with inl _ => _ | inr _ => _ end _ = OK _ |- _ =>
        destruct c; run_inv H; [exact Hc0 | discriminate]
    end.
Qed.

(** The first query of a [MatchAnd] ([conj = true]) or [MatchOr] node whose
    sub-results are all concrete. *)
Lemma combinator_concrete_run (conj : bool) fuel m a s self ms results s1 :
  match_store s !! m = Some self ->
  mkind self = (if conj then KMatchAnd ms else KMatchOr ms) ->
  cached self a = false ->
  mapM (fun sub => is_match fuel sub a) ms s = OK (results, s1) ->
  forallb is_concrete results = true ->
  exists v s2,
    is_match (S fuel) m a s = OK (v, s2) /\
    value v = Some (PBool (if conj then forallb get_value results
                           else existsb get_value results)) /\
    constraints (ctx s2) = constraints (ctx s) /\
    is_match (S fuel) m a s2 = OK (v, s2).
Proof.
  intros Hself Hkind Hmiss Hsubs Hall.
  cut (exists v s2,
         is_match (S fuel) m a s = OK (v, s2) /\
         value v = Some (PBool (if conj then forallb get_value results
                                else existsb get_value results)) /\
         constraints (ctx s2) = constraints (ctx s)).
  { intros (v & s2 & H1 & H2 & H3). exists v, s2.
    repeat (split; [assumption|]). exact (is_match_again _ _ _ _ _ _ H1). }
  assert (Hle : store_le s s1).
  { eapply mapM_le; [|exact Hsubs].
    intros ? ? ? ? Hx. exact (is_match_le _ _ _ _ _ _ Hx). }
  assert (Hc : constraints (ctx s1) = constraints (ctx s)).
  { eapply mapM_concrete_silent; [|exact Hsubs|exact Hall].
    intros ? ? ? ? Hx. exact (is_match_concrete_silent _ _ _ _ _ _ Hx). }
  destruct Hle as [_ Hle]. destruct (Hle m self Hself) as (nd1 & Hnd1 & _).
  simpl. rewrite (bind_run _ _ _ self s)
    by (unfold get_match; rewrite Hself; reflexivity).
  rewrite Hkind.
  destruct conj; rewrite Hmiss; unfold bind at 1; unfold bind at 1;
    rewrite Hsubs; rewrite Hall;
    unfold bind, create_fresh_var, ret, cache_set, cache_get; simpl;
    rewrite Hnd1; simpl;
    rewrite list_lookup_insert_eq by (eapply lookup_lt_Some; eauto); simpl;
    rewrite dict_get_set_eq;
    eexists _, _; (split; [reflexivity|]); simpl; auto.
Qed.

(** ** Claims on matches *)



(** C10 (empty MatchAnd, empty MatchOr): the first query of any
    announcement on a MatchAnd over no sub-match returns a concrete [true],
    on a MatchOr over no sub-match a concrete [false], and in both cases the
    constraint set is unchanged; every later query returns that same value
    and changes nothing. *)
Theorem empty_and_or_identity fuel m a s self :
  match_store s !! m = Some self ->
  cached self a = false ->
  (mkind self = KMatchAnd [] ->
   exists v s2, is_match (S fuel) m a s = OK (v, s2) /\
     value v = Some (PBool true) /\
     constraints (ctx s2) = constraints (ctx s) /\
     is_match (S fuel) m a s2 = OK (v, s2)) /\
  (mkind self = KMatchOr [] ->
   exists v s2, is_match (S fuel) m a s = OK (v, s2) /\
     value v = Some (PBool false) /\
     constraints (ctx s2) = constraints (ctx s) /\
     is_match (S fuel) m a s2 = OK (v, s2)).
Proof.
  intros Hself Hmiss. split; intros Hkind.
  - exact (combinator_concrete_run true fuel m a s self [] [] s
             Hself Hkind Hmiss eq_refl eq_refl).
  - exact (combinator_concrete_run false fuel m a s self [] [] s
             Hself Hkind Hmiss eq_refl eq_refl).
Qed.

Lemma empty_and_or_identity_witness :
  (exists v s2, is_match 1 0 ann1 empty_combinators = OK (v, s2) /\
     value v = Some (PBool true) /\ constraints (ctx s2) = [] /\
     is_match 1 0 ann1 s2 = OK (v, s2)) /\
  (exists v s2, is_match 1 1 ann1 empty_combinators = OK (v, s2) /\
     value v = Some (PBool false) /\ constraints (ctx s2) = [] /\
     is_match 1 1 ann1 s2 = OK (v, s2)).
Proof.
  split.
  - exact (proj1 (empty_and_or_identity 0 0 ann1 empty_combinators _
                    eq_refl eq_refl) eq_refl).
  - exact (proj2 (empty_and_or_identity 0 1 ann1 empty_combinators _
                    eq_refl eq_refl) eq_refl).
Defined.



(** ** The index range of SelectOne and SetOne *)

Lemma range_holds idx lo hi env :
  value idx = None ->
  holds env (EAnd [EGe (var idx) (ELit (PInt lo)); ELt (var idx) (ELit (PInt hi))])
  <-> exists i, env (uid idx) = PInt i /\ lo <= i < hi.
Proof.
  intros Hv. unfold holds, var. rewrite Hv. simpl.
  destruct (env (uid idx)) as [b|i|e|o]; simpl;
    try (split; [discriminate | intros (i' & Hi & _); discriminate]).
  split.
  - intros H. exists i. split; [reflexivity|].
    destruct (lo <=? i) eqn:E1, (i <? hi) eqn:E2; simpl in H; try discriminate.
    apply Z.leb_le in E1. apply Z.ltb_lt in E2. lia.
  - intros (i' & Hi & Hr). inversion Hi; subst i'.
    destruct (Z.leb_spec lo i), (Z.ltb_spec i hi); simpl; try reflexivity; lia.
Qed.

Lemma index_range_intro idx k hi :
  value idx = None -> vsort_of idx = IntSort -> hi = Z.of_nat k ->
  index_range idx k
    (EAnd [EGe (var idx) (ELit (PInt 0)); ELt (var idx) (ELit (PInt hi))]).
Proof.
  intros Hv Hs ->. split; [exact Hv|]. split; [exact Hs|].
  intros env. by apply range_holds.
Qed.

(** The constraint of [SMTMatchSelectOne.__init__]: the host comparison,
    which is [true], and the upper bound. *)
Lemma below_holds idx hi env :
  value idx = None ->
  holds env (EAnd [SMTVar_ge idx 0; ELt (var idx) (ELit (PInt hi))])
  <-> exists i, env (uid idx) = PInt i /\ i < hi.
Proof.
  intros Hv. unfold holds, SMTVar_ge, var. rewrite Hv. simpl.
  destruct (env (uid idx)) as [b|i|e|o]; simpl;
    try (split; [discriminate | intros (i' & Hi & _); discriminate]).
  split.
  - intros H. exists i. split; [reflexivity|].
    destruct (i <? hi) eqn:E; simpl in H; try discriminate.
    by apply Z.ltb_lt in E.
  - intros (i' & Hi & Hr). inversion Hi; subst i'.
    destruct (Z.ltb_spec i hi); simpl; [reflexivity | lia].
Qed.

Lemma index_below_intro idx k hi :
  value idx = None -> vsort_of idx = IntSort -> hi = Z.of_nat k ->
  index_below idx k
    (EAnd [SMTVar_ge idx 0; ELt (var idx) (ELit (PInt hi))]).
Proof.
  intros Hv Hs ->. split; [exact Hv|]. split; [exact Hs|].
  intros env. by apply below_holds.
Qed.

(** A bound from above alone is not the range: it admits -1. *)
Lemma index_below_not_range idx k c :
  index_below idx k c -> ~ index_range idx k c.
Proof.
  intros (_ & _ & Hb) (_ & _ & Hr).
  assert (Hc : holds (fun _ => PInt (-1)) c).
  { apply Hb. exists (-1). split; [reflexivity | lia]. }
  apply Hr in Hc as (i & Hi & Hrange). inversion Hi; subst i. lia.
Qed.

Lemma index_range_one idx c env :
  index_range idx 1 c -> holds env c -> env (uid idx) = PInt 0.
Proof.
  intros (_ & _ & H) Hc. apply H in Hc as (i & -> & Hr). f_equal. lia.
Qed.

Lemma alloc_match_OK nd s m s' :
  alloc_match nd s = OK (m, s') ->
  ctx s' = ctx s /\ match_store s' !! m = Some nd.
Proof.
  unfold alloc_match. intros H; inversion H; subst; simpl.
  split; [reflexivity|]. by rewrite lookup_app_r, Nat.sub_diag.
Qed.

Lemma alloc_action_OK nd s a s' :
  alloc_action nd s = OK (a, s') ->
  ctx s' = ctx s /\ action_store s' !! a = Some nd.
Proof.
  unfold alloc_action. intros H; inversion H; subst; simpl.
  split; [reflexivity|]. by rewrite lookup_app_r, Nat.sub_diag.
Qed.

(** The constructor of [SMTMatchSelectOne], whenever it returns. *)
Lemma SMTMatchSelectOne_range anns matches s m s' :
  SMTMatchSelectOne anns matches s = OK (m, s') ->
  exists idx ms c,
    match_store s' !! m = Some (mkMatch (KMatchSelectOne idx ms) anns []) /\
    (1 <= length ms)%nat /\
    last (constraints (ctx s')) = Some (Some "SelectOne_index_range_", c) /\
    index_below idx (length ms) c.
Proof.
  unfold SMTMatchSelectOne. intros H.
  apply bind_OK in H as (u0 & s0 & _ & H).
  apply bind_OK in H as (ms & s1 & _ & H).
  apply bind_OK in H as (idx & s2 & Hidx & H).
  apply bind_OK in H as (index & s3 & Hindex & H).
  apply bind_OK in H as (u1 & s4 & Hreg & H).
  apply create_fresh_var_OK in Hidx as (-> & _).
  apply register_constraint_OK in Hreg as (_ & _ & Hc & _).
  apply alloc_match_OK in H as (Hctx & Hm).
  destruct ms as [|m0 ms]; [discriminate|]. run_inv Hindex.
  eexists _, (m0 :: ms), _. split; [exact Hm|]. split; [simpl; lia|].
  split; [rewrite Hctx, Hc; apply last_snoc|].
  apply index_below_intro; [reflexivity | reflexivity | simpl; lia].
Qed.

(** With explicit candidates and announcements it does return, and the
    constraint on the index is the only constraint it registers. *)
Lemma SMTMatchSelectOne_explicit anns m0 ms s :
  anns <> [] ->
  exists m s' idx c,
    SMTMatchSelectOne anns (Some (m0 :: ms)) s = OK (m, s') /\
    match_store s' !! m
      = Some (mkMatch (KMatchSelectOne idx (m0 :: ms)) anns []) /\
    constraints (ctx s')
      = constraints (ctx s) ++ [(Some "SelectOne_index_range_", c)] /\
    c = EAnd [ELit (PBool true);
              ELt (var idx) (ELit (PInt (Z.of_nat (length (m0 :: ms)))))] /\
    index_below idx (length (m0 :: ms)) c.
Proof.
  intros Hanns. destruct anns as [|a0 anns]; [contradiction|].
  eexists _, _, _, _. split; [reflexivity|].
  split; [simpl; by rewrite lookup_app_r, Nat.sub_diag|].
  split; [reflexivity|].
  split; [unfold SMTVar_ge; by rewrite Z.sub_add|].
  apply index_below_intro; [reflexivity | reflexivity | simpl; lia].
Qed.

(** The constructor of [SMTSetOne], whenever it returns. *)
Lemma SMTSetOne_range fuel m anns actions s a s' :
  SMTSetOne fuel m anns actions s = OK (a, s') ->
  exists idx acts c,
    action_store s' !! a = Some (mkAction (KSetOne idx acts) m anns None) /\
    last (constraints (ctx s')) = Some (Some "setone_index_max_", c) /\
    index_range idx (length acts) c.
Proof.
  unfold SMTSetOne. intros H.
  apply bind_OK in H as (u0 & s0 & _ & H).
  apply bind_OK in H as (acts & s1 & _ & H).
  apply bind_OK in H as (idx & s2 & Hidx & H).
  apply bind_OK in H as (us & s3 & _ & H).
  apply bind_OK in H as (u1 & s4 & Hreg & H).
  apply create_fresh_var_OK in Hidx as (-> & _).
  apply register_constraint_OK in Hreg as (_ & _ & Hc & _).
  apply alloc_action_OK in H as (Hctx & Ha).
  eexists _, acts, _. split; [exact Ha|].
  split; [rewrite Hctx, Hc; apply last_snoc|].
  apply index_range_intro; reflexivity.
Qed.

(** ** The index range constraint (C4) *)

Lemma check_candidates_run m anns l s :
  Forall (valid_candidate s m anns) l ->
  exists us, mapM (check_candidate m anns) l s = OK (us, s).
Proof.
  induction 1 as [|a l (nd & Hnd & Hm & Ha) _ [us IH]]; simpl.
  - eexists. reflexivity.
  - exists (tt :: us). unfold bind at 1.
    assert (check_candidate m anns a s = OK (tt, s)) as ->.
    { unfold check_candidate, bind, get_action. rewrite Hnd, Hm, Ha.
      rewrite !bool_decide_eq_true_2 by reflexivity. reflexivity. }
    unfold bind. rewrite IH. reflexivity.
Qed.

(** With explicit candidates that share the guard and the announcement set,
    the constructor of [SMTSetOne] returns, and the range constraint is the
    only constraint it registers. *)
Lemma SMTSetOne_explicit fuel m anns a0 acts s :
  announcements_list anns <> [] ->
  Forall (valid_candidate s m anns) (a0 :: acts) ->
  exists a s' idx c,
    SMTSetOne fuel m anns (Some (a0 :: acts)) s = OK (a, s') /\
    action_store s' !! a
      = Some (mkAction (KSetOne idx (a0 :: acts)) m anns None) /\
    constraints (ctx s')
      = constraints (ctx s) ++ [(Some "setone_index_max_", c)] /\
    index_range idx (length (a0 :: acts)) c.
Proof.
  intros Hanns Hvalid.
  destruct (announcements_list anns) as [|x l] eqn:El; [contradiction|].
  set (s1 := mkState (mkCtx (S (next_uid (ctx s)))
                        (vars (ctx s) ++
                           [mkSMTVar (Some "SetOneIndex_") (next_uid (ctx s))
                              IntSort None])
                        (constraints (ctx s)))
               (match_store s) (action_store s)).
  assert (Hvalid1 : Forall (valid_candidate s1 m anns) (a0 :: acts)) by exact Hvalid.
  destruct (check_candidates_run _ _ _ _ Hvalid1) as [us Hus].
  unfold SMTSetOne. rewrite El. simpl nonempty. unfold assert.
  unfold bind at 1. unfold ret at 1.
  unfold bind at 1. unfold ret at 1.
  unfold bind at 1. unfold create_fresh_var at 1. fold s1.
  unfold bind at 1. rewrite Hus.
  eexists _, _, _, _. split; [reflexivity|].
  split; [simpl; by rewrite lookup_app_r, Nat.sub_diag|].
  split; [reflexivity|].
  apply index_range_intro; reflexivity.
Qed.

(** C4 (index range), evaluated where it fails.  The SelectOne built over
    the one candidate [local_pref == 100] registers, as its index range, the
    conjunction of [self.index_var >= 0], a comparison of the wrapper that is
    the literal [true], and of [index < 1].  The assignment that gives the
    index the value -1 satisfies it: the constraint is not [0 <= index < 1]
    and does not force the index to 0.  The SetOne built over two candidates,
    which compares [self.index_var.var], registers the range constraint that
    the claim describes. *)
Theorem selectone_index_range_admits_negative :
  (exists m s' idx c,
     SMTMatchSelectOne [ann1] (Some [0%nat]) local_pref_100 = OK (m, s') /\
     match_store s' !! m
       = Some (mkMatch (KMatchSelectOne idx [0%nat]) [ann1] []) /\
     constraints (ctx s')
       = constraints (ctx local_pref_100)
         ++ [(Some "SelectOne_index_range_", c)] /\
     c = EAnd [ELit (PBool true); ELt (var idx) (ELit (PInt 1))] /\
     index_below idx 1 c /\
     holds (fun _ => PInt (-1)) c /\
     ~ index_range idx 1 c /\
     ~ (forall env, holds env c -> env (uid idx) = PInt 0)) /\
  (exists a s' idx c,
     SMTSetOne 3 0 anns1 (Some [0%nat; 1%nat]) two_candidates = OK (a, s') /\
     constraints (ctx s')
       = constraints (ctx two_candidates) ++ [(Some "setone_index_max_", c)] /\
     index_range idx 2 c).
Proof.
  split.
  - destruct (SMTMatchSelectOne_explicit [ann1] 0%nat [] local_pref_100
                ltac:(discriminate))
      as (m & s' & idx & c & H & Hm & Hc & Hshape & Hb).
    assert (Hneg : holds (fun _ => PInt (-1)) c).
    { destruct Hb as (_ & _ & Hb). apply Hb. exists (-1).
      split; [reflexivity | simpl; lia]. }
    exists m, s', idx, c. repeat (split; [assumption|]).
    split; [by apply index_below_not_range|].
    intros Hforce. specialize (Hforce _ Hneg). discriminate Hforce.
  - destruct (SMTSetOne_explicit 3 0 anns1 0%nat [1%nat] two_candidates
                ltac:(discriminate)
                ltac:(repeat constructor; eexists; vm_compute; repeat split))
      as (a & s' & idx & c & H & _ & Hc & Hr).
    exists a, s', idx, c. split; [exact H|]. split; [exact Hc | exact Hr].
Qed.

(** ** The selection among the candidates of SetOne (C8) *)

Lemma fallback_branch_nested index vals default i :
  fallback_branch (nested_conditional index vals default i)
  = fallback_branch default.
Proof. revert i. induction vals as [|v r IH]; intros i; simpl; auto. Qed.

Lemma nested_conditional_exhausted env u sx vals d :
  forall i,
    (forall j, i <= j < i + Z.of_nat (length vals) -> env u <> PInt j) ->
    eval env (nested_conditional (EConst u sx) vals d i) = eval env d.
Proof.
  induction vals as [|v r IH]; intros i H; simpl; [reflexivity|].
  rewrite bool_decide_eq_false_2 by (apply H; simpl; lia).
  apply IH. intros j Hj. apply H. simpl. lia.
Qed.

Lemma nested_conditional_selected env u sx vals d :
  forall i n v,
    vals !! n = Some v -> env u = PInt (i + Z.of_nat n) ->
    eval env (nested_conditional (EConst u sx) vals d i) = eval env v.
Proof.
  induction vals as [|w r IH]; intros i n v Hn Hu; [discriminate|].
  simpl. destruct n as [|n]; simpl in Hn.
  - inversion Hn; subst. rewrite Hu.
    rewrite bool_decide_eq_true_2 by (f_equal; lia). reflexivity.
  - rewrite Hu. rewrite bool_decide_eq_false_2 by (intros E; inversion E; lia).
    apply (IH (i + 1) n v Hn). rewrite Hu. f_equal. lia.
Qed.

(** When every candidate has computed its value, [_get_actions] returns. *)
Lemma _get_actions_run idx i attr d s actions vals :
  Forall2 (fun a v => candidate_new_value s a i attr = Some v) actions vals ->
  forall k,
    _get_actions idx actions i attr d k s
    = OK (nested_conditional (var idx) vals d k, s).
Proof.
  induction 1 as [|a v actions vals Hv _ IH]; intros k; simpl; [reflexivity|].
  unfold candidate_new_value in Hv.
  destruct (action_store s !! a) as [nd|] eqn:Hnd; [|discriminate].
  destruct (_announcements nd) as [c|] eqn:Hc; [|discriminate].
  destruct (announcements_list c !! i) as [ann|] eqn:Hi; [|discriminate].
  destruct (getattr ann attr) as [x|] eqn:Hx; [|discriminate].
  destruct (attr_var x) as [e|] eqn:He; [|discriminate].
  inversion Hv; subst e.
  unfold bind at 1. unfold action_announcement, bind, get_action.
  rewrite Hnd, Hc, Hi. unfold ret, lift. rewrite Hx, IH, He. reflexivity.
Qed.

(** C8 as stated fails: in the run of [execute] on the [SetOne] over
    [local_pref := 200] and [med := 7], the constraint registered for
    [local_pref] ends in the fresh value (solver constant 2), not in the old
    value of the announcement (solver constant 106); and an assignment with
    the index on no candidate satisfies it with the fresh value different
    from the old one. *)
Lemma setone_fallback_is_not_old_value :
  exists s' cond,
    execute 3 2 setone_two_candidates = OK (tt, s') /\
    constraints (ctx s') !! 1%nat
      = Some (Some "setone_local_pref_", EEq (EConst 2 IntSort) cond) /\
    fallback_branch cond = EConst 2 IntSort /\
    fallback_branch cond <> var (local_pref ann1) /\
    let env := fun u : nat => if decide (u = 2%nat) then PInt 1 else PInt 5 in
    holds env (EEq (EConst 2 IntSort) cond) /\
    eval env (EConst 2 IntSort) <> eval env (var (local_pref ann1)).
Proof.
  eexists _, _. split; [vm_compute; reflexivity|].
  split; [reflexivity|]. split; [reflexivity|].
  split; [discriminate|]. split; [reflexivity | discriminate].
Qed.

(** ** Actions: what [execute] and the constructors do *)

(** [SMTSetAttribute.execute] and [SMTSetCommunity.execute] return at once
    when the new announcement set is populated. *)
Lemma execute_populated_noop fuel self s nd :
  action_store s !! self = Some nd ->
  populated (_announcements nd) = true ->
  (forall idx acts, akind nd <> KSetOne idx acts) ->
  execute (S fuel) self s = OK (tt, s).
Proof.
  intros Hnd Hpop Hkind. simpl.
  rewrite (bind_run _ _ _ nd s) by (unfold get_action; by rewrite Hnd).
  destruct (akind nd) as [attribute value|community value|idx acts].
  - unfold SMTSetAttribute_execute. by rewrite Hpop.
  - unfold SMTSetCommunity_execute. by rewrite Hpop.
  - exfalso. by eapply Hkind.
Qed.

Lemma finish_execute_OK self old r s u s' :
  finish_execute self old r s = OK (u, s') ->
  exists nd, action_store s' !! self = Some nd /\
             _announcements nd = Some (create_new (fst r) self).
Proof.
  unfold finish_execute. intros H.
  apply bind_OK in H as (u0 & s0 & _ & H).
  unfold set_announcements in H.
  destruct (action_store s0 !! self) as [nd|] eqn:E; [|discriminate].
  inversion H; subst; simpl. eexists. split.
  - apply list_lookup_insert_eq. eapply lookup_lt_Some; eauto.
  - reflexivity.
Qed.

(** A freshly allocated [SetAttribute] or [SetCommunity] is executed by its
    constructor: when the constructor returns, [_announcements] is set. *)
Lemma execute_fresh_populates fuel self s u s' nd :
  action_store s !! self = Some nd ->
  _announcements nd = None ->
  (forall idx acts, akind nd <> KSetOne idx acts) ->
  execute fuel self s = OK (u, s') ->
  exists nd' c, action_store s' !! self = Some nd' /\
                _announcements nd' = Some c /\ produced_by c = Some self.
Proof.
  intros Hnd Hnone Hkind H. destruct fuel as [|fuel]; [discriminate|].
  simpl in H. rewrite (bind_run _ _ _ nd s) in H
    by (unfold get_action; by rewrite Hnd).
  destruct (akind nd) as [attribute value|community value|idx acts].
  - unfold SMTSetAttribute_execute in H. rewrite Hnone in H. simpl in H.
    apply bind_OK in H as (r & s1 & _ & H).
    apply finish_execute_OK in H as (nd' & Hnd' & Ha). eauto.
  - unfold SMTSetCommunity_execute in H. rewrite Hnone in H. simpl in H.
    apply bind_OK in H as (r & s1 & _ & H).
    apply finish_execute_OK in H as (nd' & Hnd' & Ha). eauto.
  - exfalso. by eapply Hkind.
Qed.

Lemma SMTSetAttribute_populates fuel m attribute value anns s a s' :
  SMTSetAttribute fuel m attribute value anns s = OK (a, s') ->
  exists nd c, action_store s' !! a = Some nd /\
               _announcements nd = Some c /\ produced_by c = Some a.
Proof.
  unfold SMTSetAttribute. intros H. run_inv H.
  match goal with
  | Ha : alloc_action _ _ = OK (a, _), He : execute _ a _ = OK _ |- _ =>
      apply alloc_action_OK in Ha as (_ & Hnd);
      eapply execute_fresh_populates in He;
      [exact He | exact Hnd | reflexivity | discriminate]
  end.
Qed.

Lemma SMTSetCommunity_populates fuel m community value anns s a s' :
  SMTSetCommunity fuel m community value anns s = OK (a, s') ->
  exists nd c, action_store s' !! a = Some nd /\
               _announcements nd = Some c /\ produced_by c = Some a.
Proof.
  unfold SMTSetCommunity. intros H. run_inv H.
  match goal with
  | Ha : alloc_action _ _ = OK (a, _), He : execute _ a _ = OK _ |- _ =>
      apply alloc_action_OK in Ha as (_ & Hnd);
      eapply execute_fresh_populates in He;
      [exact He | exact Hnd | reflexivity | discriminate]
  end.
Qed.

(** The constructor of [SMTSetOne] never calls [execute]: whenever it
    returns, [_announcements] of the new object is still [None]. *)
Lemma SMTSetOne_not_executed fuel m anns actions s a s' :
  SMTSetOne fuel m anns actions s = OK (a, s') ->
  announcements a s' = OK (None, s').
Proof.
  intros H. apply SMTSetOne_range in H as (idx & acts & c & Ha & _).
  unfold announcements, bind, get_action. by rewrite Ha.
Qed.

(** C2 at a failing input: after the constructor of the [SetOne] over
    [local_pref := 200] and [med := 7] has returned, its [announcements]
    property is [None], while both candidates, built by the constructor of
    [SetAttribute], have theirs. *)
Lemma setone_constructor_leaves_announcements_unset :
  exists a s',
    (m <- SMTMatchAll ;;
     a1 <- SMTSetAttribute 3 m "local_pref"
             (Some (concrete_var 111 IntSort (PInt 200))) anns1 ;;
     a2 <- SMTSetAttribute 3 m "med"
             (Some (concrete_var 112 IntSort (PInt 7))) anns1 ;;
     SMTSetOne 3 m anns1 (Some [a1; a2])) empty_state = OK (a, s') /\
    announcements a s' = OK (None, s') /\
    (exists c0, announcements 0 s' = OK (Some c0, s')) /\
    (exists c1, announcements 1 s' = OK (Some c1, s')).
Proof.
  eexists _, _. split; [vm_compute; reflexivity|].
  split; [reflexivity|]. split; eexists; reflexivity.
Qed.

(** C1 at a failing input: [execute] on that [SetOne] populates its
    announcements; a second [execute] allocates two more symbolic values,
    registers two more constraints and replaces the announcement set by
    another one. *)
Lemma setone_execute_twice :
  exists s1 s2 c1 c2,
    execute 3 2 setone_two_candidates = OK (tt, s1) /\
    announcements 2 s1 = OK (Some c1, s1) /\
    populated (Some c1) = true /\
    execute 3 2 s1 = OK (tt, s2) /\
    announcements 2 s2 = OK (Some c2, s2) /\
    next_uid (ctx s1) = 4%nat /\ next_uid (ctx s2) = 6%nat /\
    length (constraints (ctx s1)) = 3%nat /\
    length (constraints (ctx s2)) = 5%nat /\
    c1 <> c2.
Proof.
  eexists _, _, _, _. split; [vm_compute; reflexivity|].
  split; [reflexivity|]. split; [reflexivity|].
  split; [vm_compute; reflexivity|]. split; [reflexivity|].
  repeat (split; [reflexivity|]). discriminate.
Qed.

(** In the branch of [SMTSetAttribute.execute] for a guard that is not
    concrete, the fresh value is created with [value=self.value], so it is
    concrete. *)
Lemma SMTSetAttribute_symbolic_branch fuel m attribute val ann s im s1 r s' :
  is_match fuel m ann s = OK (im, s1) ->
  is_concrete im = false ->
  SMTSetAttribute_attr fuel m attribute val ann attribute s = OK (r, s') ->
  exists new_var old,
    r = (AVar new_var,
         [EIf (var im) (EEq (var new_var) (var val)) (EEq (var new_var) old)]) /\
    value new_var = Some (PObj (uid val)) /\
    is_concrete new_var = true.
Proof.
  intros Him Hconc H. unfold SMTSetAttribute_attr in H.
  apply bind_OK in H as (attr_v & s0 & Hattr & H).
  apply lift_OK in Hattr as [Hattr ->].
  rewrite bool_decide_eq_true_2 in H by reflexivity.
  rewrite (bind_run _ _ _ im s1 Him) in H. rewrite Hconc in H.
  run_inv H.
  match goal with
  | Hv : create_fresh_var _ _ _ _ = OK _ |- _ =>
      apply create_fresh_var_OK in Hv as (-> & _)
  end.
  eexists _, _. split; [reflexivity|]. split; reflexivity.
Qed.

(** In the same branch of [SMTSetCommunity.execute] the old value is read
    as [attr_var.var], where [attr_var] is the communities dictionary:
    the call raises. *)
Lemma SMTSetCommunity_symbolic_branch fuel m c val ann attr comms old s im s1 :
  is_match fuel m ann s = OK (im, s1) ->
  is_concrete im = false ->
  SMTSetCommunity_community fuel m c val ann attr (AComms comms) (c, old) s
  = Raise AttributeError.
Proof.
  intros Him Hconc. unfold SMTSetCommunity_community.
  rewrite bool_decide_eq_true_2 by reflexivity. simpl.
  rewrite (bind_run _ _ _ im s1 Him). rewrite Hconc. reflexivity.
Qed.

(** C3 at a failing input: a [SetCommunity] on tag [c1] guarded by
    [local_pref == 100], over an announcement whose local preference is
    unknown, raises [AttributeError] in its constructor: no constraint
    [fresh == (match ? value : old)] is registered and no announcement set
    is produced. *)
Lemma setcommunity_symbolic_guard_raises :
  SMTSetCommunity 3 0 (Comm "c1") None anns1 local_pref_100
  = Raise AttributeError.
Proof. vm_compute. reflexivity. Qed.

(** C5 at a failing input: [local_pref := 200] guarded by
    [local_pref == 100] over an announcement whose local preference is
    unknown.  The guard is not concrete (solver constant 0), yet the new
    [local_pref] of the produced announcement is concrete: its value is the
    object passed as [value=self.value], and the registered conjunct
    compares that literal, not a solver constant. *)
Lemma setattribute_symbolic_guard_result :
  exists a s' c new,
    SMTSetAttribute 3 0 "local_pref"
      (Some (concrete_var 111 IntSort (PInt 200))) anns1 local_pref_100
    = OK (a, s') /\
    announcements a s' = OK (Some c, s') /\
    announcements_list c = [new] /\
    value (local_pref new) = Some (PObj 111) /\
    is_concrete (local_pref new) = true /\
    constraints (ctx s')
    = [(Some "const_match_local_pref_",
        EEq (EConst 0 BoolSort) (EEq (EConst 106 IntSort) (ELit (PInt 100))));
       (None,
        EAnd [EIf (EConst 0 BoolSort)
                (EEq (ELit (PObj 111)) (ELit (PInt 200)))
                (EEq (ELit (PObj 111)) (EConst 106 IntSort))])].
Proof.
  eexists _, _, _, _. split; [vm_compute; reflexivity|].
  split; [reflexivity|]. repeat (split; [reflexivity|]). reflexivity.
Qed.

(** The constructors that check their announcements raise on an empty
    announcement set. *)
Lemma constructors_reject_empty_announcements s :
  (forall attribute val, SMTMatchAttribute attribute val [] s = Raise AssertionError) /\
  (forall community val, SMTMatchCommunity community val [] s = Raise AssertionError) /\
  (forall matches, SMTMatchSelectOne [] matches s = Raise AssertionError) /\
  (forall fuel m attribute val p,
     SMTSetAttribute fuel m attribute val (mkAnns [] p) s = Raise AssertionError) /\
  (forall fuel m community val p,
     SMTSetCommunity fuel m community val (mkAnns [] p) s = Raise IndexError) /\
  (forall fuel m actions p,
     SMTSetOne fuel m (mkAnns [] p) actions s = Raise AssertionError).
Proof.
  repeat split; intros; try reflexivity.
  unfold SMTSetAttribute, bind, assert.
  destruct (bool_decide (attribute ∈ Announcement_attributes)); reflexivity.
Qed.

(** C7 at a failing input: [SMTMatchAnd] and [SMTMatchOr] accept an
    empty announcement set and return nodes that answer queries. *)
Lemma match_and_or_accept_empty_announcements :
  exists m1 m2 s',
    (m1 <- SMTMatchAnd [] [] ;; m2 <- SMTMatchOr [] [] ;; ret (m1, m2))
      empty_state = OK ((m1, m2), s') /\
    (exists v s2, is_match 1 m1 ann1 s' = OK (v, s2) /\
                  value v = Some (PBool true)) /\
    (exists v s2, is_match 1 m2 ann1 s' = OK (v, s2) /\
                  value v = Some (PBool false)).
Proof.
  eexists _, _, _. split; [reflexivity|].
  split; eexists _, _; split; reflexivity.
Qed.

(** * Further properties of the matches *)

(** X1 (MatchAll, MatchNone): the constructor returns a node and registers
    nothing; on every announcement, and at every later state (any state in
    which the match objects are still there, whatever was queried, built or
    executed in between), the node answers with one and the same concrete
    value, [true] for MatchAll and [false] for MatchNone, keeps no cache and
    changes nothing. *)
Theorem match_all_none_constant s :
  (exists m s' v,
     SMTMatchAll s = OK (m, s') /\
     constraints (ctx s') = constraints (ctx s) /\
     value v = Some (PBool true) /\
     forall fuel a s2,
       matches_le s' s2 -> is_match (S fuel) m a s2 = OK (v, s2)) /\
  (exists m s' v,
     SMTMatchNone s = OK (m, s') /\
     constraints (ctx s') = constraints (ctx s) /\
     value v = Some (PBool false) /\
     forall fuel a s2,
       matches_le s' s2 -> is_match (S fuel) m a s2 = OK (v, s2)).
Proof.
  split.
  - exists (length (match_store s)). eexists.
    exists (mkSMTVar (Some "match_all_") (next_uid (ctx s)) BoolSort
              (Some (PBool true))).
    split; [reflexivity|]. split; [reflexivity|].
    split; [reflexivity|]. intros fuel a s2 Hle.
    destruct (Hle (length (match_store s)) _
                ltac:(simpl; by rewrite lookup_app_r, Nat.sub_diag))
      as (nd & Hnd & K & _).
    simpl. unfold bind, get_match. rewrite Hnd, K. reflexivity.
  - exists (length (match_store s)). eexists.
    exists (mkSMTVar (Some "match_none_") (next_uid (ctx s)) BoolSort
              (Some (PBool false))).
    split; [reflexivity|]. split; [reflexivity|].
    split; [reflexivity|]. intros fuel a s2 Hle.
    destruct (Hle (length (match_store s)) _
                ltac:(simpl; by rewrite lookup_app_r, Nat.sub_diag))
      as (nd & Hnd & K & _).
    simpl. unfold bind, get_match. rewrite Hnd, K. reflexivity.
Qed.

(** X2 (MatchAttribute, first query): on an announcement not yet in the
    cache the node compares the attribute with its value once.  If both are
    concrete the result is concrete, its value is whether they are equal, and
    nothing is registered (scenario A of the spec); otherwise the result is a
    fresh symbolic boolean [r] and exactly one constraint
    [r == (attribute == value)] is registered.  The next query returns the
    same result and changes nothing. *)
Theorem match_attribute_first_query fuel m a s self attribute val x :
  match_store s !! m = Some self ->
  mkind self = KMatchAttribute attribute val ->
  cached self a = false ->
  getattr a attribute = OK (AVar x) ->
  exists v s',
    is_match (S fuel) m a s = OK (v, s') /\
    comparison_outcome s s' v (check_eq x val)
      (Some ("const_match_" +:+ attribute +:+ "_")) /\
    (forall p q, value x = Some p -> value val = Some q ->
       value v = Some (PBool (bool_decide (p = q))) /\
       constraints (ctx s') = constraints (ctx s)) /\
    is_match (S fuel) m a s' = OK (v, s').
Proof.
  intros Hself Hkind Hmiss Hattr.
  cut (exists v s',
         is_match (S fuel) m a s = OK (v, s') /\
         comparison_outcome s s' v (check_eq x val)
           (Some ("const_match_" +:+ attribute +:+ "_"))).
  { intros (v & s' & H & Hout). exists v, s'. split; [exact H|].
    split; [exact Hout|]. split; [|exact (is_match_again _ _ _ _ _ _ H)].
    intros p q Hp Hq. destruct Hout as (_ & _ & _ & Hout).
    unfold check_eq in Hout. rewrite Hp, Hq in Hout. exact Hout. }
  simpl. unfold bind at 1. unfold get_match. rewrite Hself, Hkind.
  unfold bind at 1. unfold lift at 1. rewrite Hattr. rewrite Hmiss.
  unfold attr_check_eq. simpl attr_smtvar. cbv beta iota.
  unfold bind, lift, create_fresh_var, register_constraint, ret, cache_set,
    cache_get. simpl.
  destruct (check_eq x val) as [b|c]; simpl; rewrite Hself; simpl;
    rewrite list_lookup_insert_eq by (eapply lookup_lt_Some; eauto); simpl;
    rewrite dict_get_set_eq;
    eexists _, _; (split; [reflexivity|]); repeat split.
Qed.

Lemma match_attribute_first_query_witness :
  exists v s',
    is_match 1 0 ann1 local_pref_100 = OK (v, s') /\
    value v = None /\
    constraints (ctx s')
    = [(Some "const_match_local_pref_",
        EEq (EConst 0 BoolSort) (EEq (EConst 106 IntSort) (ELit (PInt 100))))].
Proof.
  destruct (match_attribute_first_query 0 0 ann1 local_pref_100 _ "local_pref"
              (concrete_var 110 IntSort (PInt 100)) (local_pref ann1)
              eq_refl eq_refl eq_refl eq_refl)
    as (v & s' & H & (Hu & _ & _ & Hv & Hc) & _).
  exists v, s'. split; [exact H|]. split; [exact Hv|].
  rewrite Hc, Hu. reflexivity.
Defined.

(** X3 (MatchCommunity, first query): a community tag that the announcement
    does not carry raises [KeyError]; otherwise the node compares the tag's
    boolean with its value once, with the same outcome as for an attribute:
    concrete result and no constraint when both are concrete, else a fresh
    symbolic result defined by one constraint. *)
Theorem match_community_first_query fuel m a s self community val :
  match_store s !! m = Some self ->
  mkind self = KMatchCommunity community val ->
  cached self a = false ->
  (dict_get (communities a) community = None ->
   is_match (S fuel) m a s = Raise KeyError) /\
  (forall x, dict_get (communities a) community = Some x ->
   exists v s',
     is_match (S fuel) m a s = OK (v, s') /\
     comparison_outcome s s' v (check_eq x val) None /\
     is_match (S fuel) m a s' = OK (v, s')).
Proof.
  intros Hself Hkind Hmiss. split.
  - intros Hnone. simpl. unfold bind at 1. unfold get_match.
    rewrite Hself, Hkind, Hmiss. unfold bind, lift. by rewrite Hnone.
  - intros x Hx.
    cut (exists v s',
           is_match (S fuel) m a s = OK (v, s') /\
           comparison_outcome s s' v (check_eq x val) None).
    { intros (v & s' & H & Hout). exists v, s'. split; [exact H|].
      split; [exact Hout | exact (is_match_again _ _ _ _ _ _ H)]. }
    simpl. unfold bind at 1. unfold get_match. rewrite Hself, Hkind, Hmiss.
    unfold bind at 1. unfold bind at 1. unfold lift at 1. rewrite Hx.
    unfold bind, lift, create_fresh_var, register_constraint, ret, cache_set,
      cache_get. simpl.
    destruct (check_eq x val) as [b|c]; simpl; rewrite Hself; simpl;
      rewrite list_lookup_insert_eq by (eapply lookup_lt_Some; eauto); simpl;
      rewrite dict_get_set_eq;
      eexists _, _; (split; [reflexivity|]); repeat split.
Qed.

Lemma match_community_first_query_witness :
  is_match 1 0 ann_plain community_c1 = Raise KeyError /\
  exists v s',
    is_match 1 0 ann1 community_c1 = OK (v, s') /\
    value v = None /\ length (constraints (ctx s')) = 1%nat.
Proof.
  destruct (match_community_first_query 0 0 ann_plain community_c1 _ (Comm "c1")
              (mkSMTVar (Some "Match_Community_var_") 0 BoolSort
                 (Some (PBool true)))
              eq_refl eq_refl eq_refl) as [H1 _].
  destruct (match_community_first_query 0 0 ann1 community_c1 _ (Comm "c1")
              (mkSMTVar (Some "Match_Community_var_") 0 BoolSort
                 (Some (PBool true)))
              eq_refl eq_refl eq_refl) as [_ H2].
  split; [exact (H1 eq_refl)|].
  destruct (H2 _ eq_refl) as (v & s' & H & (_ & _ & _ & Hv & Hc) & _).
  exists v, s'. split; [exact H|]. split; [exact Hv|]. by rewrite Hc.
Defined.

(** ** Constructors of the matches *)

Lemma getattr_in a attr x :
  getattr a attr = OK x -> attr ∈ Announcement_attributes.
Proof.
  unfold getattr, Announcement_attributes. simpl.
  repeat (case_decide; [subst; repeat constructor|]). discriminate.
Qed.

(** X4 (MatchAttribute, construction contract): over a non-empty
    announcement list the constructor raises [AssertionError] for a name
    outside [Announcement.attributes], [AttributeError] for [communities]
    (the dictionary has no sort), [AssertionError] when the sort of the
    given value differs from the sort of the attribute in the first
    announcement; with a value of that sort it returns a node holding it,
    and without a value a node holding a fresh symbolic value of that sort.
    In no case is a constraint registered. *)
Theorem match_attribute_constructor attribute value a0 rest s :
  (attribute ∉ Announcement_attributes ->
   SMTMatchAttribute attribute value (a0 :: rest) s = Raise AssertionError) /\
  (attribute = "communities" ->
   SMTMatchAttribute attribute value (a0 :: rest) s = Raise AttributeError) /\
  (forall x, getattr a0 attribute = OK (AVar x) ->
     (forall v, value = Some v -> vsort_of v <> vsort_of x ->
        SMTMatchAttribute attribute value (a0 :: rest) s
        = Raise AssertionError) /\
     (forall v, value = Some v -> vsort_of v = vsort_of x ->
        exists m s',
          SMTMatchAttribute attribute value (a0 :: rest) s = OK (m, s') /\
          ctx s' = ctx s /\
          match_store s' !! m
          = Some (mkMatch (KMatchAttribute attribute v) (a0 :: rest) [])) /\
     (value = None ->
        exists m s',
          SMTMatchAttribute attribute value (a0 :: rest) s = OK (m, s') /\
          constraints (ctx s') = constraints (ctx s) /\
          match_store s' !! m
          = Some (mkMatch
                    (KMatchAttribute attribute
                       (mkSMTVar (Some ("Match_attr_" +:+ attribute +:+ "_"))
                          (next_uid (ctx s)) (vsort_of x) None))
                    (a0 :: rest) []))).
Proof.
  split; [|split].
  - intros Hnot. unfold SMTMatchAttribute, bind, assert, ret. simpl.
    by rewrite (bool_decide_eq_false_2 _ Hnot).
  - intros ->. destruct value; reflexivity.
  - intros x Hx. pose proof (getattr_in _ _ _ Hx) as Hin.
    split; [|split].
    + intros v -> Hne. unfold SMTMatchAttribute, bind, assert, ret, lift. simpl.
      rewrite (bool_decide_eq_true_2 _ Hin), Hx. simpl.
      rewrite bool_decide_eq_false_2 by congruence. reflexivity.
    + intros v -> He. unfold SMTMatchAttribute, bind, assert, ret, lift. simpl.
      rewrite (bool_decide_eq_true_2 _ Hin), Hx. simpl.
      rewrite bool_decide_eq_true_2 by congruence.
      eexists _, _. split; [reflexivity|]. split; [reflexivity|].
      simpl. by rewrite lookup_app_r, Nat.sub_diag.
    + intros ->. unfold SMTMatchAttribute, bind, assert, ret, lift. simpl.
      rewrite (bool_decide_eq_true_2 _ Hin), Hx. simpl.
      rewrite bool_decide_eq_true_2 by reflexivity.
      eexists _, _. split; [reflexivity|]. split; [reflexivity|].
      simpl. by rewrite lookup_app_r, Nat.sub_diag.
Qed.

Lemma match_attribute_constructor_witness :
  SMTMatchAttribute "color" None [ann1] empty_state = Raise AssertionError /\
  SMTMatchAttribute "communities" None [ann1] empty_state = Raise AttributeError /\
  SMTMatchAttribute "local_pref" (Some (concrete_var 110 BoolSort (PBool true)))
    [ann1] empty_state = Raise AssertionError /\
  exists m s', SMTMatchAttribute "local_pref" None [ann1] empty_state = OK (m, s').
Proof.
  destruct (match_attribute_constructor "color" None ann1 [] empty_state)
    as (H1 & _).
  destruct (match_attribute_constructor "communities" None ann1 [] empty_state)
    as (_ & H2 & _).
  destruct (match_attribute_constructor "local_pref"
              (Some (concrete_var 110 BoolSort (PBool true))) ann1 []
              empty_state) as (_ & _ & H3).
  destruct (match_attribute_constructor "local_pref" None ann1 []
              empty_state) as (_ & _ & H4).
  split; [apply H1; apply (bool_decide_unpack _); vm_compute; exact I|].
  split; [exact (H2 eq_refl)|].
  split; [exact (proj1 (H3 _ eq_refl) _ eq_refl ltac:(discriminate))|].
  destruct (proj2 (proj2 (H4 _ eq_refl)) eq_refl) as (m & s' & H & _).
  eauto.
Defined.

(** X5 (MatchCommunity, construction contract): over a non-empty
    announcement list the constructor raises [AssertionError] when the first
    announcement does not carry the tag; otherwise it returns a node, with
    the given value whatever its sort (no sort is checked here), or without a
    value with a fresh value that is concretely [true].  No constraint is
    registered. *)
Theorem match_community_constructor community value a0 rest s :
  (dict_get (communities a0) community = None ->
   SMTMatchCommunity community value (a0 :: rest) s = Raise AssertionError) /\
  (forall x, dict_get (communities a0) community = Some x ->
     exists m s',
       SMTMatchCommunity community value (a0 :: rest) s = OK (m, s') /\
       constraints (ctx s') = constraints (ctx s) /\
       match_store s' !! m
       = Some (mkMatch
                 (KMatchCommunity community
                    (match value with
                     | Some v => v
                     | None => mkSMTVar (Some "Match_Community_var_")
                                 (next_uid (ctx s)) BoolSort (Some (PBool true))
                     end))
                 (a0 :: rest) [])).
Proof.
  split.
  - intros Hnone. unfold SMTMatchCommunity, bind, assert, ret, lift, dict_has.
    simpl. by rewrite Hnone.
  - intros x Hx. unfold SMTMatchCommunity, bind, assert, ret, lift, dict_has.
    simpl. rewrite Hx.
    destruct value as [v|]; eexists _, _; (split; [reflexivity|]);
      (split; [reflexivity|]); simpl; by rewrite lookup_app_r, Nat.sub_diag.
Qed.

Lemma match_community_constructor_witness :
  SMTMatchCommunity (Comm "c2") None [ann1] empty_state = Raise AssertionError /\
  exists m s',
    SMTMatchCommunity (Comm "c1") (Some (concrete_var 110 IntSort (PInt 100)))
      [ann1] empty_state = OK (m, s').
Proof.
  split.
  - exact (proj1 (match_community_constructor (Comm "c2") None ann1 []
                    empty_state) eq_refl).
  - destruct (proj2 (match_community_constructor (Comm "c1")
                       (Some (concrete_var 110 IntSort (PInt 100))) ann1 []
                       empty_state) _ eq_refl) as (m & s' & H & _).
    eauto.
Defined.

(** ** SelectOne: default candidates, first query, reading the choice back *)







(** [_get_match] queries the candidates in order, like the list
    comprehension of MatchAnd, and returns the nested conditional over their
    results, ending in [And(index == k, False)]. *)
Lemma _get_match_results (f : nat -> Announcement -> M SMTVar) idx a :
  forall l i s e s',
    _get_match f idx l a i s = OK (e, s') ->
    exists rs,
      mapM (fun m => f m a) l s = OK (rs, s') /\
      length rs = length l /\
      e = nested_conditional (var idx) (map var rs)
            (EAnd [EEq (var idx) (ELit (PInt (i + Z.of_nat (length l))));
                   ELit (PBool false)]) i.
Proof.
  induction l as [|m l IH]; intros i s e s' H; simpl in H.
  - run_inv H. exists []. split; [reflexivity|]. split; [reflexivity|].
    simpl. by rewrite Z.add_0_r.
  - apply bind_OK in H as (r & s1 & Hr & H).
    apply bind_OK in H as (next & s2 & Hnext & H). run_inv H.
    apply IH in Hnext as (rs & Hrs & Hlen & ->).
    exists (r :: rs).
    split; [simpl; unfold bind; by rewrite Hr, Hrs|].
    split; [simpl; by rewrite Hlen|].
    replace (i + Z.of_nat (length (m :: l)))
      with (i + 1 + Z.of_nat (length l)) by (simpl length; lia).
    reflexivity.
Qed.

(** The last branch of SelectOne's conditional is false whatever the
    assignment. *)
Lemma unreachable_branch_false env u sx k :
  eval env (EAnd [EEq (EConst u sx) (ELit (PInt k)); ELit (PBool false)])
  = Some (PBool false).
Proof. simpl. by rewrite andb_false_r. Qed.

(** X7 (SelectOne, first query): on an announcement not yet in the cache the
    node allocates a fresh symbolic boolean [v], queries every candidate in
    order, and registers one constraint [v == cond] after theirs, also when
    every candidate is concrete.  With the index on candidate [n] the
    constraint says that [v] is that candidate's result; with the index on no
    candidate it says that [v] is false. *)
Theorem select_one_first_query fuel m a s self idx ms v s' :
  match_store s !! m = Some self ->
  mkind self = KMatchSelectOne idx ms ->
  cached self a = false ->
  value idx = None ->
  is_match (S fuel) m a s = OK (v, s') ->
  v = mkSMTVar None (next_uid (ctx s)) BoolSort None /\
  exists rs s1 s2 cond,
    constraints (ctx s1) = constraints (ctx s) /\
    mapM (fun sub => is_match fuel sub a) ms s1 = OK (rs, s2) /\
    length rs = length ms /\
    constraints (ctx s')
    = constraints (ctx s2) ++ [(Some "SelectOne_match_", EEq (var v) cond)] /\
    (forall env n r,
       rs !! n = Some r -> env (uid idx) = PInt (Z.of_nat n) ->
       (holds env (EEq (var v) cond)
        <-> eval env (var r) = Some (env (uid v)))) /\
    (forall env,
       (forall j, 0 <= j < Z.of_nat (length ms) -> env (uid idx) <> PInt j) ->
       (holds env (EEq (var v) cond) <-> env (uid v) = PBool false)).
Proof.
  intros Hself Hkind Hmiss Hidx H.
  simpl in H. apply bind_OK in H as (self' & s0 & Hs & H).
  apply get_match_OK in Hs as [-> Hs]. rewrite Hself in Hs.
  inversion Hs; subst self'. rewrite Hkind, Hmiss in H.
  apply bind_OK in H as (u & s4 & Hbody & Hget).
  apply bind_OK in Hbody as (x & s1 & Hx & Hbody).
  apply bind_OK in Hbody as (u1 & s2 & Hset & Hbody).
  apply bind_OK in Hbody as (e & s3 & He & Hreg).
  assert (L : store_le s2 s4).
  { eapply store_le_trans; [|eapply register_constraint_le; exact Hreg].
    eapply _get_match_le; [|exact He].
    intros ? ? ? ? Hq. exact (is_match_le _ _ _ _ _ _ Hq). }
  destruct (cache_set_then_get _ _ _ _ _ _ _ _ _ Hset L Hget) as [-> ->].
  apply create_fresh_var_OK in Hx as (-> & _ & _ & Hc1 & _).
  apply cache_set_OK in Hset as (nd & _ & Hctx2 & _).
  apply _get_match_results in He as (rs & Hrs & Hlen & ->).
  apply register_constraint_OK in Hreg as (_ & _ & Hc4 & _).
  split; [reflexivity|].
  assert (Hivar : var idx = EConst (uid idx) (vsort_of idx))
    by (unfold var; by rewrite Hidx).
  eexists rs, s2, s3, _. split; [by rewrite Hctx2|].
  split; [exact Hrs|]. split; [exact Hlen|]. split; [exact Hc4|].
  split.
  - intros env n r Hn Hu. unfold holds. simpl. rewrite Hivar.
    rewrite (nested_conditional_selected env _ _ (map var rs) _ 0 n (var r))
      by (first [by rewrite list_lookup_fmap, Hn | rewrite Hu; f_equal; lia]).
    destruct (eval env (var r)) as [y|]; [|split; discriminate].
    split.
    + intros E. inversion E as [E']. apply bool_decide_eq_true_1 in E'. congruence.
    + intros E. inversion E; subst. by rewrite bool_decide_eq_true_2.
  - intros env Hex. unfold holds. simpl. rewrite Hivar.
    rewrite nested_conditional_exhausted
      by (intros j Hj; apply Hex; rewrite length_map, Hlen in Hj; lia).
    rewrite unreachable_branch_false.
    split.
    + intros E. inversion E as [E']. apply bool_decide_eq_true_1 in E'. done.
    + intros ->. by rewrite bool_decide_eq_true_2.
Qed.

Lemma select_one_first_query_witness :
  exists v s',
    is_match 2 1 ann1
      (state_after (m <- SMTMatchAll ;; SMTMatchSelectOne [ann1] (Some [m])))
    = OK (v, s') /\
    v = mkSMTVar None 2 BoolSort None /\
    last (constraints (ctx s'))
    = Some (Some "SelectOne_match_",
            EEq (EConst 2 BoolSort)
              (EIf (EEq (EConst 1 IntSort) (ELit (PInt 0))) (ELit (PBool true))
                 (EAnd [EEq (EConst 1 IntSort) (ELit (PInt 1));
                        ELit (PBool false)]))).
Proof.
  eexists _, _. split; [reflexivity|]. split; [|reflexivity].
  exact (proj1 (select_one_first_query 1 1 ann1
                  (state_after (m <- SMTMatchAll ;;
                                SMTMatchSelectOne [ann1] (Some [m])))
                  _ (mkSMTVar (Some "SelectOne_index_") 1 IntSort None)
                  [0%nat] _ _ eq_refl eq_refl eq_refl eq_refl eq_refl)).
Defined.

(** ** Reading the choice back after solving *)

Lemma dict_index_in_range {A} (l : list A) (i : Z) :
  0 <= i < Z.of_nat (length l) ->
  exists x, dict_index l (PInt i) = OK x /\ l !! Z.to_nat i = Some x.
Proof.
  intros Hr. unfold dict_index.
  destruct (Z.leb_spec 0 i); [|lia].
  destruct (l !! Z.to_nat i) as [x|] eqn:E; [eauto|].
  apply lookup_ge_None in E. lia.
Qed.

Lemma dict_index_out_of_range {A} (l : list A) (i : Z) :
  ~ (0 <= i < Z.of_nat (length l)) -> dict_index l (PInt i) = Raise KeyError.
Proof.
  intros Hr. unfold dict_index.
  destruct (Z.leb_spec 0 i); [|reflexivity].
  destruct (l !! Z.to_nat i) as [x|] eqn:E; [|reflexivity].
  apply lookup_lt_Some in E. lia.
Qed.

(** X8 (get_used_match, get_used_action): for a SelectOne, and a SetOne,
    just constructed, the accessor returns the candidate at the position the
    solver model gives to the index, and raises [KeyError] when that
    position is outside the candidates.  A model that satisfies the
    constraint registered by the SetOne constructor always finds a
    candidate.  A model that satisfies the constraint registered by the
    SelectOne constructor finds one when it gives the index a value that is
    not negative; the model that gives the index -1 satisfies that
    constraint too, and the accessor raises [KeyError] under it. *)
Theorem get_used_candidate model :
  (forall anns matches s m s',
     SMTMatchSelectOne anns matches s = OK (m, s') ->
     exists idx ms c,
       match_store s' !! m = Some (mkMatch (KMatchSelectOne idx ms) anns []) /\
       last (constraints (ctx s')) = Some (Some "SelectOne_index_range_", c) /\
       (holds model c ->
        forall i, model (uid idx) = PInt i -> 0 <= i ->
          exists cand,
            ms !! Z.to_nat i = Some cand /\
            get_used_match model m s' = OK (cand, s')) /\
       (forall i, model (uid idx) = PInt i ->
          ~ (0 <= i < Z.of_nat (length ms)) ->
          get_used_match model m s' = Raise KeyError) /\
       (model (uid idx) = PInt (-1) ->
        holds model c /\ get_used_match model m s' = Raise KeyError)) /\
  (forall fuel m anns actions s a s',
     SMTSetOne fuel m anns actions s = OK (a, s') ->
     exists idx acts c,
       action_store s' !! a = Some (mkAction (KSetOne idx acts) m anns None) /\
       last (constraints (ctx s')) = Some (Some "setone_index_max_", c) /\
       (holds model c ->
        exists i cand,
          model (uid idx) = PInt i /\ acts !! Z.to_nat i = Some cand /\
          get_used_action model a s' = OK (cand, s')) /\
       (forall i, model (uid idx) = PInt i ->
          ~ (0 <= i < Z.of_nat (length acts)) ->
          get_used_action model a s' = Raise KeyError)).
Proof.
  split.
  - intros anns matches s m s' H.
    destruct (SMTMatchSelectOne_range _ _ _ _ _ H)
      as (idx & ms & c & Hm & _ & Hl & (Hv & _ & Hr)).
    exists idx, ms, c. split; [exact Hm|]. split; [exact Hl|].
    assert (Hrun :
              get_used_match model m s' =
              match dict_index ms (solved_value model idx) with
              | OK x => OK (x, s') | Raise e => Raise e end).
    { unfold get_used_match, bind, get_match, lift. by rewrite Hm. }
    unfold solved_value in Hrun. rewrite Hv in Hrun.
    assert (Hout : forall i, model (uid idx) = PInt i ->
                     ~ (0 <= i < Z.of_nat (length ms)) ->
                     get_used_match model m s' = Raise KeyError).
    { intros i Hi Hout. rewrite Hrun, Hi. by rewrite dict_index_out_of_range. }
    split; [|split; [exact Hout|]].
    + intros Hc i Hi Hpos. apply Hr in Hc as (i' & Hi' & Hbelow).
      assert (i' = i) by congruence. subst i'.
      destruct (dict_index_in_range ms i ltac:(lia)) as (cand & Hd & Hcand).
      exists cand. split; [exact Hcand|].
      rewrite Hrun, Hi, Hd. reflexivity.
    + intros Hneg. split.
      * apply Hr. exists (-1). split; [exact Hneg | lia].
      * apply (Hout (-1) Hneg). lia.
  - intros fuel m anns actions s a s' H.
    destruct (SMTSetOne_range _ _ _ _ _ _ _ H)
      as (idx & acts & c & Ha & Hl & (Hv & _ & Hr)).
    exists idx, acts, c. split; [exact Ha|]. split; [exact Hl|].
    assert (Hrun :
              get_used_action model a s' =
              match dict_index acts (solved_value model idx) with
              | OK x => OK (x, s') | Raise e => Raise e end).
    { unfold get_used_action, bind, get_action, lift. by rewrite Ha. }
    unfold solved_value in Hrun. rewrite Hv in Hrun.
    split.
    + intros Hc. apply Hr in Hc as (i & Hi & Hrange).
      destruct (dict_index_in_range acts i Hrange) as (cand & Hd & Hcand).
      exists i, cand. split; [exact Hi|]. split; [exact Hcand|].
      rewrite Hrun, Hi, Hd. reflexivity.
    + intros i Hi Hout. rewrite Hrun, Hi.
      by rewrite dict_index_out_of_range.
Qed.

Lemma get_used_candidate_witness :
  (exists s',
     SMTSetOne 3 0 anns1 (Some [0%nat; 1%nat]) two_candidates = OK (2%nat, s') /\
     get_used_action (fun _ => PInt 1) 2 s' = OK (1%nat, s')) /\
  (exists s' c,
     SMTMatchSelectOne [ann1] (Some [0%nat]) local_pref_100 = OK (1%nat, s') /\
     last (constraints (ctx s')) = Some (Some "SelectOne_index_range_", c) /\
     holds (fun _ => PInt (-1)) c /\
     get_used_match (fun _ => PInt (-1)) 1 s' = Raise KeyError).
Proof.
  split.
  - destruct (proj2 (get_used_candidate (fun _ => PInt 1)) 3%nat 0%nat anns1
                (Some [0%nat; 1%nat]) two_candidates _ _ eq_refl)
      as (idx & acts & c & Ha & Hl & Hin & _).
    vm_compute in Hl. inversion Hl; subst c.
    vm_compute in Ha. inversion Ha; subst idx acts.
    destruct (Hin eq_refl) as (i & cand & Hi & Hc & Hg).
    inversion Hi; subst i. inversion Hc; subst cand.
    eexists. split; [reflexivity | exact Hg].
  - destruct (proj1 (get_used_candidate (fun _ => PInt (-1))) [ann1]
                (Some [0%nat]) local_pref_100 _ _ eq_refl)
      as (idx & ms & c & _ & Hl & _ & _ & Hneg).
    destruct (Hneg eq_refl) as [Hc Hg].
    eexists _, c. split; [reflexivity|]. split; [exact Hl|].
    split; [exact Hc | exact Hg].
Defined.

(** * Further properties of the actions *)

(** ** The loops of [execute] *)

(** What the dictionary filled by [for_each] holds at a key whose body can
    only produce [x]. *)
Lemma for_each_lookup {K V} `{EqDecision K} (body : K -> M (V * list expr))
    (k : K) (x : V) :
  (forall s1 r s2, body k s1 = OK (r, s2) -> fst r = x) ->
  forall keys acc cs s d cs' s',
    for_each body keys acc cs s = OK ((d, cs'), s') ->
    k ∈ keys \/ dict_get acc k = Some x ->
    dict_get d k = Some x.
Proof.
  intros Hbody. induction keys as [|k0 keys IH]; intros acc cs s d cs' s' H Hk;
    simpl in H.
  - run_inv H. destruct Hk as [Hk|Hk]; [inversion Hk | exact Hk].
  - apply bind_OK in H as (r & s1 & Hr & H).
    eapply IH; [exact H|].
    destruct (decide (k0 = k)) as [->|Hne].
    + right. rewrite dict_get_set_eq. f_equal. eapply Hbody; eauto.
    + destruct Hk as [Hk|Hk].
      * apply elem_of_cons in Hk as [->|Hk]; [contradiction | by left].
      * right. by rewrite dict_get_set_ne.
Qed.

(** The announcement built from a keyword dictionary has, at every
    attribute, what the dictionary holds there. *)
Lemma Announcement_of_getattr d a :
  Announcement_of d = OK a ->
  forall k x, k ∈ Announcement_attributes -> dict_get d k = Some x ->
              getattr a k = OK x.
Proof.
  unfold Announcement_of. intros H.
  destruct (dict_get d "prefix") as [[v1|?]|] eqn:E1; try discriminate.
  destruct (dict_get d "peer") as [[v2|?]|] eqn:E2; try discriminate.
  destruct (dict_get d "origin") as [[v3|?]|] eqn:E3; try discriminate.
  destruct (dict_get d "as_path") as [[v4|?]|] eqn:E4; try discriminate.
  destruct (dict_get d "as_path_len") as [[v5|?]|] eqn:E5; try discriminate.
  destruct (dict_get d "next_hop") as [[v6|?]|] eqn:E6; try discriminate.
  destruct (dict_get d "local_pref") as [[v7|?]|] eqn:E7; try discriminate.
  destruct (dict_get d "med") as [[v8|?]|] eqn:E8; try discriminate.
  destruct (dict_get d "communities") as [[?|c9]|] eqn:E9; try discriminate.
  destruct (dict_get d "permitted") as [[v10|?]|] eqn:E10; try discriminate.
  inversion H; subst a. intros k x Hk Hx.
  unfold Announcement_attributes in Hk.
  repeat (apply elem_of_cons in Hk as [->|Hk];
          [match goal with
           | E : dict_get d ?k = Some _ |- getattr _ ?k = _ =>
               rewrite E in Hx; inversion Hx; reflexivity
           end|]).
  inversion Hk.
Qed.

Lemma getattr_unknown a b attr :
  attr ∉ Announcement_attributes -> getattr a attr = getattr b attr.
Proof.
  intros Hn. unfold getattr. simpl.
  repeat (case_decide; [subst; exfalso; apply Hn; repeat constructor|]).
  reflexivity.
Qed.

Lemma getattr_known a attr :
  attr ∈ Announcement_attributes -> exists x, getattr a attr = OK x.
Proof.
  unfold Announcement_attributes. intros Hk.
  repeat (apply elem_of_cons in Hk as [->|Hk]; [eexists; reflexivity|]).
  inversion Hk.
Qed.

(** The loop over the old announcements yields one new announcement per
    old one, each by one run of the body. *)
Lemma for_announcements_each body :
  forall olds s news cs s',
    for_announcements body olds s = OK ((news, cs), s') ->
    Forall2 (fun old new => exists s1 c s2, body old s1 = OK ((new, c), s2))
      olds news.
Proof.
  induction olds as [|a olds IH]; intros s news cs s' H; simpl in H.
  - run_inv H. constructor.
  - apply bind_OK in H as ([new c] & s1 & Hx & H).
    apply bind_OK in H as ([news' cs'] & s2 & Hxs & H). run_inv H.
    constructor; [eauto | eapply IH; eauto].
Qed.

(** In one iteration of [SMTSetAttribute.execute], every attribute but the
    target is copied. *)
Lemma SMTSetAttribute_announcement_others fuel m attribute val old s new c s' :
  SMTSetAttribute_announcement fuel m attribute val old s = OK ((new, c), s') ->
  forall attr, attr <> attribute -> getattr new attr = getattr old attr.
Proof.
  unfold SMTSetAttribute_announcement. intros H attr Hne.
  apply bind_OK in H as ([d cs] & s1 & Hd & H).
  apply bind_OK in H as (a & s2 & Ha & H). apply lift_OK in Ha as [Ha ->].
  run_inv H. simpl in Ha.
  destruct (decide (attr ∈ Announcement_attributes)) as [Hin|Hnin];
    [|by apply getattr_unknown].
  destruct (getattr_known old attr Hin) as [x Hx]. rewrite Hx.
  eapply Announcement_of_getattr; [exact Ha | exact Hin |].
  eapply (for_each_lookup _ attr x); [|exact Hd|left; exact Hin].
  intros s1' r s2' Hr. unfold SMTSetAttribute_attr in Hr.
  apply bind_OK in Hr as (y & s3 & Hy & Hr). apply lift_OK in Hy as [Hy ->].
  rewrite (bool_decide_eq_false_2 _ Hne) in Hr. run_inv Hr. simpl. congruence.
Qed.

(** X9 (SetAttribute.execute, pass-through): when [execute] on a
    SetAttribute that is not yet populated returns, whatever the guard, its
    announcement set is a new version produced by this action, with one
    announcement per old one, and in each of them every attribute other than
    the target is the very value of the old announcement. *)
Theorem set_attribute_passes_others_through fuel self s nd attribute val u s' :
  action_store s !! self = Some nd ->
  akind nd = KSetAttribute attribute val ->
  populated (_announcements nd) = false ->
  execute (S fuel) self s = OK (u, s') ->
  exists nd' news,
    action_store s' !! self = Some nd' /\
    _announcements nd' = Some (create_new news self) /\
    length news = length (announcements_list (_old_announcements nd)) /\
    forall i old new attr,
      announcements_list (_old_announcements nd) !! i = Some old ->
      news !! i = Some new ->
      attr <> attribute ->
      getattr new attr = getattr old attr.
Proof.
  intros Hnd Hkind Hpop H. simpl in H.
  rewrite (bind_run _ _ _ nd s) in H by (unfold get_action; by rewrite Hnd).
  rewrite Hkind in H. unfold SMTSetAttribute_execute in H. rewrite Hpop in H.
  apply bind_OK in H as ([news cs] & s1 & Hloop & H).
  apply finish_execute_OK in H as (nd' & Hnd' & Ha).
  apply for_announcements_each in Hloop.
  exists nd', news. split; [exact Hnd'|]. split; [exact Ha|].
  split; [symmetry; eapply Forall2_length; eauto|].
  intros i old new attr Hold Hnew Hne.
  destruct (Forall2_lookup_lr _ _ _ _ _ _ Hloop Hold Hnew) as (s2 & c & s3 & Hrun).
  eapply SMTSetAttribute_announcement_others; eauto.
Qed.

Lemma set_attribute_passes_others_through_witness :
  exists s' nd' new,
    execute 2 0 unexecuted_set_med = OK (tt, s') /\
    action_store s' !! 0%nat = Some nd' /\
    _announcements nd' = Some (create_new [new] 0) /\
    getattr new "local_pref" = getattr ann1 "local_pref".
Proof.
  assert (Hrun : exists s', execute 2 0 unexecuted_set_med = OK (tt, s'))
    by (eexists; vm_compute; reflexivity).
  destruct Hrun as [s' Hrun].
  destruct (set_attribute_passes_others_through 1 0 unexecuted_set_med
              unexecuted_set_med_node "med"
              (concrete_var 112 IntSort (PInt 7)) tt s'
              ltac:(vm_compute; reflexivity) ltac:(reflexivity)
              ltac:(reflexivity) Hrun)
    as (nd' & news & Hnd' & Ha & Hlen & Hpass).
  change (length news = 1%nat) in Hlen.
  destruct news as [|new [|? ?]]; try discriminate Hlen.
  exists s', nd', new. split; [exact Hrun|]. split; [exact Hnd'|].
  split; [exact Ha|].
  apply (Hpass 0%nat ann1 new "local_pref");
    [reflexivity | reflexivity | discriminate].
Defined.

(** ** Partial evaluation of the actions *)

(** One iteration of [SMTSetAttribute.execute] under a guard whose answer
    is concrete: the guard is queried once, nothing else happens to the
    state, no constraint is collected and the new announcement is the old
    one with the attribute set, or the old one. *)
Lemma SMTSetAttribute_announcement_concrete fuel m attribute val old s im s1 :
  attribute ∈ Announcement_attributes ->
  attribute <> "communities" ->
  is_match fuel m old s = OK (im, s1) ->
  is_concrete im = true ->
  SMTSetAttribute_announcement fuel m attribute val old s
  = OK ((if get_value im then set_attr old attribute val else old, []), s1).
Proof.
  intros Hin Hne Him Hc. unfold Announcement_attributes in Hin.
  destruct old as [p pe o ap apl nh lp me cs pm].
  repeat (apply elem_of_cons in Hin as [->|Hin];
          [try (exfalso; apply Hne; reflexivity);
           unfold SMTSetAttribute_announcement, SMTSetAttribute_attr;
           simpl for_each; unfold bind, lift, ret; simpl;
           rewrite Him, Hc; destruct (get_value im); reflexivity|]).
  inversion Hin.
Qed.

(** The loop over the old announcements when every iteration queries the
    guard once, gets a concrete answer and does nothing else. *)
Lemma for_announcements_concrete fuel m
    (body : Announcement -> M (Announcement * list expr))
    (f : Announcement -> SMTVar -> Announcement) :
  forall olds s ims s1,
    (forall old s0 im s2,
       old ∈ olds ->
       is_match fuel m old s0 = OK (im, s2) -> is_concrete im = true ->
       body old s0 = OK ((f old im, []), s2)) ->
    mapM (fun old => is_match fuel m old) olds s = OK (ims, s1) ->
    forallb is_concrete ims = true ->
    for_announcements body olds s = OK ((zip_with f olds ims, []), s1).
Proof.
  induction olds as [|old olds IH]; intros s ims s1 Hbody H Hc; simpl in H.
  - run_inv H. reflexivity.
  - apply bind_OK in H as (im & s2 & Him & H).
    apply bind_OK in H as (ims' & s3 & Hims & H). run_inv H.
    simpl in Hc. apply andb_prop in Hc as [Hc1 Hc2].
    simpl. unfold bind.
    rewrite (Hbody _ _ _ _ ltac:(constructor) Him Hc1).
    rewrite (IH _ _ _ (fun o s0 i s4 Ho => Hbody o s0 i s4 ltac:(by constructor))
               Hims Hc2).
    reflexivity.
Qed.

(** What [finish_execute] does when no constraint was collected. *)
Lemma finish_execute_silent self nd s news :
  action_store s !! self = Some nd ->
  finish_execute self (_old_announcements nd) (news, []) s
  = OK (tt, mkState (ctx s) (match_store s)
              (<[self := mkAction (akind nd) (a_match nd)
                           (_old_announcements nd)
                           (Some (create_new news self))]> (action_store s))).
Proof.
  intros Hnd. unfold finish_execute, bind, ret, set_announcements. simpl.
  by rewrite Hnd.
Qed.

(** X10 (SetAttribute.execute, concrete guard): when the guard answers with
    a concrete value on every old announcement, [execute] on a SetAttribute
    that is not yet populated returns; beyond the guard's own queries it
    creates no value and registers no constraint; and each new announcement
    is the old one with the attribute set to the action's value where the
    guard said true, the old one itself where it said false. *)
Theorem set_attribute_concrete_guard fuel self s nd attribute val ims s1 :
  action_store s !! self = Some nd ->
  akind nd = KSetAttribute attribute val ->
  populated (_announcements nd) = false ->
  attribute ∈ Announcement_attributes ->
  attribute <> "communities" ->
  mapM (fun old => is_match fuel (a_match nd) old)
    (announcements_list (_old_announcements nd)) s = OK (ims, s1) ->
  forallb is_concrete ims = true ->
  exists s',
    execute (S fuel) self s = OK (tt, s') /\
    ctx s' = ctx s1 /\ match_store s' = match_store s1 /\
    constraints (ctx s') = constraints (ctx s) /\
    action_store s'
    = <[self := mkAction (akind nd) (a_match nd) (_old_announcements nd)
                 (Some (create_new
                          (zip_with
                             (fun old im => if get_value im
                                            then set_attr old attribute val
                                            else old)
                             (announcements_list (_old_announcements nd)) ims)
                          self))]> (action_store s).
Proof.
  intros Hnd Hkind Hpop Hin Hne Hims Hc.
  assert (Hle : store_le s s1).
  { eapply mapM_le; [|exact Hims].
    intros ? ? ? ? Hx. exact (is_match_le _ _ _ _ _ _ Hx). }
  destruct Hle as [Hact _].
  assert (Hsilent : constraints (ctx s1) = constraints (ctx s)).
  { eapply mapM_concrete_silent; [|exact Hims|exact Hc].
    intros ? ? ? ? Hx. exact (is_match_concrete_silent _ _ _ _ _ _ Hx). }
  eexists. split.
  - simpl. rewrite (bind_run _ _ _ nd s) by (unfold get_action; by rewrite Hnd).
    rewrite Hkind. unfold SMTSetAttribute_execute. rewrite Hpop.
    unfold bind at 1.
    rewrite (for_announcements_concrete fuel (a_match nd) _
               (fun old im => if get_value im then set_attr old attribute val
                              else old)
               _ _ _ _
               (fun old s0 im s2 _ =>
                  SMTSetAttribute_announcement_concrete fuel (a_match nd)
                    attribute val old s0 im s2 Hin Hne)
               Hims Hc).
    apply finish_execute_silent. by rewrite Hact.
  - simpl. rewrite Hact. auto.
Qed.

Lemma set_attribute_concrete_guard_witness :
  exists s',
    execute 2 0 set_med_under_match_all = OK (tt, s') /\
    constraints (ctx s') = [] /\
    action_store s'
    = [mkAction (KSetAttribute "med" (concrete_var 112 IntSort (PInt 7))) 0
         anns1
         (Some (create_new
                  [set_attr ann1 "med" (concrete_var 112 IntSort (PInt 7))]
                  0))].
Proof.
  destruct (set_attribute_concrete_guard 1 0 set_med_under_match_all
              unexecuted_set_med_node "med"
              (concrete_var 112 IntSort (PInt 7))
              [mkSMTVar (Some "match_all_") 0 BoolSort (Some (PBool true))]
              set_med_under_match_all
              ltac:(vm_compute; reflexivity) ltac:(reflexivity)
              ltac:(reflexivity) ltac:(repeat constructor)
              ltac:(discriminate) ltac:(vm_compute; reflexivity)
              ltac:(reflexivity))
    as (s' & Hrun & _ & _ & Hc & Ha).
  exists s'. split; [exact Hrun|]. split; [exact Hc | exact Ha].
Defined.

(** ** SetCommunity under a concrete guard *)

Lemma dict_get_NoDup {K V} `{EqDecision K} (d : list (K * V)) k v :
  NoDup (map fst d) -> (k, v) ∈ d -> dict_get d k = Some v.
Proof.
  induction d as [|[k' v'] d IH]; simpl; intros Hnd Hin; [inversion Hin|].
  apply NoDup_cons in Hnd as [Hk Hnd].
  apply elem_of_cons in Hin as [E|Hin].
  - inversion E; subst. by rewrite decide_True.
  - destruct (decide (k = k')) as [->|Hne]; [|by apply IH].
    exfalso. apply Hk. apply list_elem_of_fmap. by exists (k', v).
Qed.

Lemma dict_set_fresh {K V} `{EqDecision K} (d : list (K * V)) k v :
  k ∉ map fst d -> dict_set d k v = d ++ [(k, v)].
Proof.
  induction d as [|[k' v'] d IH]; simpl; intros Hk; [reflexivity|].
  apply not_elem_of_cons in Hk as [Hne Hk].
  rewrite decide_False by exact Hne. by rewrite IH.
Qed.

Lemma map_update_absent {K V} `{EqDecision K} (l : list (K * V)) k0 x :
  k0 ∉ map fst l ->
  map (fun kv : K * V => (fst kv, if bool_decide (fst kv = k0) then x
                                  else snd kv)) l = l.
Proof.
  induction l as [|[k v] l IH]; [reflexivity|]. simpl. intros Hni.
  apply not_elem_of_cons in Hni as [Hne Hni].
  rewrite bool_decide_eq_false_2 by (intros E; apply Hne; by symmetry).
  by rewrite IH.
Qed.

Lemma map_update_same {K V} `{EqDecision K} (l : list (K * V)) k0 v0 :
  NoDup (map fst l) -> dict_get l k0 = Some v0 ->
  map (fun kv : K * V => (fst kv, if bool_decide (fst kv = k0) then v0
                                  else snd kv)) l = l.
Proof.
  induction l as [|[k v] l IH]; [reflexivity|]. simpl. intros Hnd Hv0.
  apply NoDup_cons in Hnd as [Hk Hnd].
  destruct (decide (k0 = k)) as [->|Hne].
  - inversion Hv0; subst. rewrite bool_decide_eq_true_2 by reflexivity.
    by rewrite (map_update_absent l k v0 Hk).
  - rewrite bool_decide_eq_false_2 by (intros E; apply Hne; by symmetry).
    by rewrite IH.
Qed.

(** A dictionary-filling loop over the keys of [rest] whose body answers
    every key with the value [rest] has there and touches nothing: the
    entries of [rest] are appended as they are. *)
Lemma for_each_copy {K V} `{EqDecision K} (body : K -> M (V * list expr)) :
  forall (rest acc : list (K * V)) cs s,
    (forall kv s0, kv ∈ rest -> body (fst kv) s0 = OK ((snd kv, []), s0)) ->
    NoDup (map fst acc ++ map fst rest) ->
    for_each body (map fst rest) acc cs s = OK ((acc ++ rest, cs), s).
Proof.
  induction rest as [|[k v] rest IH]; intros acc cs s Hbody Hnd; simpl.
  - by rewrite app_nil_r.
  - rewrite (bind_run _ _ _ _ _ (Hbody (k, v) s ltac:(constructor))).
    simpl. rewrite app_nil_r.
    assert (Hfresh : k ∉ map fst acc).
    { apply NoDup_app in Hnd as (_ & Hdis & _). intros Hk.
      eapply Hdis; [exact Hk | constructor]. }
    rewrite dict_set_fresh by exact Hfresh.
    rewrite IH.
    + by rewrite <- app_assoc.
    + intros kv s0 Hin. apply Hbody. by constructor.
    + rewrite map_app. simpl. by rewrite <- app_assoc.
Qed.

(** The same loop when the body, at one key [k0], runs from [s] to [s1] and
    answers [x]: that one entry is replaced. *)
Lemma for_each_one_update {K V} `{EqDecision K} (body : K -> M (V * list expr))
    (k0 : K) (x : V) s s1 :
  body k0 s = OK ((x, []), s1) ->
  forall (rest acc : list (K * V)) cs,
    (forall kv s0, kv ∈ rest -> fst kv <> k0 ->
                   body (fst kv) s0 = OK ((snd kv, []), s0)) ->
    NoDup (map fst acc ++ map fst rest) ->
    k0 ∈ map fst rest ->
    for_each body (map fst rest) acc cs s
    = OK ((acc ++ map (fun kv : K * V =>
                         (fst kv, if bool_decide (fst kv = k0) then x
                                  else snd kv)) rest, cs), s1).
Proof.
  intros Hk0.
  induction rest as [|[k v] rest IH]; intros acc cs Hbody Hnd Hin;
    [inversion Hin|].
  assert (Hfresh : k ∉ map fst acc).
  { apply NoDup_app in Hnd as (_ & Hdis & _). intros Hk.
    eapply Hdis; [exact Hk | constructor]. }
  assert (Hbody' : forall kv s0, kv ∈ rest -> fst kv <> k0 ->
                                 body (fst kv) s0 = OK ((snd kv, []), s0)).
  { intros kv s0 Hkv. apply Hbody. by constructor. }
  simpl. destruct (decide (k = k0)) as [->|Hne].
  - rewrite (bind_run _ _ _ _ _ Hk0). simpl. rewrite app_nil_r.
    rewrite dict_set_fresh by exact Hfresh.
    rewrite bool_decide_eq_true_2 by reflexivity.
    assert (Hni : k0 ∉ map fst rest).
    { apply NoDup_app in Hnd as (_ & _ & Hrest). simpl in Hrest.
      by apply NoDup_cons in Hrest as [? _]. }
    rewrite (map_update_absent rest k0 x Hni). rewrite for_each_copy.
    + by rewrite <- app_assoc.
    + intros kv s0 Hkv. apply Hbody'; [exact Hkv|]. intros E. apply Hni.
      apply list_elem_of_fmap. by exists kv.
    + rewrite map_app. simpl. by rewrite <- app_assoc.
  - rewrite (bind_run _ _ _ _ _ (Hbody (k, v) s ltac:(constructor) Hne)).
    simpl. rewrite app_nil_r. rewrite dict_set_fresh by exact Hfresh.
    rewrite bool_decide_eq_false_2 by exact Hne.
    apply elem_of_cons in Hin as [E|Hin]; [by symmetry in E|].
    rewrite IH; [|exact Hbody'| |exact Hin].
    + by rewrite <- app_assoc.
    + rewrite map_app. simpl. by rewrite <- app_assoc.
Qed.

(** [SMTSetCommunity.execute] on one community of one announcement: another
    community is copied; the target, under a concrete guard, takes the
    action's value or keeps its own. *)
Lemma SMTSetCommunity_community_other fuel m community val old attr attr_v k v s :
  k <> community ->
  SMTSetCommunity_community fuel m community val old attr attr_v (k, v) s
  = OK ((v, []), s).
Proof.
  intros Hne. unfold SMTSetCommunity_community.
  by rewrite (bool_decide_eq_false_2 _ Hne).
Qed.

Lemma SMTSetCommunity_community_concrete fuel m community val old attr attr_v v
    s im s1 :
  is_match fuel m old s = OK (im, s1) ->
  is_concrete im = true ->
  SMTSetCommunity_community fuel m community val old attr attr_v (community, v) s
  = OK ((if get_value im then val else v, []), s1).
Proof.
  intros Him Hc. unfold SMTSetCommunity_community.
  rewrite bool_decide_eq_true_2 by reflexivity. simpl.
  rewrite (bind_run _ _ _ _ _ Him). by rewrite Hc.
Qed.

(** The [communities] entry of the new announcement. *)
Lemma SMTSetCommunity_attr_concrete fuel m community val old s im s1 :
  NoDup (map fst (communities old)) ->
  dict_has (communities old) community = true ->
  is_match fuel m old s = OK (im, s1) ->
  is_concrete im = true ->
  SMTSetCommunity_attr fuel m community val old "communities" s
  = OK ((AComms (if get_value im
                 then set_community (communities old) community val
                 else communities old), []), s1).
Proof.
  intros Hnd Hhas Him Hc. unfold SMTSetCommunity_attr.
  rewrite (bind_run _ _ _ (AComms (communities old)) s)
    by (destruct old; reflexivity).
  rewrite bool_decide_eq_true_2 by reflexivity.
  change (negb true) with false. cbv iota.
  unfold dict_has in Hhas.
  destruct (dict_get (communities old) community) as [v0|] eqn:Hv0;
    [clear Hhas | discriminate].
  assert (Hkey : community ∈ map fst (communities old)).
  { clear -Hv0. induction (communities old) as [|[k v] l IH]; [discriminate|].
    simpl in *. destruct (decide (community = k)) as [->|Hne];
      [constructor | constructor; auto]. }
  erewrite bind_run.
  2:{ eapply (for_each_one_update _ community
                (if get_value im then val else v0) s s1).
      - rewrite Hv0.
        by apply SMTSetCommunity_community_concrete.
      - intros [k v] s0 Hkv Hne. simpl in *.
        rewrite (dict_get_NoDup _ _ _ Hnd Hkv).
        by apply SMTSetCommunity_community_other.
      - exact Hnd.
      - exact Hkey. }
  unfold ret. simpl.
  destruct (get_value im); [reflexivity|].
  by rewrite (map_update_same _ _ _ Hnd Hv0).
Qed.

Lemma SMTSetCommunity_attr_other fuel m community val old attr x s :
  attr <> "communities" ->
  getattr old attr = OK x ->
  SMTSetCommunity_attr fuel m community val old attr s = OK ((x, []), s).
Proof.
  intros Hne Hx. unfold SMTSetCommunity_attr.
  rewrite (bind_run _ _ _ x s) by (unfold lift; by rewrite Hx).
  by rewrite (bool_decide_eq_false_2 _ Hne).
Qed.

(** One iteration of [SMTSetCommunity.execute] under a guard whose answer
    is concrete. *)
Lemma SMTSetCommunity_announcement_concrete fuel m community val old s im s1 :
  NoDup (map fst (communities old)) ->
  dict_has (communities old) community = true ->
  is_match fuel m old s = OK (im, s1) ->
  is_concrete im = true ->
  SMTSetCommunity_announcement fuel m community val old s
  = OK ((with_communities old
           (if get_value im then set_community (communities old) community val
            else communities old), []), s1).
Proof.
  intros Hnd Hhas Him Hc. unfold SMTSetCommunity_announcement.
  erewrite bind_run.
  2:{ change Announcement_attributes
        with (map fst [("prefix", AVar (prefix old)); ("peer", AVar (peer old));
                       ("origin", AVar (origin old));
                       ("as_path", AVar (as_path old));
                       ("as_path_len", AVar (as_path_len old));
                       ("next_hop", AVar (next_hop old));
                       ("local_pref", AVar (local_pref old));
                       ("med", AVar (med old));
                       ("communities", AComms (communities old));
                       ("permitted", AVar (permitted old))]).
      eapply (for_each_one_update _ "communities").
      - by apply SMTSetCommunity_attr_concrete.
      - intros [k v] s0 Hkv Hne. simpl in Hne |- *.
        apply SMTSetCommunity_attr_other; [exact Hne|].
        repeat (apply elem_of_cons in Hkv as [E|Hkv];
                [inversion E; subst; try reflexivity; by destruct Hne|]).
        inversion Hkv.
      - apply (bool_decide_unpack _). vm_compute. exact I.
      - repeat constructor. }
  destruct old. reflexivity.
Qed.

(** X11 (SetCommunity.execute, concrete guard): when every old announcement
    carries the community (its communities holding each tag once, as a
    dictionary does) and the guard answers with a concrete value on each of
    them, [execute] on a SetCommunity that is not yet populated
    returns; beyond the guard's own queries it creates no value and
    registers no constraint; and each new announcement is the old one with
    the community's entry set to the action's value where the guard said
    true, the old one itself where it said false.  The other communities
    and all the other attributes are those of the old announcement. *)
Theorem set_community_concrete_guard fuel self s nd community val ims s1 :
  action_store s !! self = Some nd ->
  akind nd = KSetCommunity community val ->
  populated (_announcements nd) = false ->
  Forall (fun old => NoDup (map fst (communities old)) /\
                     dict_has (communities old) community = true)
    (announcements_list (_old_announcements nd)) ->
  mapM (fun old => is_match fuel (a_match nd) old)
    (announcements_list (_old_announcements nd)) s = OK (ims, s1) ->
  forallb is_concrete ims = true ->
  exists s',
    execute (S fuel) self s = OK (tt, s') /\
    ctx s' = ctx s1 /\ match_store s' = match_store s1 /\
    constraints (ctx s') = constraints (ctx s) /\
    action_store s'
    = <[self := mkAction (akind nd) (a_match nd) (_old_announcements nd)
                 (Some (create_new
                          (zip_with
                             (fun old im =>
                                with_communities old
                                  (if get_value im
                                   then set_community (communities old)
                                          community val
                                   else communities old))
                             (announcements_list (_old_announcements nd)) ims)
                          self))]> (action_store s).
Proof.
  intros Hnd Hkind Hpop Hall Hims Hc.
  assert (Hle : store_le s s1).
  { eapply mapM_le; [|exact Hims].
    intros ? ? ? ? Hx. exact (is_match_le _ _ _ _ _ _ Hx). }
  destruct Hle as [Hact _].
  assert (Hsilent : constraints (ctx s1) = constraints (ctx s)).
  { eapply mapM_concrete_silent; [|exact Hims|exact Hc].
    intros ? ? ? ? Hx. exact (is_match_concrete_silent _ _ _ _ _ _ Hx). }
  eexists. split.
  - simpl. rewrite (bind_run _ _ _ nd s) by (unfold get_action; by rewrite Hnd).
    rewrite Hkind. unfold SMTSetCommunity_execute. rewrite Hpop.
    unfold bind at 1.
    rewrite (for_announcements_concrete fuel (a_match nd) _
               (fun old im =>
                  with_communities old
                    (if get_value im
                     then set_community (communities old) community val
                     else communities old))
               _ _ _ _
               (fun old s0 im s2 Hold =>
                  SMTSetCommunity_announcement_concrete fuel (a_match nd)
                    community val old s0 im s2
                    (proj1 (proj1 (Forall_forall _ _) Hall old Hold))
                    (proj2 (proj1 (Forall_forall _ _) Hall old Hold)))
               Hims Hc).
    apply finish_execute_silent. by rewrite Hact.
  - simpl. rewrite Hact. auto.
Qed.

Lemma set_community_concrete_guard_witness :
  exists s',
    execute 2 0 set_c1_under_match_none = OK (tt, s') /\
    constraints (ctx s') = [] /\
    action_store s'
    = [mkAction (KSetCommunity (Comm "c1")
                   (concrete_var 113 BoolSort (PBool true))) 0 anns1
         (Some (create_new [ann1] 0))].
Proof.
  destruct (set_community_concrete_guard 1 0 set_c1_under_match_none
              unexecuted_set_c1_node (Comm "c1")
              (concrete_var 113 BoolSort (PBool true))
              [mkSMTVar (Some "match_none_") 0 BoolSort (Some (PBool false))]
              set_c1_under_match_none
              ltac:(vm_compute; reflexivity) ltac:(reflexivity)
              ltac:(reflexivity)
              ltac:(repeat constructor; intros H; inversion H)
              ltac:(vm_compute; reflexivity) ltac:(reflexivity))
    as (s' & Hrun & _ & _ & Hc & Ha).
  exists s'. split; [exact Hrun|]. split; [exact Hc | exact Ha].
Defined.

(** ** What queries and executions keep *)

Lemma ctx_le_refl s : ctx_le s s.
Proof.
  split; [lia|]. split; exists []; by rewrite app_nil_r.
Qed.

Lemma ctx_le_trans s1 s2 s3 : ctx_le s1 s2 -> ctx_le s2 s3 -> ctx_le s1 s3.
Proof.
  intros (L1 & [v1 V1] & [c1 C1]) (L2 & [v2 V2] & [c2 C2]).
  split; [lia|]. split.
  - exists (v1 ++ v2). by rewrite V2, V1, app_assoc.
  - exists (c1 ++ c2). by rewrite C2, C1, app_assoc.
Qed.

Lemma ctx_le_same s s' : ctx s' = ctx s -> ctx_le s s'.
Proof.
  intros E. unfold ctx_le. rewrite E.
  split; [lia|]. split; exists []; by rewrite app_nil_r.
Qed.

Lemma create_fresh_var_ctx vs p val s v s' :
  create_fresh_var vs p val s = OK (v, s') -> ctx_le s s'.
Proof.
  unfold create_fresh_var. intros H. inversion H; subst; simpl.
  split; [simpl; lia|]. split; simpl; [eauto|]. exists []. by rewrite app_nil_r.
Qed.

Lemma register_constraint_ctx e p s u s' :
  register_constraint e p s = OK (u, s') -> ctx_le s s'.
Proof.
  unfold register_constraint. intros H. inversion H; subst; simpl.
  split; [simpl; lia|]. split; simpl; [|eauto]. exists []. by rewrite app_nil_r.
Qed.

Lemma cache_set_ctx m a v s u s' :
  cache_set m a v s = OK (u, s') -> ctx_le s s'.
Proof.
  intros H. apply cache_set_OK in H as (nd & _ & Hc & _). by apply ctx_le_same.
Qed.

(** Whatever relation between states is kept by the three operations that
    [is_match] performs on the state is kept by [is_match]. *)
Section QueryKeeps.
Variable R : state -> state -> Prop.
Hypothesis R_refl : forall s, R s s.
Hypothesis R_trans : forall s1 s2 s3, R s1 s2 -> R s2 s3 -> R s1 s3.
Hypothesis R_fresh : forall vs p val s v s',
    create_fresh_var vs p val s = OK (v, s') -> R s s'.
Hypothesis R_register : forall e p s u s',
    register_constraint e p s = OK (u, s') -> R s s'.
Hypothesis R_cache_set : forall m a v s u s',
    cache_set m a v s = OK (u, s') -> R s s'.

Lemma mapM_keeps {A B} (f : A -> M B) (l : list A) :
  (forall x s y s', f x s = OK (y, s') -> R s s') ->
  forall s ys s', mapM f l s = OK (ys, s') -> R s s'.
Proof.
  intros Hf. induction l as [|x l IH]; simpl; intros s ys s' H.
  - run_inv H. apply R_refl.
  - run_inv H. eapply R_trans; [eapply Hf; eauto|]. eapply IH; eauto.
Qed.

Lemma _get_match_keeps (f : nat -> Announcement -> M SMTVar) idx a :
  (forall m s v s', f m a s = OK (v, s') -> R s s') ->
  forall l i s e s', _get_match f idx l a i s = OK (e, s') -> R s s'.
Proof.
  intros Hf. induction l as [|m l IH]; simpl; intros i s e s' H.
  - run_inv H. apply R_refl.
  - run_inv H. eapply R_trans; [eapply Hf; eauto|]. eapply IH; eauto.
Qed.

(** One step along a run that has been split into its calls. *)
Ltac keeps_step :=
  match goal with
  | |- R ?s ?s => apply R_refl
  | H : create_fresh_var _ _ _ ?s = OK (_, _) |- R ?s _ =>
      eapply R_trans; [exact (R_fresh _ _ _ _ _ _ H)|]; clear H
  | H : register_constraint _ _ ?s = OK (_, _) |- R ?s _ =>
      eapply R_trans; [exact (R_register _ _ _ _ _ H)|]; clear H
  | H : cache_set _ _ _ ?s = OK (_, _) |- R ?s _ =>
      eapply R_trans; [exact (R_cache_set _ _ _ _ _ _ H)|]; clear H
  end.

Lemma is_match_keeps fuel :
  forall m a s v s', is_match fuel m a s = OK (v, s') -> R s s'.
Proof.
  induction fuel as [|fuel IH]; intros m a s v s' H; [discriminate|].
  simpl in H. apply bind_OK in H as (self & s1 & Hself & H).
  apply get_match_OK in Hself as [-> Hself].
  assert (Hsub : forall x s y s',
            (fun sub => is_match fuel sub a) x s = OK (y, s') -> R s s').
  { intros ? ? ? ? Hx. exact (IH _ _ _ _ _ Hx). }
  destruct (mkind self) as [mv|mv|ms|ms|idx ms|attribute val|community val|sub];
    try (destruct sub as [sub|]; [exact (IH _ _ _ _ _ H) | discriminate]);
    try (run_inv H; apply R_refl);
    try (apply bind_OK in H as (attr & s1 & Hattr & H);
         apply lift_OK in Hattr as [Hattr ->]);
    apply bind_OK in H as (u & s2 & Hbody & Hget);
    apply cache_get_OK in Hget as [-> _];
    (destruct (cached self a) eqn:Hc; [run_inv Hbody; apply R_refl|]);
    run_inv Hbody.
  - eapply R_trans; [eapply mapM_keeps; [exact Hsub | eassumption]|].
    destruct (forallb is_concrete x); run_inv E1; repeat keeps_step.
  - eapply R_trans; [eapply mapM_keeps; [exact Hsub | eassumption]|].
    destruct (forallb is_concrete x); run_inv E1; repeat keeps_step.
  - do 2 keeps_step.
    eapply R_trans;
      [eapply _get_match_keeps; [|eassumption];
       intros ? ? ? ? Hx; exact (IH _ _ _ _ _ Hx)|].
    repeat keeps_step.
  - match goal with
    | H : match ?c with inl _ => _ | inr _ => _ end _ = OK _ |- _ =>
        destruct c; run_inv H
    end; repeat keeps_step.
  - match goal with
    | H : match ?c with inl _ => _ | inr _ => _ end _ = OK _ |- _ =>
        destruct c; run_inv H
    end; repeat keeps_step.
Qed.
End QueryKeeps.

Lemma is_match_ctx fuel m a s v s' :
  is_match fuel m a s = OK (v, s') -> ctx_le s s'.
Proof.
  exact (is_match_keeps ctx_le ctx_le_refl ctx_le_trans create_fresh_var_ctx
           register_constraint_ctx cache_set_ctx fuel m a s v s').
Qed.

(** X12 (is_match, what a query keeps): a query that returns never touches
    the action store, never forgets a match object or changes its class or
    parameters, never drops an answer cached before, and the solver context
    after the call holds every value and every constraint it held before,
    in the same order, possibly followed by new ones. *)
Theorem query_only_grows fuel m a s v s' :
  is_match fuel m a s = OK (v, s') ->
  ctx_le s s' /\ matches_le s s' /\ action_store s' = action_store s.
Proof.
  intros H. split.
  - exact (is_match_ctx fuel m a s v s' H).
  - destruct (is_match_le _ _ _ _ _ _ H) as [Ha Hm]. split; [exact Hm | exact Ha].
Qed.

Lemma query_only_grows_witness :
  exists v s',
    is_match 1 0 ann1 local_pref_100 = OK (v, s') /\
    ctx_le local_pref_100 s' /\ matches_le local_pref_100 s' /\
    action_store s' = action_store local_pref_100.
Proof.
  assert (Hrun : exists v s', is_match 1 0 ann1 local_pref_100 = OK (v, s'))
    by (eexists _, _; vm_compute; reflexivity).
  destruct Hrun as (v & s' & Hrun). exists v, s'.
  split; [exact Hrun|]. exact (query_only_grows 1 0 ann1 local_pref_100 v s' Hrun).
Defined.

(** ** The same for [execute] *)

Lemma get_action_OK a s nd s' :
  get_action a s = OK (nd, s') -> s' = s /\ action_store s !! a = Some nd.
Proof.
  unfold get_action. destruct (action_store s !! a) eqn:E; [|discriminate].
  intros H; inversion H; subst; auto.
Qed.

(** The footprint properties and the reads of candidates' results leave
    the state as it is. *)
Lemma mapM_pure {A B} (f : A -> M B) (l : list A) :
  (forall x s y s', f x s = OK (y, s') -> s' = s) ->
  forall s ys s', mapM f l s = OK (ys, s') -> s' = s.
Proof.
  intros Hf. induction l as [|x l IH]; simpl; intros s ys s' H.
  - run_inv H. reflexivity.
  - run_inv H. apply Hf in E. apply IH in E0. congruence.
Qed.

Lemma SMTAction_attributes_pure fuel :
  forall a s l s', SMTAction_attributes fuel a s = OK (l, s') -> s' = s.
Proof.
  induction fuel as [|fuel IH]; intros a s l s' H; [discriminate|].
  simpl in H. apply bind_OK in H as (nd & s1 & Hnd & H).
  apply get_action_OK in Hnd as [-> _].
  destruct (akind nd); run_inv H; try reflexivity.
  eapply mapM_pure; [|eassumption]. intros ? ? ? ? Hx. exact (IH _ _ _ _ Hx).
Qed.

Lemma SMTAction_communities_pure fuel :
  forall a s l s', SMTAction_communities fuel a s = OK (l, s') -> s' = s.
Proof.
  induction fuel as [|fuel IH]; intros a s l s' H; [discriminate|].
  simpl in H. apply bind_OK in H as (nd & s1 & Hnd & H).
  apply get_action_OK in Hnd as [-> _].
  destruct (akind nd); run_inv H; try reflexivity.
  eapply mapM_pure; [|eassumption]. intros ? ? ? ? Hx. exact (IH _ _ _ _ Hx).
Qed.

Lemma action_announcement_pure a i s ann s' :
  action_announcement a i s = OK (ann, s') -> s' = s.
Proof.
  unfold action_announcement. intros H.
  apply bind_OK in H as (nd & s1 & Hnd & H).
  apply get_action_OK in Hnd as [-> _].
  destruct (_announcements nd) as [c|]; [|discriminate].
  destruct (announcements_list c !! i); [|discriminate].
  by run_inv H.
Qed.

Lemma _get_actions_pure idx attr d ann_index :
  forall actions i s e s',
    _get_actions idx actions ann_index attr d i s = OK (e, s') -> s' = s.
Proof.
  induction actions as [|a actions IH]; simpl; intros i s e s' H.
  - by run_inv H.
  - run_inv H.
    repeat match goal with
    | H : action_announcement _ _ _ = OK _ |- _ =>
        apply action_announcement_pure in H
    | H : _get_actions _ _ _ _ _ _ _ = OK _ |- _ => apply IH in H
    end.
    congruence.
Qed.

Lemma _get_communities_pure idx c d ann_index :
  forall actions i s e s',
    _get_communities idx actions ann_index c d i s = OK (e, s') -> s' = s.
Proof.
  induction actions as [|a actions IH]; simpl; intros i s e s' H.
  - by run_inv H.
  - run_inv H.
    repeat match goal with
    | H : action_announcement _ _ _ = OK _ |- _ =>
        apply action_announcement_pure in H
    | H : _get_communities _ _ _ _ _ _ _ = OK _ |- _ => apply IH in H
    end.
    congruence.
Qed.

(** Whatever relation between states is kept by creating a value,
    registering a constraint, querying a match and publishing an
    announcement set is kept by [execute]. *)
Section ExecuteKeeps.
Variable R : state -> state -> Prop.
Hypothesis R_refl : forall s, R s s.
Hypothesis R_trans : forall s1 s2 s3, R s1 s2 -> R s2 s3 -> R s1 s3.
Hypothesis R_fresh : forall vs p val s v s',
    create_fresh_var vs p val s = OK (v, s') -> R s s'.
Hypothesis R_register : forall e p s u s',
    register_constraint e p s = OK (u, s') -> R s s'.
Hypothesis R_is_match : forall fuel m a s v s',
    is_match fuel m a s = OK (v, s') -> R s s'.
Hypothesis R_publish : forall a new s u s',
    set_announcements a new s = OK (u, s') -> R s s'.

Lemma for_each_keeps {K V} `{EqDecision K} (body : K -> M (V * list expr)) :
  (forall k s r s', body k s = OK (r, s') -> R s s') ->
  forall keys acc cs s r s',
    for_each body keys acc cs s = OK (r, s') -> R s s'.
Proof.
  intros Hb. induction keys as [|k keys IH]; simpl; intros acc cs s r s' H.
  - run_inv H. apply R_refl.
  - apply bind_OK in H as (x & s1 & Hx & H).
    eapply R_trans; [eapply Hb; exact Hx | eapply IH; exact H].
Qed.

Lemma for_announcements_keeps body :
  (forall a s r s', body a s = OK (r, s') -> R s s') ->
  forall olds s r s', for_announcements body olds s = OK (r, s') -> R s s'.
Proof.
  intros Hb. induction olds as [|a olds IH]; simpl; intros s r s' H.
  - run_inv H. apply R_refl.
  - apply bind_OK in H as (x & s1 & Hx & H).
    apply bind_OK in H as (xs & s2 & Hxs & H). run_inv H.
    eapply R_trans; [eapply Hb; exact Hx | eapply IH; exact Hxs].
Qed.

(** One step along a run that has been split into its calls. *)
Ltac exec_step :=
  match goal with
  | |- R ?s ?s => apply R_refl
  | H : create_fresh_var _ _ _ ?s = OK (_, _) |- R ?s _ =>
      eapply R_trans; [exact (R_fresh _ _ _ _ _ _ H)|]; clear H
  | H : register_constraint _ _ ?s = OK (_, _) |- R ?s _ =>
      eapply R_trans; [exact (R_register _ _ _ _ _ H)|]; clear H
  | H : is_match _ _ _ ?s = OK (_, _) |- R ?s _ =>
      eapply R_trans; [exact (R_is_match _ _ _ _ _ _ H)|]; clear H
  | H : set_announcements _ _ ?s = OK (_, _) |- R ?s _ =>
      eapply R_trans; [exact (R_publish _ _ _ _ _ H)|]; clear H
  end.

Lemma SMTSetAttribute_attr_keeps fuel m attribute val ann attr s r s' :
  SMTSetAttribute_attr fuel m attribute val ann attr s = OK (r, s') -> R s s'.
Proof.
  unfold SMTSetAttribute_attr. intros H.
  apply bind_OK in H as (x & s1 & Hx & H). apply lift_OK in Hx as [_ ->].
  destruct (bool_decide (attr = attribute)); [|run_inv H; apply R_refl].
  apply bind_OK in H as (im & s1 & Him & H).
  destruct (is_concrete im); [destruct (get_value im)|]; run_inv H;
    repeat exec_step.
Qed.

Lemma SMTSetAttribute_announcement_keeps fuel m attribute val ann s r s' :
  SMTSetAttribute_announcement fuel m attribute val ann s = OK (r, s') -> R s s'.
Proof.
  unfold SMTSetAttribute_announcement. intros H.
  apply bind_OK in H as (x & s1 & Hx & H). run_inv H.
  eapply for_each_keeps; [|exact Hx].
  intros ? ? ? ?. apply SMTSetAttribute_attr_keeps.
Qed.

Lemma SMTSetCommunity_community_keeps fuel m c val ann attr attr_v item s r s' :
  SMTSetCommunity_community fuel m c val ann attr attr_v item s = OK (r, s') ->
  R s s'.
Proof.
  unfold SMTSetCommunity_community. destruct item as [k old]. intros H.
  destruct (negb (bool_decide (k = c))); [run_inv H; apply R_refl|].
  apply bind_OK in H as (im & s1 & Him & H).
  destruct (is_concrete im); run_inv H; repeat exec_step.
Qed.

Lemma SMTSetCommunity_attr_keeps fuel m c val ann attr s r s' :
  SMTSetCommunity_attr fuel m c val ann attr s = OK (r, s') -> R s s'.
Proof.
  unfold SMTSetCommunity_attr. intros H.
  apply bind_OK in H as (x & s1 & Hx & H). apply lift_OK in Hx as [_ ->].
  destruct (negb (bool_decide (attr = "communities")));
    [run_inv H; apply R_refl|].
  apply bind_OK in H as (y & s1 & Hy & H). run_inv H.
  eapply for_each_keeps; [|exact Hy].
  intros k s0 r0 s2 Hk. cbv beta in Hk.
  destruct (dict_get (communities ann) k); [|discriminate].
  eapply SMTSetCommunity_community_keeps; exact Hk.
Qed.

Lemma SMTSetCommunity_announcement_keeps fuel m c val ann s r s' :
  SMTSetCommunity_announcement fuel m c val ann s = OK (r, s') -> R s s'.
Proof.
  unfold SMTSetCommunity_announcement. intros H.
  apply bind_OK in H as (x & s1 & Hx & H). run_inv H.
  eapply for_each_keeps; [|exact Hx].
  intros ? ? ? ?. apply SMTSetCommunity_attr_keeps.
Qed.

Lemma finish_execute_keeps self old r s u s' :
  finish_execute self old r s = OK (u, s') -> R s s'.
Proof.
  unfold finish_execute. intros H.
  apply bind_OK in H as (x & s1 & Hx & H).
  destruct (nonempty (snd r)); run_inv Hx; repeat exec_step.
Qed.

Lemma SMTSetOne_fresh_attr_keeps idx actions i old attr s v s' :
  SMTSetOne_fresh_attr idx actions i old attr s = OK (v, s') -> R s s'.
Proof.
  unfold SMTSetOne_fresh_attr. intros H. run_inv H.
  match goal with
  | H : _get_actions _ _ _ _ _ _ _ = OK _ |- _ =>
      apply _get_actions_pure in H; subst
  end.
  repeat exec_step.
Qed.

Lemma SMTSetOne_fresh_community_keeps idx actions i attr c s v s' :
  SMTSetOne_fresh_community idx actions i attr c s = OK (v, s') -> R s s'.
Proof.
  unfold SMTSetOne_fresh_community. intros H. run_inv H.
  match goal with
  | H : _get_communities _ _ _ _ _ _ _ = OK _ |- _ =>
      apply _get_communities_pure in H; subst
  end.
  repeat exec_step.
Qed.

Lemma SMTSetOne_communities_keeps idx actions i attr :
  forall comms acc s r s',
    SMTSetOne_communities idx actions i attr comms acc s = OK (r, s') -> R s s'.
Proof.
  induction comms as [|c comms IH]; simpl; intros acc s r s' H.
  - run_inv H. apply R_refl.
  - apply bind_OK in H as (v & s1 & Hv & H).
    eapply R_trans; [eapply SMTSetOne_fresh_community_keeps; exact Hv|].
    eapply IH; exact H.
Qed.

Lemma SMTSetOne_attr_keeps fuel self idx actions attr_only attrs i old attr
    s r s' :
  SMTSetOne_attr fuel self idx actions attr_only attrs i old attr s = OK (r, s') ->
  R s s'.
Proof.
  unfold SMTSetOne_attr. intros H.
  apply bind_OK in H as (x & s1 & Hx & H). apply lift_OK in Hx as [_ ->].
  destruct (attr_only && negb (bool_decide (Some attr ∈ attrs)));
    [run_inv H; apply R_refl|].
  destruct (bool_decide (attr = "communities")).
  - apply bind_OK in H as (c & s1 & Hc & H).
    destruct x; [discriminate|]. run_inv Hc.
    apply bind_OK in H as (comms & s2 & Hcomms & H).
    apply SMTAction_communities_pure in Hcomms as ->.
    apply bind_OK in H as (y & s3 & Hy & H). run_inv H.
    eapply SMTSetOne_communities_keeps; exact Hy.
  - apply bind_OK in H as (v & s1 & Hv & H). run_inv H.
    eapply SMTSetOne_fresh_attr_keeps; exact Hv.
Qed.

Lemma SMTSetOne_announcements_keeps fuel self idx actions attr_only attrs :
  forall olds i s r s',
    SMTSetOne_announcements fuel self idx actions attr_only attrs i olds s
    = OK (r, s') -> R s s'.
Proof.
  induction olds as [|old olds IH]; intros i s r s' H;
    cbn [SMTSetOne_announcements] in H.
  - run_inv H. apply R_refl.
  - apply bind_OK in H as (x & s1 & Hx & H).
    apply bind_OK in H as (a & s2 & Ha & H). apply lift_OK in Ha as [_ ->].
    apply bind_OK in H as (rest & s3 & Hrest & H). run_inv H.
    eapply R_trans; [|eapply IH; exact Hrest].
    eapply for_each_keeps; [|exact Hx].
    intros ? ? ? ?. apply SMTSetOne_attr_keeps.
Qed.

Lemma execute_keeps fuel :
  forall self s u s', execute fuel self s = OK (u, s') -> R s s'.
Proof.
  induction fuel as [|fuel IH]; intros self s u s' H; [discriminate|].
  cbn [execute] in H. apply bind_OK in H as (nd & s1 & Hnd & H).
  apply get_action_OK in Hnd as [-> _].
  destruct (akind nd) as [attribute val|community val|idx actions].
  - unfold SMTSetAttribute_execute in H.
    destruct (populated (_announcements nd)); [run_inv H; apply R_refl|].
    apply bind_OK in H as (r & s1 & Hr & H).
    eapply R_trans; [|eapply finish_execute_keeps; exact H].
    eapply for_announcements_keeps; [|exact Hr].
    intros ? ? ? ?. apply SMTSetAttribute_announcement_keeps.
  - unfold SMTSetCommunity_execute in H.
    destruct (populated (_announcements nd)); [run_inv H; apply R_refl|].
    apply bind_OK in H as (r & s1 & Hr & H).
    eapply R_trans; [|eapply finish_execute_keeps; exact H].
    eapply for_announcements_keeps; [|exact Hr].
    intros ? ? ? ?. apply SMTSetCommunity_announcement_keeps.
  - apply bind_OK in H as (us & s1 & Hus & H).
    apply bind_OK in H as (attrs & s2 & Hattrs & H).
    apply SMTAction_attributes_pure in Hattrs as ->.
    apply bind_OK in H as (news & s3 & Hnews & H).
    eapply R_trans;
      [eapply (mapM_keeps R R_refl R_trans); [|exact Hus];
       intros ? ? ? ? Hx; exact (IH _ _ _ _ Hx)|].
    eapply R_trans; [eapply SMTSetOne_announcements_keeps; exact Hnews|].
    eapply R_publish; exact H.
Qed.
End ExecuteKeeps.

Lemma action_le_refl s : action_le s s.
Proof. split; [reflexivity|]. intros a nd H. exists nd. auto. Qed.

Lemma action_le_trans s1 s2 s3 :
  action_le s1 s2 -> action_le s2 s3 -> action_le s1 s3.
Proof.
  intros [L1 H1] [L2 H2]. split; [congruence|].
  intros a nd Ha. destruct (H1 a nd Ha) as (nd2 & Ha2 & K2 & M2 & O2).
  destruct (H2 a nd2 Ha2) as (nd3 & Ha3 & K3 & M3 & O3).
  exists nd3. repeat split; congruence.
Qed.

Lemma action_le_same s s' : action_store s' = action_store s -> action_le s s'.
Proof.
  intros E. unfold action_le. rewrite E. split; [reflexivity|].
  intros a nd H. exists nd. auto.
Qed.

(** Publishing the new announcement set of an action changes that field of
    that action and nothing else. *)
Lemma set_announcements_keeps a new s u s' :
  set_announcements a new s = OK (u, s') ->
  ctx_le s s' /\ matches_le s s' /\ action_le s s'.
Proof.
  unfold set_announcements.
  destruct (action_store s !! a) as [nd|] eqn:E; [|discriminate].
  intros H; inversion H; subst; clear H.
  split; [by apply ctx_le_same|]. split; [by apply matches_le_same|].
  split; simpl; [by rewrite length_insert|].
  intros b ndb Hb. destruct (decide (b = a)) as [->|Hne].
  - rewrite list_lookup_insert_eq by (eapply lookup_lt_Some; eauto).
    eexists. split; [reflexivity|]. simpl.
    assert (ndb = nd) by congruence. subst. auto.
  - rewrite list_lookup_insert_ne by congruence. exists ndb. auto.
Qed.

Lemma execute_grows fuel self s u s' :
  execute fuel self s = OK (u, s') ->
  ctx_le s s' /\ matches_le s s' /\ action_le s s'.
Proof.
  apply (execute_keeps
           (fun s s' => ctx_le s s' /\ matches_le s s' /\ action_le s s')).
  - intros s0. split; [apply ctx_le_refl|].
    split; [apply matches_le_refl | apply action_le_refl].
  - intros s1 s2 s3 (C1 & M1 & A1) (C2 & M2 & A2).
    split; [eapply ctx_le_trans; eauto|].
    split; [eapply matches_le_trans; eauto | eapply action_le_trans; eauto].
  - intros vs p val s0 v s1 H. split; [eapply create_fresh_var_ctx; eauto|].
    apply create_fresh_var_OK in H as (_ & Hm & Ha & _).
    split; [by apply matches_le_same | by apply action_le_same].
  - intros e p s0 u0 s1 H. split; [eapply register_constraint_ctx; eauto|].
    apply register_constraint_OK in H as (Hm & Ha & _).
    split; [by apply matches_le_same | by apply action_le_same].
  - intros f m a s0 v s1 H. split; [eapply is_match_ctx; eauto|].
    destruct (is_match_le _ _ _ _ _ _ H) as [Ha Hm].
    split; [exact Hm | by apply action_le_same].
  - intros a new s0 u0 s1 H. eapply set_announcements_keeps; eauto.
Qed.

(** X13 (execute, what an execution keeps): an [execute] that returns, on
    any action class, keeps the number of actions and the class, the guard
    and the old announcement set of each of them (only their new
    announcement sets change); it keeps every match object with its class,
    parameters and cached answers; and the solver context afterwards holds
    every value and every constraint it held before, in the same order,
    possibly followed by new ones. *)
Theorem execute_only_grows fuel self s u s' :
  execute fuel self s = OK (u, s') ->
  ctx_le s s' /\ matches_le s s' /\ action_le s s'.
Proof. exact (execute_grows fuel self s u s'). Qed.

Lemma execute_only_grows_witness :
  exists s',
    execute 2 0 unexecuted_set_med = OK (tt, s') /\
    ctx_le unexecuted_set_med s' /\ matches_le unexecuted_set_med s' /\
    action_le unexecuted_set_med s'.
Proof.
  assert (Hrun : exists s', execute 2 0 unexecuted_set_med = OK (tt, s'))
    by (eexists; vm_compute; reflexivity).
  destruct Hrun as [s' Hrun]. exists s'. split; [exact Hrun|].
  exact (execute_only_grows 2 0 unexecuted_set_med tt s' Hrun).
Defined.

(** ** Constructors that execute *)

(** The first [execute] of a SetAttribute or SetCommunity publishes one new
    announcement per old one. *)
Lemma execute_fresh_length fuel self s u s' nd :
  action_store s !! self = Some nd ->
  _announcements nd = None ->
  (forall idx acts, akind nd <> KSetOne idx acts) ->
  execute fuel self s = OK (u, s') ->
  exists nd' news,
    action_store s' !! self = Some nd' /\
    _announcements nd' = Some (create_new news self) /\
    length news = length (announcements_list (_old_announcements nd)).
Proof.
  intros Hnd Hnone Hkind H. destruct fuel as [|fuel]; [discriminate|].
  cbn [execute] in H. rewrite (bind_run _ _ _ nd s) in H
    by (unfold get_action; by rewrite Hnd).
  destruct (akind nd) as [attribute value|community value|idx acts].
  - unfold SMTSetAttribute_execute in H. rewrite Hnone in H. simpl in H.
    apply bind_OK in H as ([news cs] & s1 & Hloop & H).
    apply finish_execute_OK in H as (nd' & Hnd' & Ha).
    apply for_announcements_each in Hloop.
    exists nd', news. split; [exact Hnd'|]. split; [exact Ha|].
    symmetry. eapply Forall2_length; eauto.
  - unfold SMTSetCommunity_execute in H. rewrite Hnone in H. simpl in H.
    apply bind_OK in H as ([news cs] & s1 & Hloop & H).
    apply finish_execute_OK in H as (nd' & Hnd' & Ha).
    apply for_announcements_each in Hloop.
    exists nd', news. split; [exact Hnd'|]. split; [exact Ha|].
    symmetry. eapply Forall2_length; eauto.
  - exfalso. by eapply Hkind.
Qed.

(** What a constructor that allocates an unexecuted SetAttribute or
    SetCommunity over a non-empty announcement set and executes it leaves
    behind. *)
Lemma alloc_then_execute fuel nd s0 a s1 u s' :
  _announcements nd = None ->
  (forall idx acts, akind nd <> KSetOne idx acts) ->
  nonempty (announcements_list (_old_announcements nd)) = true ->
  alloc_action nd s0 = OK (a, s1) ->
  execute fuel a s1 = OK (u, s') ->
  exists nd' news,
    action_store s' !! a = Some nd' /\
    akind nd' = akind nd /\ a_match nd' = a_match nd /\
    _old_announcements nd' = _old_announcements nd /\
    _announcements nd' = Some (create_new news a) /\
    length news = length (announcements_list (_old_announcements nd)) /\
    news <> [] /\
    forall fuel', execute (S fuel') a s' = OK (tt, s').
Proof.
  intros Hnone Hkind Hne Ha He.
  apply alloc_action_OK in Ha as (_ & Hnd).
  destruct (execute_fresh_length _ _ _ _ _ _ Hnd Hnone Hkind He)
    as (nd' & news & Hnd' & Hnew & Hlen).
  destruct (execute_grows _ _ _ _ _ He) as (_ & _ & _ & Hact).
  destruct (Hact a nd Hnd) as (nd2 & Hnd2 & K & Mm & O).
  assert (nd2 = nd') by congruence. subst nd2.
  assert (Hnews : news <> []).
  { intros ->. simpl in Hlen.
    destruct (announcements_list (_old_announcements nd)); discriminate. }
  exists nd', news. repeat (split; [assumption|]).
  intros fuel'. eapply execute_populated_noop; [exact Hnd' | |].
  - rewrite Hnew. simpl. by destruct news.
  - intros idx acts E. rewrite K in E. by eapply Hkind.
Qed.

(** X14 (attribute_set_factory, SetAttribute and SetCommunity
    constructors): an action built by the factory, which is a SetAttribute
    or a SetCommunity, has been executed when the factory returns: it has
    the given guard and announcement set, its new announcement set is a
    version produced by the action itself with as many announcements as the
    old one, at least one; and every later [execute] on it returns at once
    and changes nothing. *)
Theorem factory_action_executed_once fuel key m value anns s a s' :
  attribute_set_factory fuel key m value anns s = OK (a, s') ->
  exists nd news,
    action_store s' !! a = Some nd /\
    a_match nd = m /\ _old_announcements nd = anns /\
    _announcements nd = Some (create_new news a) /\
    length news = length (announcements_list anns) /\
    news <> [] /\
    forall fuel', execute (S fuel') a s' = OK (tt, s').
Proof.
  unfold attribute_set_factory. intros H.
  destruct key as [name|community].
  - destruct (bool_decide _); [|discriminate].
    unfold SMTSetAttribute in H. run_inv H.
    match goal with
    | Ha : alloc_action ?nd _ = OK (a, _), He : execute _ a _ = OK _,
      Hn : nonempty _ = true |- _ =>
        destruct (alloc_then_execute _ nd _ _ _ _ _ eq_refl
                    ltac:(discriminate) Hn Ha He)
          as (nd' & news & ? & _ & ? & ? & ? & ? & ? & ?)
    end.
    exists nd', news. auto 10.
  - unfold SMTSetCommunity in H. run_inv H.
    match goal with
    | Ha : alloc_action ?nd _ = OK (a, _), He : execute _ a _ = OK _,
      Hn : nonempty _ = true |- _ =>
        destruct (alloc_then_execute _ nd _ _ _ _ _ eq_refl
                    ltac:(discriminate) Hn Ha He)
          as (nd' & news & ? & _ & ? & ? & ? & ? & ? & ?)
    end.
    exists nd', news. auto 10.
Qed.

Lemma factory_action_executed_once_witness :
  exists a s' nd news,
    attribute_set_factory 2 (inl "med") 0
      (Some (concrete_var 112 IntSort (PInt 7))) anns1 one_match_all
    = OK (a, s') /\
    action_store s' !! a = Some nd /\
    _announcements nd = Some (create_new news a) /\
    length news = 1%nat /\
    execute 1 a s' = OK (tt, s').
Proof.
  assert (Hrun : exists a s',
             attribute_set_factory 2 (inl "med") 0
               (Some (concrete_var 112 IntSort (PInt 7))) anns1 one_match_all
             = OK (a, s'))
    by (eexists _, _; vm_compute; reflexivity).
  destruct Hrun as (a & s' & Hrun).
  destruct (factory_action_executed_once _ _ _ _ _ _ _ _ Hrun)
    as (nd & news & Hnd & _ & _ & Hnew & Hlen & _ & Hex).
  exists a, s', nd, news. split; [exact Hrun|]. split; [exact Hnd|].
  split; [exact Hnew|]. split; [exact Hlen | exact (Hex 0%nat)].
Defined.

(** ** SetOne: the candidates it accepts *)

(** The two assertions on one candidate that exists. *)
Lemma check_candidate_cases m anns a s nd :
  action_store s !! a = Some nd ->
  (a_match nd = m /\ _old_announcements nd = anns /\
   check_candidate m anns a s = OK (tt, s)) \/
  ((a_match nd <> m \/ _old_announcements nd <> anns) /\
   check_candidate m anns a s = Raise AssertionError).
Proof.
  intros Hnd. unfold check_candidate, bind, get_action, assert. rewrite Hnd.
  destruct (decide (a_match nd = m)) as [Hm|Hm].
  - rewrite (bool_decide_eq_true_2 _ Hm).
    destruct (decide (_old_announcements nd = anns)) as [Ha|Ha].
    + rewrite (bool_decide_eq_true_2 _ Ha). left. auto.
    + rewrite (bool_decide_eq_false_2 _ Ha). right. auto.
  - rewrite (bool_decide_eq_false_2 _ Hm). right. auto.
Qed.

Lemma check_candidates_reject m anns l s :
  Forall (fun a => is_Some (action_store s !! a)) l ->
  ~ Forall (valid_candidate s m anns) l ->
  mapM (check_candidate m anns) l s = Raise AssertionError.
Proof.
  induction 1 as [|a l [nd Hnd] _ IH]; intros Hbad.
  - exfalso. apply Hbad. constructor.
  - simpl. unfold bind at 1.
    destruct (check_candidate_cases m anns a s nd Hnd)
      as [(Hm & Ha & ->)|[Hne ->]]; [|reflexivity].
    unfold bind. rewrite IH; [reflexivity|].
    intros Hl. apply Hbad. constructor; [|exact Hl]. exists nd. auto.
Qed.

(** X15 (SetOne constructor, candidates): given a non-empty announcement
    set and explicit candidates that all exist, the constructor returns
    exactly when every candidate has the guard and the announcement set the
    SetOne is built with; if one candidate has another guard or another
    announcement set it raises [AssertionError]. *)
Theorem set_one_candidates_checked fuel m anns a0 acts s :
  announcements_list anns <> [] ->
  Forall (fun a => is_Some (action_store s !! a)) (a0 :: acts) ->
  (Forall (valid_candidate s m anns) (a0 :: acts) ->
   exists a s', SMTSetOne fuel m anns (Some (a0 :: acts)) s = OK (a, s')) /\
  (~ Forall (valid_candidate s m anns) (a0 :: acts) ->
   SMTSetOne fuel m anns (Some (a0 :: acts)) s = Raise AssertionError).
Proof.
  intros Hanns Hex. split.
  - intros Hvalid.
    destruct (SMTSetOne_explicit fuel m anns a0 acts s Hanns Hvalid)
      as (a & s' & _ & _ & H & _).
    eauto.
  - intros Hbad.
    destruct (announcements_list anns) as [|x l] eqn:El; [contradiction|].
    set (s1 := mkState (mkCtx (S (next_uid (ctx s)))
                          (vars (ctx s) ++
                             [mkSMTVar (Some "SetOneIndex_") (next_uid (ctx s))
                                IntSort None])
                          (constraints (ctx s)))
                 (match_store s) (action_store s)).
    assert (Hrej : mapM (check_candidate m anns) (a0 :: acts) s1
                   = Raise AssertionError)
      by (apply check_candidates_reject; assumption).
    unfold SMTSetOne. rewrite El. simpl nonempty. unfold assert.
    unfold bind at 1. unfold ret at 1.
    unfold bind at 1. unfold ret at 1.
    unfold bind at 1. unfold create_fresh_var at 1. fold s1.
    unfold bind at 1. rewrite Hrej. reflexivity.
Qed.

Lemma set_one_candidates_checked_witness :
  (exists a s', SMTSetOne 3 0 anns1 (Some [0%nat; 1%nat]) two_candidates
                = OK (a, s')) /\
  SMTSetOne 3 1 anns1 (Some [0%nat; 1%nat]) two_candidates
  = Raise AssertionError.
Proof.
  assert (Hex : Forall (fun a => is_Some (action_store two_candidates !! a))
                  [0%nat; 1%nat])
    by (repeat constructor; eexists; vm_compute; reflexivity).
  split.
  - apply (proj1 (set_one_candidates_checked 3 0 anns1 0%nat [1%nat]
                    two_candidates ltac:(discriminate) Hex)).
    repeat constructor; eexists; (split; [vm_compute; reflexivity|]);
      split; reflexivity.
  - apply (proj2 (set_one_candidates_checked 3 1 anns1 0%nat [1%nat]
                    two_candidates ltac:(discriminate) Hex)).
    intros Hv. apply Forall_cons in Hv as [(nd & Hnd & Hm & _) _].
    vm_compute in Hnd. inversion Hnd; subst. discriminate Hm.
Defined.

(** ** SetOne: its footprint *)

Lemma elem_of_set_union {A} `{EqDecision A} (x y : list A) a :
  a ∈ set_union x y <-> a ∈ x \/ a ∈ y.
Proof.
  unfold set_union. rewrite elem_of_app, list_elem_of_difference.
  destruct (decide (a ∈ x)); tauto.
Qed.

Lemma NoDup_set_union {A} `{EqDecision A} (x y : list A) :
  NoDup x -> NoDup y -> NoDup (set_union x y).
Proof.
  intros Hx Hy. unfold set_union. apply NoDup_app. split; [exact Hx|].
  split; [|by apply NoDup_list_difference].
  intros a Ha Hd. apply list_elem_of_difference in Hd as [_ Hn]. by apply Hn.
Qed.

Lemma elem_of_foldl_union {A} `{EqDecision A} (r : list (list A)) :
  forall x a, a ∈ foldl set_union x r <-> a ∈ x \/ exists l, l ∈ r /\ a ∈ l.
Proof.
  induction r as [|y r IH]; intros x a; simpl.
  - split; [auto|]. intros [H|(l & Hl & _)]; [exact H | inversion Hl].
  - rewrite IH, elem_of_set_union. split.
    + intros [[H|H]|(l & Hl & H)]; [auto| |].
      * right. exists y. split; [constructor | exact H].
      * right. exists l. split; [by constructor | exact H].
    + intros [H|(l & Hl & H)]; [auto|].
      apply elem_of_cons in Hl as [->|Hl]; [auto|]. right. eauto.
Qed.

Lemma NoDup_foldl_union {A} `{EqDecision A} (r : list (list A)) :
  forall x, NoDup x -> Forall NoDup r -> NoDup (foldl set_union x r).
Proof.
  induction r as [|y r IH]; intros x Hx Hr; simpl; [exact Hx|].
  apply Forall_cons in Hr as [Hy Hr]. apply IH; [|exact Hr].
  by apply NoDup_set_union.
Qed.

(** The results of calls that leave the state alone, in a row. *)
Lemma mapM_pure_results {A B} (f : A -> M B) (l : list A) :
  (forall x s y s', f x s = OK (y, s') -> s' = s) ->
  forall s ys s', mapM f l s = OK (ys, s') ->
    s' = s /\ Forall2 (fun x y => f x s = OK (y, s)) l ys.
Proof.
  intros Hf. induction l as [|x l IH]; simpl; intros s ys s' H.
  - run_inv H. split; [reflexivity | constructor].
  - apply bind_OK in H as (y & s1 & Hy & H).
    apply bind_OK in H as (ys' & s2 & Hys & H). run_inv H.
    pose proof (Hf _ _ _ _ Hy) as ->.
    destruct (IH _ _ _ Hys) as [-> Hall].
    split; [reflexivity|]. by constructor.
Qed.

(** The footprint of any action is a set of attribute names: no
    duplicates, and never the placeholder [None]. *)
Lemma SMTAction_attributes_wf fuel :
  forall a s l s', SMTAction_attributes fuel a s = OK (l, s') ->
                   NoDup l /\ None ∉ l.
Proof.
  induction fuel as [|fuel IH]; intros a s l s' H; [discriminate|].
  cbn [SMTAction_attributes] in H.
  apply bind_OK in H as (nd & s1 & Hnd & H).
  apply get_action_OK in Hnd as [-> _].
  destruct (akind nd) as [attribute val|community val|idx actions].
  - run_inv H. split; [apply NoDup_singleton|].
    intros Hin. apply list_elem_of_singleton in Hin. discriminate.
  - run_inv H. split; [apply NoDup_singleton|].
    intros Hin. apply list_elem_of_singleton in Hin. discriminate.
  - apply bind_OK in H as (ls & s1 & Hls & H). apply lift_OK in H as [H ->].
    destruct (mapM_pure_results _ _ (SMTAction_attributes_pure fuel) _ _ _ Hls)
      as [-> Hall].
    assert (Hwf : Forall (fun l0 => NoDup l0 /\ None ∉ l0) ls).
    { clear -Hall IH. induction Hall as [|x y l0 ys Hx _ IH']; constructor.
      - eapply IH; exact Hx.
      - exact IH'. }
    destruct ls as [|x r]; [discriminate|]. inversion H; subst; clear H.
    apply Forall_cons in Hwf as [[Hx Hnx] Hr]. split.
    + apply NoDup_foldl_union; [exact Hx|].
      eapply Forall_impl; [exact Hr|]. by intros ? [? _].
    + intros Hin. apply elem_of_foldl_union in Hin as [Hin|(l0 & Hl0 & Hin)];
        [by apply Hnx|].
      rewrite Forall_forall in Hr. destruct (Hr l0 Hl0) as [_ Hn]. by apply Hn.
Qed.

Lemma SMTAction_communities_wf fuel :
  forall a s l s', SMTAction_communities fuel a s = OK (l, s') -> NoDup l.
Proof.
  induction fuel as [|fuel IH]; intros a s l s' H; [discriminate|].
  cbn [SMTAction_communities] in H.
  apply bind_OK in H as (nd & s1 & Hnd & H).
  apply get_action_OK in Hnd as [-> _].
  destruct (akind nd) as [attribute val|community val|idx actions].
  - run_inv H. constructor.
  - run_inv H. apply NoDup_singleton.
  - apply bind_OK in H as (ls & s1 & Hls & H). apply lift_OK in H as [H ->].
    destruct (mapM_pure_results _ _ (SMTAction_communities_pure fuel) _ _ _ Hls)
      as [-> Hall].
    assert (Hwf : Forall NoDup ls).
    { clear -Hall IH. induction Hall as [|x y l0 ys Hx _ IH']; constructor.
      - eapply IH; exact Hx.
      - exact IH'. }
    destruct ls as [|x r]; [discriminate|]. inversion H; subst; clear H.
    apply Forall_cons in Hwf as [Hx Hr]. by apply NoDup_foldl_union.
Qed.

(** Membership in the union of the candidates' results. *)
Lemma union_of_results {A B} `{EqDecision B} (f : A -> M (list B))
    (actions : list A) (ls : list (list B)) s x r :
  Forall2 (fun a l => f a s = OK (l, s)) actions ls ->
  ls = x :: r ->
  forall b, b ∈ foldl set_union x r
            <-> exists a l, a ∈ actions /\ f a s = OK (l, s) /\ b ∈ l.
Proof.
  intros Hall -> b. rewrite elem_of_foldl_union. split.
  - intros Hb.
    assert (Hl : exists l, l ∈ x :: r /\ b ∈ l).
    { destruct Hb as [Hb|(l & Hl & Hb)].
      - exists x. split; [constructor | exact Hb].
      - exists l. split; [by constructor | exact Hb]. }
    destruct Hl as (l & Hl & Hbl).
    apply list_elem_of_lookup_1 in Hl as [i Hi].
    destruct (Forall2_lookup_r _ _ _ _ _ Hall Hi) as (a & Ha & Hf).
    exists a, l. split; [eapply list_elem_of_lookup_2; eauto|]. auto.
  - intros (a & l & Ha & Hf & Hb).
    apply list_elem_of_lookup_1 in Ha as [i Hi].
    destruct (Forall2_lookup_l _ _ _ _ _ Hall Hi) as (l' & Hl' & Hf').
    assert (l' = l) by congruence. subst l'.
    apply list_elem_of_lookup_2 in Hl'.
    apply elem_of_cons in Hl' as [->|Hl']; [auto|]. right. eauto.
Qed.

(** X16 (SetOne.attributes, SetOne.communities): reading the footprint of a
    SetOne changes nothing; the attribute footprint is a duplicate-free set
    that holds exactly the names in the footprint of some candidate, and
    never the placeholder [None] (so [execute] always finds [attr_only]
    true); the community footprint is a duplicate-free set that holds
    exactly the communities in the footprint of some candidate. *)
Theorem set_one_footprint fuel self s nd idx actions :
  action_store s !! self = Some nd ->
  akind nd = KSetOne idx actions ->
  (forall attrs s',
     SMTAction_attributes (S fuel) self s = OK (attrs, s') ->
     s' = s /\ NoDup attrs /\ (None ∉ attrs) /\
     forall x, x ∈ attrs
               <-> exists a l, a ∈ actions /\
                               SMTAction_attributes fuel a s = OK (l, s) /\
                               x ∈ l) /\
  (forall comms s',
     SMTAction_communities (S fuel) self s = OK (comms, s') ->
     s' = s /\ NoDup comms /\
     forall c, c ∈ comms
               <-> exists a l, a ∈ actions /\
                               SMTAction_communities fuel a s = OK (l, s) /\
                               c ∈ l).
Proof.
  intros Hnd Hkind. split.
  - intros attrs s' H.
    destruct (SMTAction_attributes_wf _ _ _ _ _ H) as [Hnd' Hnone].
    pose proof (SMTAction_attributes_pure _ _ _ _ _ H) as ->.
    split; [reflexivity|]. split; [exact Hnd'|]. split; [exact Hnone|].
    cbn [SMTAction_attributes] in H.
    rewrite (bind_run _ _ _ nd s) in H by (unfold get_action; by rewrite Hnd).
    rewrite Hkind in H.
    apply bind_OK in H as (ls & s1 & Hls & H). apply lift_OK in H as [H _].
    destruct (mapM_pure_results _ _ (SMTAction_attributes_pure fuel) _ _ _ Hls)
      as [_ Hall].
    destruct ls as [|x r] eqn:El; [discriminate|]. inversion H; subst attrs.
    exact (union_of_results _ _ _ _ _ _ Hall eq_refl).
  - intros comms s' H.
    pose proof (SMTAction_communities_wf _ _ _ _ _ H) as Hnd'.
    pose proof (SMTAction_communities_pure _ _ _ _ _ H) as ->.
    split; [reflexivity|]. split; [exact Hnd'|].
    cbn [SMTAction_communities] in H.
    rewrite (bind_run _ _ _ nd s) in H by (unfold get_action; by rewrite Hnd).
    rewrite Hkind in H.
    apply bind_OK in H as (ls & s1 & Hls & H). apply lift_OK in H as [H _].
    destruct (mapM_pure_results _ _ (SMTAction_communities_pure fuel) _ _ _ Hls)
      as [_ Hall].
    destruct ls as [|x r] eqn:El; [discriminate|]. inversion H; subst comms.
    exact (union_of_results _ _ _ _ _ _ Hall eq_refl).
Qed.

Lemma set_one_footprint_witness :
  SMTAction_attributes 2 2 setone_two_candidates
  = OK ([Some "local_pref"; Some "med"], setone_two_candidates) /\
  (Some "med" ∈ [Some "local_pref"; Some "med"]
   <-> exists a l, a ∈ [0%nat; 1%nat] /\
                   SMTAction_attributes 1 a setone_two_candidates
                   = OK (l, setone_two_candidates) /\
                   Some "med" ∈ l) /\
  SMTAction_communities 2 2 setone_two_candidates
  = OK ([], setone_two_candidates).
Proof.
  assert (Hrun : SMTAction_attributes 2 2 setone_two_candidates
                 = OK ([Some "local_pref"; Some "med"], setone_two_candidates))
    by (vm_compute; reflexivity).
  split; [exact Hrun|]. split; [|vm_compute; reflexivity].
  destruct (proj1 (set_one_footprint 1 2 setone_two_candidates
                     (mkAction (KSetOne setone_index [0%nat; 1%nat]) 0 anns1
                        None)
                     setone_index [0%nat; 1%nat]
                     ltac:(vm_compute; reflexivity) ltac:(reflexivity))
             _ _ Hrun) as (_ & _ & _ & Hmem).
  exact (Hmem (Some "med")).
Defined.

(** ** SetOne: what it leaves alone *)

Lemma mapM_pure_run {A B} (f : A -> M B) s :
  forall (l : list A) (ys : list B),
    Forall2 (fun x y => f x s = OK (y, s)) l ys -> mapM f l s = OK (ys, s).
Proof.
  induction 1 as [|x y l ys Hx _ IH]; simpl; [reflexivity|].
  unfold bind. rewrite Hx, IH. reflexivity.
Qed.

(** The footprint depends on the classes of the actions only, which
    [execute] keeps. *)
Lemma SMTAction_attributes_le fuel :
  forall a s s' l,
    action_le s s' ->
    SMTAction_attributes fuel a s = OK (l, s) ->
    SMTAction_attributes fuel a s' = OK (l, s').
Proof.
  induction fuel as [|fuel IH]; intros a s s' l Hle H; [discriminate|].
  cbn [SMTAction_attributes] in H |- *.
  apply bind_OK in H as (nd & s1 & Hnd & H).
  apply get_action_OK in Hnd as [-> Hnd].
  destruct Hle as [Hlen Hle']. destruct (Hle' a nd Hnd) as (nd' & Hnd' & K & _).
  rewrite (bind_run _ _ _ nd' s') by (unfold get_action; by rewrite Hnd').
  rewrite K. destruct (akind nd) as [attribute val|community val|idx actions].
  - by run_inv H.
  - by run_inv H.
  - apply bind_OK in H as (ls & s1 & Hls & H). apply lift_OK in H as [H _].
    destruct (mapM_pure_results _ _ (SMTAction_attributes_pure fuel) _ _ _ Hls)
      as [_ Hall].
    erewrite bind_run.
    2:{ apply mapM_pure_run. eapply Forall2_impl; [exact Hall|].
        intros x y Hx. eapply IH; [|exact Hx]. by split. }
    unfold lift. by rewrite H.
Qed.

Lemma set_announcements_OK a new s u s' :
  set_announcements a new s = OK (u, s') ->
  exists nd, action_store s' !! a = Some nd /\ _announcements nd = Some new.
Proof.
  unfold set_announcements.
  destruct (action_store s !! a) as [nd|] eqn:E; [|discriminate].
  intros H; inversion H; subst; simpl. eexists. split.
  - apply list_lookup_insert_eq. eapply lookup_lt_Some; eauto.
  - reflexivity.
Qed.

(** One iteration of the attribute loop of [SMTSetOne.execute] on an
    attribute outside the footprint. *)
Lemma SMTSetOne_attr_untouched fuel self idx actions attrs i old attr x
    s r s' :
  Some attr ∉ attrs ->
  getattr old attr = OK x ->
  SMTSetOne_attr fuel self idx actions true attrs i old attr s = OK (r, s') ->
  fst r = x.
Proof.
  intros Hn Hx H. unfold SMTSetOne_attr in H.
  rewrite (bind_run _ _ _ x s) in H by (unfold lift; by rewrite Hx).
  rewrite (bool_decide_eq_false_2 _ Hn) in H. simpl in H. by run_inv H.
Qed.

Lemma SMTSetOne_announcements_untouched fuel self idx actions attrs :
  forall olds i s news s',
    SMTSetOne_announcements fuel self idx actions true attrs i olds s
    = OK (news, s') ->
    Forall2 (fun old new => forall attr, Some attr ∉ attrs ->
                                         getattr new attr = getattr old attr)
      olds news.
Proof.
  induction olds as [|old olds IH]; intros i s news s' H;
    cbn [SMTSetOne_announcements] in H.
  - run_inv H. constructor.
  - apply bind_OK in H as ([d cs] & s1 & Hd & H).
    apply bind_OK in H as (a & s2 & Ha & H). apply lift_OK in Ha as [Ha ->].
    apply bind_OK in H as (rest & s3 & Hrest & H). run_inv H.
    constructor; [|eapply IH; exact Hrest].
    intros attr Hn. simpl in Ha.
    destruct (decide (attr ∈ Announcement_attributes)) as [Hin|Hnin];
      [|by apply getattr_unknown].
    destruct (getattr_known old attr Hin) as [x Hx]. rewrite Hx.
    eapply Announcement_of_getattr; [exact Ha | exact Hin |].
    eapply (for_each_lookup _ attr x); [|exact Hd|left; exact Hin].
    intros s1' r s2' Hr. eapply SMTSetOne_attr_untouched; eauto.
Qed.

(** X17 (SetOne.execute, pass-through): when [execute] on a SetOne returns,
    its announcement set is a new version produced by the SetOne, with one
    announcement per old one, and in each of them every attribute outside
    the SetOne's footprint (an attribute that no candidate sets) is the very
    value of the old announcement; no value is created for it. *)
Theorem set_one_passes_untouched_through fuel self s nd idx actions attrs u s' :
  action_store s !! self = Some nd ->
  akind nd = KSetOne idx actions ->
  SMTAction_attributes (S fuel) self s = OK (attrs, s) ->
  execute (S fuel) self s = OK (u, s') ->
  exists nd' news,
    action_store s' !! self = Some nd' /\
    _announcements nd' = Some (create_new news self) /\
    length news = length (announcements_list (_old_announcements nd)) /\
    forall i old new attr,
      announcements_list (_old_announcements nd) !! i = Some old ->
      news !! i = Some new ->
      Some attr ∉ attrs ->
      getattr new attr = getattr old attr.
Proof.
  intros Hnd Hkind Hattrs H.
  destruct (SMTAction_attributes_wf _ _ _ _ _ Hattrs) as [_ Hnone].
  cbn [execute] in H.
  rewrite (bind_run _ _ _ nd s) in H by (unfold get_action; by rewrite Hnd).
  rewrite Hkind in H.
  apply bind_OK in H as (us & s1 & Hus & H).
  assert (Hle : action_le s s1).
  { eapply (mapM_keeps action_le action_le_refl action_le_trans); [|exact Hus].
    intros x s0 y s2 Hx. by destruct (execute_grows _ _ _ _ _ Hx) as (_ & _ & ?). }
  rewrite (bind_run _ _ _ _ _ (SMTAction_attributes_le _ _ _ _ _ Hle Hattrs)) in H.
  rewrite (bool_decide_eq_false_2 _ Hnone) in H. simpl negb in H.
  apply bind_OK in H as (news & s3 & Hnews & H).
  apply set_announcements_OK in H as (nd' & Hnd' & Ha).
  apply SMTSetOne_announcements_untouched in Hnews.
  exists nd', news. split; [exact Hnd'|]. split; [exact Ha|].
  split; [symmetry; eapply Forall2_length; eauto|].
  intros i old new attr Hold Hnew Hn.
  exact (Forall2_lookup_lr _ _ _ _ _ _ Hnews Hold Hnew attr Hn).
Qed.

Lemma set_one_passes_untouched_through_witness :
  exists s' nd' new,
    execute 3 2 setone_two_candidates = OK (tt, s') /\
    action_store s' !! 2%nat = Some nd' /\
    _announcements nd' = Some (create_new [new] 2) /\
    getattr new "communities" = getattr ann1 "communities".
Proof.
  assert (Hrun : exists s', execute 3 2 setone_two_candidates = OK (tt, s'))
    by (eexists; vm_compute; reflexivity).
  destruct Hrun as [s' Hrun].
  destruct (set_one_passes_untouched_through 2 2 setone_two_candidates
              (mkAction (KSetOne setone_index [0%nat; 1%nat]) 0 anns1 None)
              setone_index [0%nat; 1%nat] [Some "local_pref"; Some "med"]
              tt s'
              ltac:(vm_compute; reflexivity) ltac:(reflexivity)
              ltac:(vm_compute; reflexivity) Hrun)
    as (nd' & news & Hnd' & Ha & Hlen & Hpass).
  change (length news = 1%nat) in Hlen.
  destruct news as [|new [|? ?]]; try discriminate Hlen.
  exists s', nd', new. split; [exact Hrun|]. split; [exact Hnd'|].
  split; [exact Ha|].
  apply (Hpass 0%nat ann1 new "communities"); [reflexivity | reflexivity |].
  apply (bool_decide_unpack _). vm_compute. exact I.
Defined.

(** ** SetOne: the communities of the footprint *)

(** When every candidate has computed the community, [_get_communities]
    returns. *)
Lemma _get_communities_run idx i c d s actions vals :
  Forall2 (fun a v => candidate_new_community s a i c = Some v) actions vals ->
  forall k,
    _get_communities idx actions i c d k s
    = OK (nested_conditional (var idx) vals d k, s).
Proof.
  induction 1 as [|a v actions vals Hv _ IH]; intros k; simpl; [reflexivity|].
  unfold candidate_new_community in Hv.
  destruct (action_store s !! a) as [nd|] eqn:Hnd; [|discriminate].
  destruct (_announcements nd) as [cx|] eqn:Hc; [|discriminate].
  destruct (announcements_list cx !! i) as [ann|] eqn:Hi; [|discriminate].
  destruct (dict_get (communities ann) c) as [x|] eqn:Hx; [|discriminate].
  inversion Hv; subst v.
  unfold bind at 1. unfold action_announcement, bind, get_action.
  rewrite Hnd, Hc, Hi. unfold ret, lift. rewrite Hx, IH. reflexivity.
Qed.

(** One turn of the loop over the footprint's communities. *)
Lemma SMTSetOne_fresh_community_run idx actions index attr c s vals :
  Forall2 (fun a v => candidate_new_community s a index c = Some v)
    actions vals ->
  let new_var := mkSMTVar (Some "setone_community_var_") (next_uid (ctx s))
                   BoolSort None in
  SMTSetOne_fresh_community idx actions index attr c s
  = OK (new_var,
        mkState
          (mkCtx (S (next_uid (ctx s))) (vars (ctx s) ++ [new_var])
             (constraints (ctx s)
              ++ [(Some ("setone_" +:+ attr +:+ "_"),
                   EEq (var new_var)
                     (nested_conditional (var idx) vals (var new_var) 0))]))
          (match_store s) (action_store s)).
Proof.
  intros Hvals new_var.
  set (s1 := mkState (mkCtx (S (next_uid (ctx s))) (vars (ctx s) ++ [new_var])
                        (constraints (ctx s)))
               (match_store s) (action_store s)).
  assert (Hvals1 : Forall2 (fun a v => candidate_new_community s1 a index c
                                       = Some v) actions vals) by exact Hvals.
  unfold SMTSetOne_fresh_community.
  unfold bind at 1. unfold create_fresh_var at 1. fold new_var. fold s1.
  unfold bind at 1.
  rewrite (_get_communities_run idx index c (var new_var) s1 actions vals
             Hvals1 0).
  reflexivity.
Qed.

(** X18 (SetOne.execute, communities of the footprint): once every candidate
    has computed its announcements, the loop over the communities of the
    footprint returns; for the [k]-th community it creates one fresh symbolic
    boolean and registers one constraint, that the boolean equals the nested
    conditional, selected by the index, over the candidates' values of that
    community, ending in the fresh boolean itself; the new communities map
    that community to its fresh boolean and keep every other entry of the
    old announcement. *)
Theorem set_one_footprint_communities idx actions index attr vals :
  forall comms new_comms s,
    NoDup comms ->
    (forall c, c ∈ comms ->
       Forall2 (fun a v => candidate_new_community s a index c = Some v)
         actions (vals c)) ->
    exists r s',
      SMTSetOne_communities idx actions index attr comms new_comms s
      = OK (r, s') /\
      next_uid (ctx s') = (next_uid (ctx s) + length comms)%nat /\
      match_store s' = match_store s /\ action_store s' = action_store s /\
      constraints (ctx s')
      = constraints (ctx s)
        ++ imap (fun k c =>
                   setone_community_constraint idx attr
                     (next_uid (ctx s) + k)%nat (vals c)) comms /\
      (forall k c, comms !! k = Some c ->
         dict_get r c = Some (setone_community_var (next_uid (ctx s) + k)%nat)) /\
      (forall c, c ∉ comms -> dict_get r c = dict_get new_comms c).
Proof.
  induction comms as [|c comms IH]; intros new_comms s Hnd Hvals.
  - exists new_comms, s. simpl. rewrite app_nil_r, Nat.add_0_r.
    repeat (split; [reflexivity|]). split; [intros k c H; discriminate|auto].
  - apply NoDup_cons in Hnd as [Hc Hnd].
    pose proof (SMTSetOne_fresh_community_run idx actions index attr c s (vals c)
                  (Hvals c ltac:(constructor))) as Hrun.
    cbv zeta in Hrun. fold (setone_community_var (next_uid (ctx s))) in Hrun.
    fold (setone_community_constraint idx attr (next_uid (ctx s)) (vals c))
      in Hrun.
    match type of Hrun with _ = OK (_, ?st) => set (s1 := st) in * end.
    destruct (IH (dict_set new_comms c (setone_community_var (next_uid (ctx s))))
                s1 Hnd)
      as (r & s' & Hloop & Hn & Hm & Ha & Hcs & Hfresh & Hother).
    { intros c' Hc'. exact (Hvals c' ltac:(by constructor)). }
    exists r, s'. split.
    { cbn [SMTSetOne_communities]. rewrite (bind_run _ _ _ _ _ Hrun).
      exact Hloop. }
    split; [rewrite Hn; simpl; lia|].
    split; [rewrite Hm; reflexivity|]. split; [rewrite Ha; reflexivity|].
    split.
    { rewrite Hcs. simpl. rewrite <- app_assoc. simpl.
      rewrite Nat.add_0_r. do 2 f_equal.
      apply imap_ext. intros k c' _. simpl. f_equal. lia. }
    split.
    + intros [|k] c' Hk; simpl in Hk.
      * inversion Hk; subst c'. rewrite Nat.add_0_r.
        rewrite (Hother c Hc). apply dict_get_set_eq.
      * rewrite (Hfresh k c' Hk). simpl. do 2 f_equal. lia.
    + intros c' Hc'. apply not_elem_of_cons in Hc' as [Hne Hc'].
      rewrite (Hother c' Hc'). by apply dict_get_set_ne.
Qed.

Lemma set_one_footprint_communities_witness :
  exists r s',
    SMTSetOne_communities setone_index [0%nat; 1%nat] 0 "communities"
      [Comm "c1"] (communities ann1) setone_two_candidates = OK (r, s') /\
    dict_get r (Comm "c1")
    = Some (setone_community_var (next_uid (ctx setone_two_candidates))) /\
    constraints (ctx s')
    = constraints (ctx setone_two_candidates)
      ++ [setone_community_constraint setone_index "communities"
            (next_uid (ctx setone_two_candidates))
            [EConst 108 BoolSort; EConst 108 BoolSort]].
Proof.
  destruct (set_one_footprint_communities setone_index [0%nat; 1%nat] 0
              "communities"
              (fun _ => [EConst 108 BoolSort; EConst 108 BoolSort])
              [Comm "c1"] (communities ann1) setone_two_candidates
              (NoDup_singleton _)) as (r & s' & Hrun & _ & _ & _ & Hcs & Hf & _).
  { intros c Hc. apply list_elem_of_singleton in Hc. subst c.
    constructor; [vm_compute; reflexivity|].
    constructor; [vm_compute; reflexivity|]. constructor. }
  exists r, s'. split; [exact Hrun|]. split.
  - rewrite (Hf 0%nat (Comm "c1") eq_refl). vm_compute. reflexivity.
  - rewrite Hcs. vm_compute. reflexivity.
Defined.

(** ** Construction contracts of the actions *)

(** X19 (SetAttribute, construction contract): the constructor raises
    [AssertionError] for a name outside [Announcement.attributes] and for
    an empty announcement set, [AttributeError] for [communities] (the
    dictionary has no sort), and [AssertionError] when the sort of the given
    value differs from the sort of the attribute in the first announcement;
    when it returns without a value given, the action holds a fresh
    symbolic value of the attribute's sort, named after the attribute. *)
Theorem set_attribute_constructor fuel m attribute value anns s :
  (attribute ∉ Announcement_attributes ->
   SMTSetAttribute fuel m attribute value anns s = Raise AssertionError) /\
  (announcements_list anns = [] ->
   SMTSetAttribute fuel m attribute value anns s = Raise AssertionError) /\
  (attribute = "communities" -> announcements_list anns <> [] ->
   SMTSetAttribute fuel m attribute value anns s = Raise AttributeError) /\
  (forall a0 rest x,
     announcements_list anns = a0 :: rest ->
     getattr a0 attribute = OK (AVar x) ->
     (forall v, value = Some v -> vsort_of v <> vsort_of x ->
        SMTSetAttribute fuel m attribute value anns s = Raise AssertionError) /\
     (forall a s', value = None ->
        SMTSetAttribute fuel m attribute value anns s = OK (a, s') ->
        exists nd,
          action_store s' !! a = Some nd /\
          akind nd
          = KSetAttribute attribute
              (mkSMTVar (Some ("Set_" +:+ attribute +:+ "_val"))
                 (next_uid (ctx s)) (vsort_of x) None))).
Proof.
  split; [|split; [|split]].
  - intros Hnot. unfold SMTSetAttribute, bind, assert.
    by rewrite (bool_decide_eq_false_2 _ Hnot).
  - intros Hnil. unfold SMTSetAttribute, bind, assert. rewrite Hnil.
    by destruct (bool_decide _).
  - intros -> Hne. unfold SMTSetAttribute, bind, assert.
    destruct (announcements_list anns) as [|a0 rest]; [contradiction|].
    destruct value; reflexivity.
  - intros a0 rest x Hl Hx. pose proof (getattr_in _ _ _ Hx) as Hin. split.
    + intros v -> Hne. unfold SMTSetAttribute, bind, assert, ret, lift.
      rewrite (bool_decide_eq_true_2 _ Hin), Hl. simpl. rewrite Hx. simpl.
      rewrite bool_decide_eq_false_2 by congruence. reflexivity.
    + intros a s' -> H. unfold SMTSetAttribute in H. run_inv H.
      match goal with
      | Ha : alloc_action ?nd _ = OK (a, _), He : execute _ a _ = OK _,
        Hn : nonempty _ = true |- _ =>
          destruct (alloc_then_execute _ nd _ _ _ _ _ eq_refl
                      ltac:(discriminate) Hn Ha He)
            as (nd' & news & Hnd' & K & _)
      end.
      exists nd'. split; [exact Hnd'|]. rewrite K. cbn [akind].
      repeat match goal with
      | H : execute _ _ _ = OK _ |- _ => clear H
      | H : first_announcement _ = OK _ |- _ =>
          rewrite Hl in H; cbn [first_announcement] in H
      | H : OK _ = OK _ |- _ => inversion H; subst; clear H
      end.
      repeat match goal with
      | H : getattr ?a attribute = OK ?y |- _ =>
          lazymatch y with
          | AVar x => fail
          | _ => rewrite Hx in H; inversion H; subst; clear H
          end
      end.
      repeat match goal with
      | H : attr_vsort (AVar x) = OK _ |- _ =>
          cbn in H; inversion H; subst; clear H
      | H : create_fresh_var _ _ _ _ = OK _ |- _ =>
          apply create_fresh_var_OK in H as (-> & _)
      end.
      reflexivity.
Qed.

Lemma set_attribute_constructor_witness :
  SMTSetAttribute 2 0 "color" None anns1 one_match_all = Raise AssertionError /\
  SMTSetAttribute 2 0 "communities" None anns1 one_match_all
  = Raise AttributeError /\
  SMTSetAttribute 2 0 "med" (Some (concrete_var 113 BoolSort (PBool true)))
    anns1 one_match_all = Raise AssertionError /\
  exists a s' nd,
    SMTSetAttribute 2 0 "med" None anns1 one_match_all = OK (a, s') /\
    action_store s' !! a = Some nd /\
    akind nd = KSetAttribute "med" (mkSMTVar (Some "Set_med_val") 1 IntSort None).
Proof.
  split; [|split; [|split]].
  - apply (proj1 (set_attribute_constructor 2 0 "color" None anns1
                    one_match_all)).
    apply (bool_decide_unpack _). vm_compute. exact I.
  - apply (proj1 (proj2 (proj2 (set_attribute_constructor 2 0 "communities"
                                  None anns1 one_match_all))));
      [reflexivity | discriminate].
  - apply (proj1 (proj2 (proj2 (proj2 (set_attribute_constructor 2 0 "med"
                                         (Some (concrete_var 113 BoolSort
                                                  (PBool true)))
                                         anns1 one_match_all)))
                    ann1 [] (med ann1) eq_refl eq_refl)
             (concrete_var 113 BoolSort (PBool true)) eq_refl).
    discriminate.
  - assert (Hrun : exists a s',
               SMTSetAttribute 2 0 "med" None anns1 one_match_all = OK (a, s'))
      by (eexists _, _; vm_compute; reflexivity).
    destruct Hrun as (a & s' & Hrun).
    destruct (proj2 (proj2 (proj2 (proj2 (set_attribute_constructor 2 0 "med"
                                            None anns1 one_match_all)))
                       ann1 [] (med ann1) eq_refl eq_refl)
                a s' eq_refl Hrun) as (nd & Hnd & K).
    exists a, s', nd. split; [exact Hrun|]. split; [exact Hnd | exact K].
Defined.

(** X20 (SetCommunity, construction contract): the constructor raises
    [IndexError] for an empty announcement set (the first announcement is
    read before the emptiness check), [AssertionError] when the first
    announcement does not carry the community, and [AssertionError] when the
    given value is not of boolean sort; when it returns without a value
    given, the action holds a fresh value that is concretely [true]. *)
Theorem set_community_constructor fuel m community value anns s :
  (announcements_list anns = [] ->
   SMTSetCommunity fuel m community value anns s = Raise IndexError) /\
  (forall a0 rest,
     announcements_list anns = a0 :: rest ->
     (dict_has (communities a0) community = false ->
      SMTSetCommunity fuel m community value anns s = Raise AssertionError) /\
     (forall v, dict_has (communities a0) community = true ->
        value = Some v -> vsort_of v <> BoolSort ->
        SMTSetCommunity fuel m community value anns s = Raise AssertionError) /\
     (forall a s', value = None ->
        SMTSetCommunity fuel m community value anns s = OK (a, s') ->
        exists nd,
          action_store s' !! a = Some nd /\
          akind nd
          = KSetCommunity community
              (mkSMTVar (Some "Set_community_val_") (next_uid (ctx s))
                 BoolSort (Some (PBool true))))).
Proof.
  split.
  - intros Hnil. unfold SMTSetCommunity, bind, lift. by rewrite Hnil.
  - intros a0 rest Hl. split; [|split].
    + intros Hno. unfold SMTSetCommunity, bind, lift, assert. rewrite Hl.
      simpl. by rewrite Hno.
    + intros v Hhas -> Hne. unfold SMTSetCommunity, bind, lift, assert, ret.
      rewrite Hl. simpl. rewrite Hhas.
      rewrite bool_decide_eq_false_2 by congruence. reflexivity.
    + intros a s' -> H. unfold SMTSetCommunity in H. run_inv H.
      match goal with
      | Ha : alloc_action ?nd _ = OK (a, _), He : execute _ a _ = OK _,
        Hn : nonempty _ = true |- _ =>
          destruct (alloc_then_execute _ nd _ _ _ _ _ eq_refl
                      ltac:(discriminate) Hn Ha He)
            as (nd' & news & Hnd' & K & _)
      end.
      exists nd'. split; [exact Hnd'|]. rewrite K. cbn [akind].
      repeat match goal with
      | H : create_fresh_var _ _ _ _ = OK _ |- _ =>
          apply create_fresh_var_OK in H as (-> & _)
      end.
      reflexivity.
Qed.

Lemma set_community_constructor_witness :
  SMTSetCommunity 2 0 (Comm "c1") None (mkAnns [] None) one_match_all
  = Raise IndexError /\
  SMTSetCommunity 2 0 (Comm "c2") None anns1 one_match_all
  = Raise AssertionError /\
  SMTSetCommunity 2 0 (Comm "c1") (Some (concrete_var 112 IntSort (PInt 7)))
    anns1 one_match_all = Raise AssertionError /\
  exists a s' nd,
    SMTSetCommunity 2 0 (Comm "c1") None anns1 one_match_all = OK (a, s') /\
    action_store s' !! a = Some nd /\
    akind nd = KSetCommunity (Comm "c1")
                 (mkSMTVar (Some "Set_community_val_") 1 BoolSort
                    (Some (PBool true))).
Proof.
  split; [|split; [|split]].
  - exact (proj1 (set_community_constructor 2 0 (Comm "c1") None
                    (mkAnns [] None) one_match_all) eq_refl).
  - exact (proj1 (proj2 (set_community_constructor 2 0 (Comm "c2") None anns1
                           one_match_all) ann1 [] eq_refl) eq_refl).
  - apply (proj1 (proj2 (proj2 (set_community_constructor 2 0 (Comm "c1")
                                  (Some (concrete_var 112 IntSort (PInt 7)))
                                  anns1 one_match_all) ann1 [] eq_refl))
             (concrete_var 112 IntSort (PInt 7)) eq_refl eq_refl).
    discriminate.
  - assert (Hrun : exists a s',
               SMTSetCommunity 2 0 (Comm "c1") None anns1 one_match_all
               = OK (a, s'))
      by (eexists _, _; vm_compute; reflexivity).
    destruct Hrun as (a & s' & Hrun).
    destruct (proj2 (proj2 (proj2 (set_community_constructor 2 0 (Comm "c1")
                                     None anns1 one_match_all) ann1 []
                              eq_refl))
                a s' eq_refl Hrun) as (nd & Hnd & K).
    exists a, s', nd. split; [exact Hrun|]. split; [exact Hnd | exact K].
Defined.

(** ** MatchAnd and MatchOr over a symbolic sub-result *)

(** The meaning of [z3.And([r.var == True ...])] and of the [z3.Or]. *)
Lemma eval_and_eq_true env results bs :
  Forall2 (fun r b => eval env (var r) = Some (PBool b)) results bs ->
  eval env (EAnd (map eq_true results)) = Some (PBool (forallb id bs)).
Proof.
  induction 1 as [|r b results bs Hr _ IH]; [reflexivity|].
  simpl in IH |- *. rewrite Hr, IH. simpl. by destruct b.
Qed.

Lemma eval_or_eq_true env results bs :
  Forall2 (fun r b => eval env (var r) = Some (PBool b)) results bs ->
  eval env (EOr (map eq_true results)) = Some (PBool (existsb id bs)).
Proof.
  induction 1 as [|r b results bs Hr _ IH]; [reflexivity|].
  simpl in IH |- *. rewrite Hr, IH. simpl. by destruct b.
Qed.

(** The first query of a [MatchAnd] ([conj = true]) or [MatchOr] node with
    a sub-result that is not concrete. *)
Lemma combinator_symbolic_run (conj : bool) fuel m a s self ms results s1 :
  match_store s !! m = Some self ->
  mkind self = (if conj then KMatchAnd ms else KMatchOr ms) ->
  cached self a = false ->
  mapM (fun sub => is_match fuel sub a) ms s = OK (results, s1) ->
  forallb is_concrete results = false ->
  exists v s2,
    is_match (S fuel) m a s = OK (v, s2) /\
    v = mkSMTVar (Some (if conj then "match_and_" else "match_or_"))
          (next_uid (ctx s1)) BoolSort None /\
    constraints (ctx s2)
    = constraints (ctx s1)
      ++ [(Some (if conj then "const_and_" else "const_or_"),
           EEq (var v) (if conj then EAnd (map eq_true results)
                        else EOr (map eq_true results)))] /\
    is_match (S fuel) m a s2 = OK (v, s2).
Proof.
  intros Hself Hkind Hmiss Hsubs Hall.
  cut (exists v s2,
         is_match (S fuel) m a s = OK (v, s2) /\
         v = mkSMTVar (Some (if conj then "match_and_" else "match_or_"))
               (next_uid (ctx s1)) BoolSort None /\
         constraints (ctx s2)
         = constraints (ctx s1)
           ++ [(Some (if conj then "const_and_" else "const_or_"),
                EEq (var v) (if conj then EAnd (map eq_true results)
                             else EOr (map eq_true results)))]).
  { intros (v & s2 & H1 & H2 & H3). exists v, s2.
    repeat (split; [assumption|]). exact (is_match_again _ _ _ _ _ _ H1). }
  assert (Hle : store_le s s1).
  { eapply mapM_le; [|exact Hsubs].
    intros ? ? ? ? Hx. exact (is_match_le _ _ _ _ _ _ Hx). }
  destruct Hle as [_ Hle]. destruct (Hle m self Hself) as (nd1 & Hnd1 & _).
  simpl. rewrite (bind_run _ _ _ self s)
    by (unfold get_match; rewrite Hself; reflexivity).
  rewrite Hkind.
  destruct conj; rewrite Hmiss; unfold bind at 1; unfold bind at 1;
    rewrite Hsubs; rewrite Hall;
    unfold bind, create_fresh_var, register_constraint, ret, cache_set,
      cache_get; simpl;
    rewrite Hnd1; simpl;
    rewrite list_lookup_insert_eq by (eapply lookup_lt_Some; eauto); simpl;
    rewrite dict_get_set_eq;
    eexists _, _; (split; [reflexivity|]); simpl; auto.
Qed.

(** X21 (MatchAnd and MatchOr, symbolic sub-result): on the first query of
    an announcement, if some sub-match's result is not concrete, the result
    is a fresh symbolic boolean [v], created after the sub-matches were
    queried, and exactly one constraint is registered after theirs,
    [v == And(r == True ...)] over all sub-results (for MatchOr, [Or]);
    under any assignment that gives the sub-results boolean values the
    constraint holds exactly when [v] is their conjunction (disjunction).
    Every later query returns [v] and changes nothing. *)
Theorem match_and_or_symbolic_first_query fuel m a s self ms results s1 :
  match_store s !! m = Some self ->
  cached self a = false ->
  mapM (fun sub => is_match fuel sub a) ms s = OK (results, s1) ->
  forallb is_concrete results = false ->
  (mkind self = KMatchAnd ms ->
   exists v s2 c,
     is_match (S fuel) m a s = OK (v, s2) /\
     v = mkSMTVar (Some "match_and_") (next_uid (ctx s1)) BoolSort None /\
     constraints (ctx s2) = constraints (ctx s1) ++ [(Some "const_and_", c)] /\
     (forall env bs,
        Forall2 (fun r b => eval env (var r) = Some (PBool b)) results bs ->
        (holds env c <-> env (uid v) = PBool (forallb id bs))) /\
     is_match (S fuel) m a s2 = OK (v, s2)) /\
  (mkind self = KMatchOr ms ->
   exists v s2 c,
     is_match (S fuel) m a s = OK (v, s2) /\
     v = mkSMTVar (Some "match_or_") (next_uid (ctx s1)) BoolSort None /\
     constraints (ctx s2) = constraints (ctx s1) ++ [(Some "const_or_", c)] /\
     (forall env bs,
        Forall2 (fun r b => eval env (var r) = Some (PBool b)) results bs ->
        (holds env c <-> env (uid v) = PBool (existsb id bs))) /\
     is_match (S fuel) m a s2 = OK (v, s2)).
Proof.
  intros Hself Hmiss Hsubs Hall. split; intros Hkind.
  - destruct (combinator_symbolic_run true _ _ _ _ _ _ _ _ Hself Hkind Hmiss
                Hsubs Hall) as (v & s2 & Hrun & Hv & Hc & Hagain).
    exists v, s2, (EEq (var v) (EAnd (map eq_true results))).
    repeat (split; [assumption|]). split; [|exact Hagain].
    intros env bs Hbs. unfold holds. cbn [eval].
    change ((fix conj (l : list expr) : option pyval :=
               match l with
               | [] => Some (PBool true)
               | x :: r =>
                   match eval env x, conj r with
                   | Some (PBool b1), Some (PBool b2) => Some (PBool (b1 && b2))
                   | _, _ => None
                   end
               end) (map eq_true results))
      with (eval env (EAnd (map eq_true results))).
    rewrite (eval_and_eq_true _ _ _ Hbs). subst v. simpl. split.
    + intros E. inversion E as [E']. by apply bool_decide_eq_true_1 in E'.
    + intros ->. by rewrite bool_decide_eq_true_2.
  - destruct (combinator_symbolic_run false _ _ _ _ _ _ _ _ Hself Hkind Hmiss
                Hsubs Hall) as (v & s2 & Hrun & Hv & Hc & Hagain).
    exists v, s2, (EEq (var v) (EOr (map eq_true results))).
    repeat (split; [assumption|]). split; [|exact Hagain].
    intros env bs Hbs. unfold holds. cbn [eval].
    change ((fix disj (l : list expr) : option pyval :=
               match l with
               | [] => Some (PBool false)
               | x :: r =>
                   match eval env x, disj r with
                   | Some (PBool b1), Some (PBool b2) => Some (PBool (b1 || b2))
                   | _, _ => None
                   end
               end) (map eq_true results))
      with (eval env (EOr (map eq_true results))).
    rewrite (eval_or_eq_true _ _ _ Hbs). subst v. simpl. split.
    + intros E. inversion E as [E']. by apply bool_decide_eq_true_1 in E'.
    + intros ->. by rewrite bool_decide_eq_true_2.
Qed.

Lemma match_and_or_symbolic_first_query_witness :
  exists v s2 c,
    is_match 2 1 ann1 and_over_local_pref = OK (v, s2) /\
    value v = None /\
    last (constraints (ctx s2)) = Some (Some "const_and_", c) /\
    is_match 2 1 ann1 s2 = OK (v, s2).
Proof.
  assert (Hself : exists self,
             match_store and_over_local_pref !! 1%nat = Some self /\
             cached self ann1 = false /\ mkind self = KMatchAnd [0%nat])
    by (eexists; split; [vm_compute; reflexivity|]; split; reflexivity).
  destruct Hself as (self & Hself & Hmiss & Hkind).
  assert (Hsubs : exists results s1,
             mapM (fun sub => is_match 1 sub ann1) [0%nat] and_over_local_pref
             = OK (results, s1) /\
             forallb is_concrete results = false)
    by (eexists _, _; split; vm_compute; reflexivity).
  destruct Hsubs as (results & s1 & Hsubs & Hall).
  destruct (proj1 (match_and_or_symbolic_first_query 1 1 ann1
                     and_over_local_pref self [0%nat] results s1
                     Hself Hmiss Hsubs Hall) Hkind)
    as (v & s2 & c & Hrun & Hv & Hc & _ & Hagain).
  exists v, s2, c. split; [exact Hrun|]. split; [by rewrite Hv|].
  split; [rewrite Hc; apply last_snoc | exact Hagain].
Defined.

(** ** SetOne: the attributes that some candidate changes (C8) *)

Lemma solver_grew_refl s : solver_grew s s.
Proof. split; [apply ctx_le_refl | reflexivity]. Qed.

Lemma solver_grew_trans s1 s2 s3 :
  solver_grew s1 s2 -> solver_grew s2 s3 -> solver_grew s1 s3.
Proof.
  intros [C1 A1] [C2 A2]. split; [eapply ctx_le_trans; eauto | congruence].
Qed.

Lemma create_fresh_var_grew vs p val s v s' :
  create_fresh_var vs p val s = OK (v, s') -> solver_grew s s'.
Proof.
  intros H. split; [eapply create_fresh_var_ctx; eauto|].
  by apply create_fresh_var_OK in H as (_ & _ & ? & _).
Qed.

Lemma register_constraint_grew e p s u s' :
  register_constraint e p s = OK (u, s') -> solver_grew s s'.
Proof.
  intros H. split; [eapply register_constraint_ctx; eauto|].
  by apply register_constraint_OK in H as (_ & ? & _).
Qed.

(** What the candidates have computed depends on the actions only. *)
Lemma candidate_new_value_store s s' a i attr :
  action_store s' = action_store s ->
  candidate_new_value s' a i attr = candidate_new_value s a i attr.
Proof. unfold candidate_new_value. by intros ->. Qed.

(** Whenever [_get_actions] returns, it has read every candidate's value
    and built the nested conditional over them. *)
Lemma _get_actions_inv idx i attr d :
  forall actions k s e s',
    _get_actions idx actions i attr d k s = OK (e, s') ->
    exists vals,
      Forall2 (fun a v => candidate_new_value s a i attr = Some v)
        actions vals /\
      e = nested_conditional (var idx) vals d k.
Proof.
  induction actions as [|a actions IH]; intros k s e s' H; simpl in H.
  - run_inv H. exists []. split; [constructor | reflexivity].
  - apply bind_OK in H as (ann & s1 & Hann & H).
    pose proof (action_announcement_pure _ _ _ _ _ Hann) as ->.
    apply bind_OK in H as (x & s1 & Hx & H). apply lift_OK in Hx as [Hx ->].
    apply bind_OK in H as (next & s1 & Hnext & H).
    pose proof (_get_actions_pure _ _ _ _ _ _ _ _ _ Hnext) as ->.
    apply bind_OK in H as (v & s1 & Hv & H). apply lift_OK in Hv as [Hv ->].
    run_inv H.
    destruct (IH _ _ _ _ Hnext) as (vals & Hvals & ->).
    exists (v :: vals). split; [|reflexivity].
    constructor; [|exact Hvals].
    unfold action_announcement, bind, get_action in Hann.
    unfold candidate_new_value.
    destruct (action_store _ !! a) as [nd|]; [|discriminate].
    destruct (_announcements nd) as [c|]; [|discriminate].
    destruct (announcements_list c !! i) as [ann'|]; [|discriminate].
    inversion Hann; subst ann'. by rewrite Hx, Hv.
Qed.

(** The branch of [SMTSetOne.execute] for an attribute, other than
    [communities], in the footprint: whenever it returns, it has created
    one fresh symbolic value of the sort of the old one and registered that
    it equals the nested conditional over the candidates' values. *)
Lemma SMTSetOne_attr_changed fuel self idx actions attrs i old attr s r s' :
  Some attr ∈ attrs ->
  attr <> "communities" ->
  SMTSetOne_attr fuel self idx actions true attrs i old attr s = OK (r, s') ->
  exists old_var vals,
    getattr old attr = OK (AVar old_var) /\
    fst r = AVar (mkSMTVar (Some ("setone_" +:+ attr +:+ "_var_"))
                    (next_uid (ctx s)) (vsort_of old_var) None) /\
    Forall2 (fun a v => candidate_new_value s a i attr = Some v)
      actions vals /\
    constraints (ctx s')
    = constraints (ctx s)
      ++ [(Some ("setone_" +:+ attr +:+ "_"),
           EEq (var (mkSMTVar (Some ("setone_" +:+ attr +:+ "_var_"))
                       (next_uid (ctx s)) (vsort_of old_var) None))
             (nested_conditional (var idx) vals
                (var (mkSMTVar (Some ("setone_" +:+ attr +:+ "_var_"))
                        (next_uid (ctx s)) (vsort_of old_var) None)) 0))] /\
    next_uid (ctx s') = S (next_uid (ctx s)).
Proof.
  intros Hin Hne H. unfold SMTSetOne_attr in H.
  apply bind_OK in H as (x & s0 & Hx & H). apply lift_OK in Hx as [Hx ->].
  rewrite (bool_decide_eq_true_2 _ Hin) in H. simpl in H.
  rewrite (bool_decide_eq_false_2 _ Hne) in H.
  apply bind_OK in H as (new_var & s1 & Hnew & H). run_inv H.
  unfold SMTSetOne_fresh_attr in Hnew.
  apply bind_OK in Hnew as (vs & s0 & Hvs & Hnew).
  apply lift_OK in Hvs as [Hvs ->].
  destruct x as [old_var|c]; [|discriminate]. simpl in Hvs.
  inversion Hvs; subst vs; clear Hvs.
  apply bind_OK in Hnew as (nv & s2 & Hnv & Hnew).
  pose proof (create_fresh_var_OK _ _ _ _ _ _ Hnv) as (-> & Hm2 & Ha2 & Hc2 & Hn2).
  apply bind_OK in Hnew as (e & s3 & He & Hnew).
  pose proof (_get_actions_pure _ _ _ _ _ _ _ _ _ He) as ->.
  destruct (_get_actions_inv _ _ _ _ _ _ _ _ _ He) as (vals & Hvals & ->).
  apply bind_OK in Hnew as (u & s4 & Hreg & Hnew). run_inv Hnew.
  apply register_constraint_OK in Hreg as (_ & _ & Hc4 & Hn4).
  exists old_var, vals. split; [exact Hx|]. split; [reflexivity|].
  split.
  { eapply Forall2_impl; [exact Hvals|]. intros a v Hv.
    by rewrite <- (candidate_new_value_store s s2). }
  split; [by rewrite Hc4, Hc2 | by rewrite Hn4, Hn2].
Qed.

(** A dictionary-filling loop leaves alone the keys it does not visit. *)
Lemma for_each_other {K V} `{EqDecision K} (body : K -> M (V * list expr)) k :
  forall keys acc cs s d cs' s',
    for_each body keys acc cs s = OK ((d, cs'), s') ->
    k ∉ keys -> dict_get d k = dict_get acc k.
Proof.
  induction keys as [|k0 keys IH]; intros acc cs s d cs' s' H Hk; simpl in H.
  - by run_inv H.
  - apply bind_OK in H as (x & s1 & Hx & H).
    apply not_elem_of_cons in Hk as [Hne Hk].
    rewrite (IH _ _ _ _ _ _ H Hk). by apply dict_get_set_ne.
Qed.

(** What such a loop over distinct keys holds at a key it visits: the
    result of the run of the body at that key, a run that started after the
    loop did and ended before the loop did. *)
Lemma for_each_run_at {K V} `{EqDecision K} (R : state -> state -> Prop)
    (body : K -> M (V * list expr)) k :
  (forall s, R s s) ->
  (forall s1 s2 s3, R s1 s2 -> R s2 s3 -> R s1 s3) ->
  (forall k0 s r s', body k0 s = OK (r, s') -> R s s') ->
  forall keys acc cs s d cs' s',
    for_each body keys acc cs s = OK ((d, cs'), s') ->
    NoDup keys -> k ∈ keys ->
    exists sa r sb,
      R s sa /\ body k sa = OK (r, sb) /\ R sb s' /\
      dict_get d k = Some (fst r).
Proof.
  intros Hrefl Htrans Hbody.
  induction keys as [|k0 keys IH]; intros acc cs s d cs' s' H Hnd Hk;
    [inversion Hk|].
  simpl in H. apply bind_OK in H as (x & s1 & Hx & H).
  apply NoDup_cons in Hnd as [Hk0 Hnd].
  destruct (decide (k = k0)) as [->|Hne].
  - exists s, x, s1. split; [apply Hrefl|]. split; [exact Hx|].
    split; [exact (for_each_keeps R Hrefl Htrans body Hbody _ _ _ _ _ _ H)|].
    rewrite (for_each_other body k0 _ _ _ _ _ _ _ H Hk0).
    apply dict_get_set_eq.
  - apply elem_of_cons in Hk as [?|Hk]; [contradiction|].
    destruct (IH _ _ _ _ _ _ H Hnd Hk) as (sa & r & sb & Ra & Hr & Rb & Hd).
    exists sa, r, sb. split; [|auto].
    eapply Htrans; [eapply Hbody; exact Hx | exact Ra].
Qed.

(** The loop over the old announcements of [SMTSetOne.execute]: the new
    announcement at a position is built from the dictionary that the
    attribute loop filled for the old announcement at that position. *)
Lemma SMTSetOne_announcements_at fuel self idx actions attr_only attrs :
  forall olds i0 s news s',
    SMTSetOne_announcements fuel self idx actions attr_only attrs i0 olds s
    = OK (news, s') ->
    forall k old,
      olds !! k = Some old ->
      exists sa d cs sb new,
        solver_grew s sa /\
        for_each (SMTSetOne_attr fuel self idx actions attr_only attrs
                    (i0 + k)%nat old)
          Announcement_attributes [] [] sa = OK ((d, cs), sb) /\
        Announcement_of d = OK new /\
        news !! k = Some new /\
        solver_grew sb s'.
Proof.
  induction olds as [|old0 olds IH]; intros i0 s news s' H k old Hk;
    [discriminate|].
  cbn [SMTSetOne_announcements] in H.
  apply bind_OK in H as ([d cs] & s1 & Hd & H).
  apply bind_OK in H as (new & s2 & Hnew & H). apply lift_OK in Hnew as [Hnew ->].
  apply bind_OK in H as (rest & s3 & Hrest & H). run_inv H.
  assert (Hloop : solver_grew s s1).
  { eapply (for_each_keeps solver_grew solver_grew_refl solver_grew_trans);
      [|exact Hd].
    intros ? ? ? ?.
    apply (SMTSetOne_attr_keeps solver_grew solver_grew_refl solver_grew_trans
             create_fresh_var_grew register_constraint_grew). }
  destruct k as [|k]; simpl in Hk.
  - inversion Hk; subst old0. exists s, d, cs, s1, new.
    rewrite Nat.add_0_r. split; [apply solver_grew_refl|].
    split; [exact Hd|]. split; [exact Hnew|]. split; [reflexivity|].
    exact (SMTSetOne_announcements_keeps solver_grew solver_grew_refl
             solver_grew_trans create_fresh_var_grew register_constraint_grew
             _ _ _ _ _ _ _ _ _ _ _ Hrest).
  - destruct (IH _ _ _ _ Hrest k old Hk)
      as (sa & d' & cs' & sb & new' & Ra & Hd' & Hnew' & Hk' & Rb).
    exists sa, d', cs', sb, new'.
    split; [eapply solver_grew_trans; eauto|].
    replace (i0 + S k)%nat with (S i0 + k)%nat by lia.
    auto.
Qed.

Lemma set_announcements_ctx a new s u s' :
  set_announcements a new s = OK (u, s') -> ctx s' = ctx s.
Proof.
  unfold set_announcements. destruct (action_store s !! a); [|discriminate].
  intros H. by inversion H.
Qed.

Lemma ctx_le_lookup s s' k c :
  ctx_le s s' -> constraints (ctx s) !! k = Some c ->
  constraints (ctx s') !! k = Some c.
Proof.
  intros (_ & _ & [new E]) Hk. rewrite E. by apply lookup_app_l_Some.
Qed.

Lemma ctx_le_length s s' :
  ctx_le s s' ->
  (length (constraints (ctx s)) <= length (constraints (ctx s')))%nat.
Proof. intros (_ & _ & [new E]). rewrite E, length_app. lia. Qed.

(** C8, as amended (SetOne, attribute changed by some candidate): when
    [execute] on a SetOne returns, it has executed its candidates and
    published a new announcement set in which, for every old announcement
    and every attribute of the footprint other than [communities], the new
    value is a fresh symbolic value of the sort of the old one, created
    during this [execute] after the candidates ran; and a constraint
    registered during this [execute] says that the fresh value equals the
    nested conditional, selected by the index, over the values that the
    candidates computed for that attribute of that announcement.  The last
    [else] branch of the conditional is the fresh value itself: with the
    index on candidate [n] the constraint says that the fresh value is that
    candidate's value, and with the index on no candidate it says nothing. *)
Theorem setone_changed_attribute fuel self s nd idx actions attrs u s' :
  action_store s !! self = Some nd ->
  akind nd = KSetOne idx actions ->
  value idx = None ->
  SMTAction_attributes (S fuel) self s = OK (attrs, s) ->
  execute (S fuel) self s = OK (u, s') ->
  exists us s1 nd' news,
    mapM (execute fuel) actions s = OK (us, s1) /\
    action_store s' !! self = Some nd' /\
    _announcements nd' = Some (create_new news self) /\
    forall i old attr,
      announcements_list (_old_announcements nd) !! i = Some old ->
      attr ∈ Announcement_attributes ->
      Some attr ∈ attrs ->
      attr <> "communities" ->
      exists new old_var new_var vals cond k,
        news !! i = Some new /\
        getattr old attr = OK (AVar old_var) /\
        getattr new attr = OK (AVar new_var) /\
        new_var = mkSMTVar (Some ("setone_" +:+ attr +:+ "_var_"))
                    (uid new_var) (vsort_of old_var) None /\
        (next_uid (ctx s1) <= uid new_var < next_uid (ctx s'))%nat /\
        Forall2 (fun a v => candidate_new_value s1 a i attr = Some v)
          actions vals /\
        cond = nested_conditional (var idx) vals (var new_var) 0 /\
        (length (constraints (ctx s1)) <= k)%nat /\
        constraints (ctx s') !! k
        = Some (Some ("setone_" +:+ attr +:+ "_"), EEq (var new_var) cond) /\
        fallback_branch cond = var new_var /\
        (forall env n v,
           vals !! n = Some v -> env (uid idx) = PInt (Z.of_nat n) ->
           (holds env (EEq (var new_var) cond)
            <-> eval env v = Some (env (uid new_var)))) /\
        (forall env,
           (forall j, 0 <= j < Z.of_nat (length actions) ->
                      env (uid idx) <> PInt j) ->
           holds env (EEq (var new_var) cond)).
Proof.
  intros Hnd Hkind Hidx Hattrs H.
  destruct (SMTAction_attributes_wf _ _ _ _ _ Hattrs) as [_ Hnone].
  cbn [execute] in H.
  rewrite (bind_run _ _ _ nd s) in H by (unfold get_action; by rewrite Hnd).
  rewrite Hkind in H.
  apply bind_OK in H as (us & s1 & Hus & H).
  assert (Hle : action_le s s1).
  { eapply (mapM_keeps action_le action_le_refl action_le_trans); [|exact Hus].
    intros x s0 y s2 Hx. by destruct (execute_grows _ _ _ _ _ Hx) as (_ & _ & ?). }
  rewrite (bind_run _ _ _ _ _ (SMTAction_attributes_le _ _ _ _ _ Hle Hattrs)) in H.
  rewrite (bool_decide_eq_false_2 _ Hnone) in H. simpl negb in H.
  apply bind_OK in H as (news & s3 & Hnews & H).
  pose proof (set_announcements_ctx _ _ _ _ _ H) as Hctx.
  apply set_announcements_OK in H as (nd' & Hnd' & Ha).
  exists us, s1, nd', news. split; [exact Hus|]. split; [exact Hnd'|].
  split; [exact Ha|].
  intros i old attr Hold Hattr Hin Hne.
  destruct (SMTSetOne_announcements_at _ _ _ _ _ _ _ _ _ _ _ Hnews i old Hold)
    as (sa & d & cs & sb & new & [Ca Aa] & Hd & Hnew & Hk & [Cb Ab]).
  change (0 + i)%nat with i in Hd.
  destruct (for_each_run_at solver_grew
              (SMTSetOne_attr (S fuel) self idx actions true attrs i old) attr
              solver_grew_refl solver_grew_trans
              (fun k0 s0 r0 s0' =>
                 SMTSetOne_attr_keeps solver_grew solver_grew_refl
                   solver_grew_trans create_fresh_var_grew
                   register_constraint_grew _ _ _ _ _ _ _ _ _ _ _ _)
              _ _ _ _ _ _ _ Hd
              ltac:(apply (bool_decide_unpack _); vm_compute; exact I) Hattr)
    as (sa' & r & sb' & [Ca' Aa'] & Hr & [Cb' Ab'] & Hdk).
  destruct (SMTSetOne_attr_changed _ _ _ _ _ _ _ _ _ _ _ Hin Hne Hr)
    as (old_var & vals & Hx & Hfst & Hvals & Hcs & Hnext).
  set (new_var := mkSMTVar (Some ("setone_" +:+ attr +:+ "_var_"))
                    (next_uid (ctx sa')) (vsort_of old_var) None) in *.
  set (cond := nested_conditional (var idx) vals (var new_var) 0) in *.
  assert (Hlen : length vals = length actions)
    by (symmetry; eapply Forall2_length; eauto).
  assert (Hivar : var idx = EConst (uid idx) (vsort_of idx))
    by (unfold var; by rewrite Hidx).
  exists new, old_var, new_var, vals, cond, (length (constraints (ctx sa'))).
  split; [exact Hk|]. split; [exact Hx|].
  split.
  { rewrite <- Hfst. eapply Announcement_of_getattr; eauto. }
  split; [reflexivity|].
  split.
  { destruct Ca as (La & _), Ca' as (La' & _), Cb' as (Lb' & _), Cb as (Lb & _).
    rewrite Hctx. simpl. lia. }
  split.
  { eapply Forall2_impl; [exact Hvals|]. intros a v Hv.
    rewrite <- Hv. symmetry. apply candidate_new_value_store. congruence. }
  split; [reflexivity|].
  split.
  { pose proof (ctx_le_length _ _ Ca). pose proof (ctx_le_length _ _ Ca'). lia. }
  split.
  { rewrite Hctx. apply (ctx_le_lookup sb s3); [exact Cb|].
    apply (ctx_le_lookup sb' sb); [exact Cb'|].
    rewrite Hcs. by rewrite lookup_app_r, Nat.sub_diag. }
  split; [unfold cond; by rewrite fallback_branch_nested|].
  split.
  - intros env n v Hn Hu. unfold holds, cond. simpl. rewrite Hivar.
    rewrite (nested_conditional_selected env _ _ vals _ 0 n v Hn)
      by (rewrite Hu; f_equal; lia).
    destruct (eval env v) as [y|]; [|split; discriminate].
    split.
    + intros E. inversion E as [E']. apply bool_decide_eq_true_1 in E'. congruence.
    + intros E. inversion E; subst. by rewrite bool_decide_eq_true_2.
  - intros env Hex. unfold holds, cond. simpl. rewrite Hivar.
    rewrite nested_conditional_exhausted
      by (intros j Hj; apply Hex; rewrite Hlen in Hj; lia).
    simpl. by rewrite bool_decide_eq_true_2.
Qed.

(** The SetOne over [local_pref := 200] and [med := 7], executed: the new
    [local_pref] of the announcement is a fresh value, defined by a
    constraint whose conditional ends in that fresh value. *)
Lemma setone_changed_attribute_witness :
  exists s' nd' news new new_var cond k,
    execute 3 2 setone_two_candidates = OK (tt, s') /\
    action_store s' !! 2%nat = Some nd' /\
    _announcements nd' = Some (create_new news 2) /\
    news !! 0%nat = Some new /\
    getattr new "local_pref" = OK (AVar new_var) /\
    value new_var = None /\
    constraints (ctx s') !! k
    = Some (Some "setone_local_pref_", EEq (var new_var) cond) /\
    fallback_branch cond = var new_var.
Proof.
  assert (Hrun : exists s', execute 3 2 setone_two_candidates = OK (tt, s'))
    by (eexists; vm_compute; reflexivity).
  destruct Hrun as [s' Hrun].
  destruct (setone_changed_attribute 2 2 setone_two_candidates
              (mkAction (KSetOne setone_index [0%nat; 1%nat]) 0 anns1 None)
              setone_index [0%nat; 1%nat] [Some "local_pref"; Some "med"]
              tt s'
              ltac:(vm_compute; reflexivity) ltac:(reflexivity)
              ltac:(reflexivity) ltac:(vm_compute; reflexivity) Hrun)
    as (us & s1 & nd' & news & _ & Hnd' & Ha & Hall).
  destruct (Hall 0%nat ann1 "local_pref" eq_refl
              ltac:(repeat constructor) ltac:(repeat constructor)
              ltac:(discriminate))
    as (new & old_var & new_var & vals & cond & k & Hk & _ & Hnew & Hshape & _
        & _ & _ & _ & Hc & Hf & _).
  exists s', nd', news, new, new_var, cond, k.
  split; [exact Hrun|]. split; [exact Hnd'|]. split; [exact Ha|].
  split; [exact Hk|]. split; [exact Hnew|].
  split; [by rewrite Hshape|]. split; [exact Hc | exact Hf].
Defined.

(** ** SetOne: [execute] returns *)

Lemma getattr_shape a attr x : getattr a attr = OK x -> attr_shape attr x.
Proof.
  intros Hx. pose proof (getattr_in _ _ _ Hx) as Hin.
  unfold Announcement_attributes in Hin.
  repeat (apply elem_of_cons in Hin as [->|Hin];
          [inversion Hx; unfold attr_shape; simpl; eauto|]).
  inversion Hin.
Qed.

Lemma candidates_ready_store s s' actions n :
  action_store s' = action_store s ->
  candidates_ready s actions n -> candidates_ready s' actions n.
Proof. unfold candidates_ready. by intros ->. Qed.

(** Candidates that have published their announcements have a value for
    every attribute that holds a symbolic value. *)
Lemma candidates_values s actions n i attr :
  candidates_ready s actions n ->
  (i < n)%nat ->
  attr ∈ Announcement_attributes ->
  attr <> "communities" ->
  exists vals,
    Forall2 (fun a v => candidate_new_value s a i attr = Some v) actions vals.
Proof.
  intros Hready Hi Hattr Hne.
  induction Hready as [|a actions (nd & c & Hnd & Hc & Hlen) _ [vals IH]].
  - exists []. constructor.
  - destruct (lookup_lt_is_Some_2 (announcements_list c) i ltac:(lia))
      as [ann Hann].
    destruct (getattr_known ann attr Hattr) as [x Hx].
    pose proof (getattr_shape _ _ _ Hx) as Hs. unfold attr_shape in Hs.
    rewrite (bool_decide_eq_false_2 _ Hne) in Hs. destruct Hs as [v ->].
    exists (var v :: vals). constructor; [|exact IH].
    unfold candidate_new_value. by rewrite Hnd, Hc, Hann, Hx.
Qed.

(** The branch of [SMTSetOne.execute] for one attribute, when no candidate
    sets a community and the candidates are ready: it returns, touching
    the solver context only. *)
Lemma SMTSetOne_attr_run fuel self idx actions attrs n i old attr st :
  attr ∈ Announcement_attributes ->
  Some "communities" ∉ attrs ->
  candidates_ready st actions n ->
  (i < n)%nat ->
  exists r st',
    SMTSetOne_attr fuel self idx actions true attrs i old attr st = OK (r, st') /\
    action_store st' = action_store st /\
    attr_shape attr (fst r).
Proof.
  intros Hattr Hnc Hready Hi.
  destruct (getattr_known old attr Hattr) as [x Hx].
  pose proof (getattr_shape _ _ _ Hx) as Hs.
  unfold SMTSetOne_attr.
  rewrite (bind_run _ _ _ x st) by (unfold lift; by rewrite Hx).
  destruct (decide (Some attr ∈ attrs)) as [Hin|Hout].
  - assert (Hne : attr <> "communities") by (intros ->; contradiction).
    unfold attr_shape in Hs. rewrite (bool_decide_eq_false_2 _ Hne) in Hs.
    destruct Hs as [old_var ->].
    rewrite (bool_decide_eq_true_2 _ Hin).
    change (true && negb true) with false. cbv iota.
    rewrite (bool_decide_eq_false_2 _ Hne).
    destruct (candidates_values
                (mkState (mkCtx (S (next_uid (ctx st)))
                            (vars (ctx st)
                             ++ [mkSMTVar (Some ("setone_" +:+ attr +:+ "_var_"))
                                   (next_uid (ctx st)) (vsort_of old_var) None])
                            (constraints (ctx st)))
                   (match_store st) (action_store st))
                actions n i attr Hready Hi Hattr Hne)
      as [vals Hvals].
    pose proof (_get_actions_run idx i attr
                  (var (mkSMTVar (Some ("setone_" +:+ attr +:+ "_var_"))
                          (next_uid (ctx st)) (vsort_of old_var) None))
                  _ actions vals Hvals 0) as Hget.
    unfold SMTSetOne_fresh_attr, attr_vsort, attr_smtvar.
    unfold bind, lift, create_fresh_var. cbv beta iota zeta.
    rewrite Hget. unfold register_constraint, ret. cbv beta iota zeta.
    eexists _, _. split; [reflexivity|]. split; [reflexivity|].
    unfold attr_shape. rewrite (bool_decide_eq_false_2 _ Hne). simpl. eauto.
  - rewrite (bool_decide_eq_false_2 _ Hout). simpl.
    eexists _, _. split; [reflexivity|]. split; [reflexivity | exact Hs].
Qed.

(** A dictionary-filling loop whose body returns at every key, keeps an
    invariant [I] of the state and answers with values of the right shape:
    the loop returns, with an entry of the right shape at every key. *)
Lemma for_each_total {K V} `{EqDecision K} (I : state -> Prop)
    (P : K -> V -> Prop) (Q : K -> Prop) (body : K -> M (V * list expr)) :
  (forall k st, Q k -> I st ->
     exists r st', body k st = OK (r, st') /\ I st' /\ P k (fst r)) ->
  forall keys acc cs st,
    Forall Q keys -> I st ->
    (forall k x, dict_get acc k = Some x -> P k x) ->
    exists d cs' st',
      for_each body keys acc cs st = OK ((d, cs'), st') /\ I st' /\
      (forall k x, dict_get d k = Some x -> P k x) /\
      (forall k, k ∈ keys \/ is_Some (dict_get acc k) -> is_Some (dict_get d k)).
Proof.
  intros Hbody. induction keys as [|k0 keys IH]; intros acc cs st HQ HI Hacc.
  - exists acc, cs, st. split; [reflexivity|]. split; [exact HI|].
    split; [exact Hacc|]. intros k [Hk|Hk]; [inversion Hk | exact Hk].
  - apply Forall_cons in HQ as [HQ0 HQ].
    destruct (Hbody k0 st HQ0 HI) as (r & st1 & Hr & HI1 & HP).
    destruct (IH (dict_set acc k0 (fst r)) (cs ++ snd r) st1 HQ HI1)
      as (d & cs' & st' & Hloop & HI' & Hd & Hkeys).
    { intros k x. destruct (decide (k = k0)) as [->|Hne].
      - rewrite dict_get_set_eq. intros E; inversion E; subst. exact HP.
      - rewrite dict_get_set_ne by (intros E; by apply Hne). apply Hacc. }
    exists d, cs', st'. split.
    { simpl. rewrite (bind_run _ _ _ _ _ Hr). exact Hloop. }
    split; [exact HI'|]. split; [exact Hd|].
    intros k Hk. apply Hkeys.
    destruct (decide (k = k0)) as [->|Hne].
    + right. rewrite dict_get_set_eq. eauto.
    + destruct Hk as [Hk|Hk].
      * apply elem_of_cons in Hk as [?|Hk]; [contradiction | by left].
      * right. by rewrite dict_get_set_ne by (intros E; by apply Hne).
Qed.

(** A keyword dictionary with an entry of the right shape under every
    attribute name makes an announcement. *)
Lemma Announcement_of_total d :
  (forall k, k ∈ Announcement_attributes -> is_Some (dict_get d k)) ->
  (forall k x, dict_get d k = Some x -> attr_shape k x) ->
  exists a, Announcement_of d = OK a.
Proof.
  intros Hall Hshape. unfold Announcement_of.
  assert (Hv : forall k, k ∈ Announcement_attributes -> k <> "communities" ->
                 exists v, dict_get d k = Some (AVar v)).
  { intros k Hk Hne. destruct (Hall k Hk) as [x Hx].
    pose proof (Hshape k x Hx) as Hs. unfold attr_shape in Hs.
    rewrite (bool_decide_eq_false_2 _ Hne) in Hs. destruct Hs as [v ->]. eauto. }
  assert (Hc : exists c, dict_get d "communities" = Some (AComms c)).
  { destruct (Hall "communities" ltac:(repeat constructor)) as [x Hx].
    pose proof (Hshape _ x Hx) as Hs. unfold attr_shape in Hs.
    rewrite bool_decide_eq_true_2 in Hs by reflexivity.
    destruct Hs as [c ->]. eauto. }
  destruct (Hv "prefix" ltac:(repeat constructor) ltac:(discriminate)) as [v1 ->].
  destruct (Hv "peer" ltac:(repeat constructor) ltac:(discriminate)) as [v2 ->].
  destruct (Hv "origin" ltac:(repeat constructor) ltac:(discriminate)) as [v3 ->].
  destruct (Hv "as_path" ltac:(repeat constructor) ltac:(discriminate)) as [v4 ->].
  destruct (Hv "as_path_len" ltac:(repeat constructor) ltac:(discriminate))
    as [v5 ->].
  destruct (Hv "next_hop" ltac:(repeat constructor) ltac:(discriminate)) as [v6 ->].
  destruct (Hv "local_pref" ltac:(repeat constructor) ltac:(discriminate))
    as [v7 ->].
  destruct (Hv "med" ltac:(repeat constructor) ltac:(discriminate)) as [v8 ->].
  destruct Hc as [c ->].
  destruct (Hv "permitted" ltac:(repeat constructor) ltac:(discriminate))
    as [v10 ->].
  eexists. reflexivity.
Qed.

(** The loop over the old announcements returns, touching the solver
    context only. *)
Lemma SMTSetOne_announcements_total fuel self idx actions attrs n :
  Some "communities" ∉ attrs ->
  forall olds i0 st,
    candidates_ready st actions n ->
    (i0 + length olds <= n)%nat ->
    exists news st',
      SMTSetOne_announcements fuel self idx actions true attrs i0 olds st
      = OK (news, st') /\
      action_store st' = action_store st /\
      length news = length olds.
Proof.
  intros Hnc. induction olds as [|old olds IH]; intros i0 st Hready Hlen.
  - exists [], st. split; [reflexivity|]. split; reflexivity.
  - simpl length in Hlen.
    destruct (for_each_total
                (fun st0 => action_store st0 = action_store st) attr_shape
                (fun k => k ∈ Announcement_attributes)
                (SMTSetOne_attr fuel self idx actions true attrs i0 old))
      with (keys := Announcement_attributes) (acc := @nil (string * attr_val))
           (cs := @nil expr) (st := st)
      as (d & cs' & st1 & Hd & Hst1 & Hshape & Hkeys).
    { intros k st0 Hk Hst0.
      destruct (SMTSetOne_attr_run fuel self idx actions attrs n i0 old k st0
                  Hk Hnc (candidates_ready_store _ _ _ _ Hst0 Hready)
                  ltac:(lia))
        as (r & st' & Hr & Hst' & Hs).
      exists r, st'. split; [exact Hr|]. split; [congruence | exact Hs]. }
    { apply Forall_forall. auto. }
    { reflexivity. }
    { intros k x Hx. discriminate Hx. }
    destruct (Announcement_of_total d) as [new Hnew].
    { intros k Hk. apply Hkeys. by left. }
    { exact Hshape. }
    destruct (IH (S i0) st1 (candidates_ready_store _ _ _ _ Hst1 Hready)
                ltac:(lia))
      as (rest & st' & Hrest & Hst' & Hlen').
    exists (new :: rest), st'.
    split; [|split; [congruence | simpl; by rewrite Hlen']].
    cbn [SMTSetOne_announcements].
    rewrite (bind_run _ _ _ _ _ Hd). simpl fst.
    rewrite (bind_run _ _ _ new st1) by (unfold lift; by rewrite Hnew).
    rewrite (bind_run _ _ _ _ _ Hrest). reflexivity.
Qed.

(** ** [execute] on a SetOne returns *)

(** X22 (SetOne.execute, returns): [execute] on a SetOne returns as soon as
    its candidates do: if the footprint of the SetOne is defined and has no
    community in it, the candidates' [execute] return, and every candidate
    has then published as many announcements as the SetOne has old ones,
    then [execute] on the SetOne returns, and it has published one new
    announcement per old one.  The only exceptions on the way are the
    candidates' own. *)
Theorem setone_execute_returns fuel self s nd idx actions attrs us s1 :
  action_store s !! self = Some nd ->
  akind nd = KSetOne idx actions ->
  SMTAction_attributes (S fuel) self s = OK (attrs, s) ->
  Some "communities" ∉ attrs ->
  mapM (execute fuel) actions s = OK (us, s1) ->
  candidates_ready s1 actions
    (length (announcements_list (_old_announcements nd))) ->
  exists s' nd' news,
    execute (S fuel) self s = OK (tt, s') /\
    action_store s' !! self = Some nd' /\
    _announcements nd' = Some (create_new news self) /\
    length news = length (announcements_list (_old_announcements nd)).
Proof.
  intros Hnd Hkind Hattrs Hnc Hus Hready.
  destruct (SMTAction_attributes_wf _ _ _ _ _ Hattrs) as [_ Hnone].
  assert (Hle : action_le s s1).
  { eapply (mapM_keeps action_le action_le_refl action_le_trans); [|exact Hus].
    intros x s0 y s2 Hx. by destruct (execute_grows _ _ _ _ _ Hx) as (_ & _ & ?). }
  destruct (SMTSetOne_announcements_total (S fuel) self idx actions attrs _ Hnc
              (announcements_list (_old_announcements nd)) 0%nat s1 Hready
              ltac:(simpl; lia))
    as (news & s2 & Hnews & Hstore & Hlen).
  destruct (proj2 Hle self nd Hnd) as (nd1 & Hnd1 & _).
  assert (Hset : exists s', set_announcements self (create_new news self) s2
                            = OK (tt, s')).
  { unfold set_announcements. rewrite Hstore, Hnd1. eauto. }
  destruct Hset as [s' Hset].
  exists s'.
  destruct (set_announcements_OK _ _ _ _ _ Hset) as (nd' & Hnd' & Ha).
  exists nd', news. split; [|by repeat split].
  cbn [execute].
  rewrite (bind_run _ _ _ nd s) by (unfold get_action; by rewrite Hnd).
  rewrite Hkind.
  rewrite (bind_run _ _ _ _ _ Hus).
  rewrite (bind_run _ _ _ _ _ (SMTAction_attributes_le _ _ _ _ _ Hle Hattrs)).
  rewrite (bool_decide_eq_false_2 _ Hnone). simpl negb.
  rewrite (bind_run _ _ _ _ _ Hnews). exact Hset.
Qed.

(** The SetOne over [local_pref := 200] and [med := 7]: its candidates were
    executed when they were constructed, so that their [execute] returns in
    the same state, and [execute] on the SetOne returns. *)
Lemma setone_execute_returns_witness :
  exists s' nd' news,
    execute 3 2 setone_two_candidates = OK (tt, s') /\
    action_store s' !! 2%nat = Some nd' /\
    _announcements nd' = Some (create_new news 2) /\
    length news = 1%nat.
Proof.
  apply (setone_execute_returns 2 2 setone_two_candidates
           (mkAction (KSetOne setone_index [0%nat; 1%nat]) 0 anns1 None)
           setone_index [0%nat; 1%nat] [Some "local_pref"; Some "med"]
           [tt; tt] setone_two_candidates).
  - vm_compute; reflexivity.
  - reflexivity.
  - vm_compute; reflexivity.
  - intros Hin. repeat (apply elem_of_cons in Hin as [Hin|Hin];
                        [discriminate Hin|]). inversion Hin.
  - vm_compute; reflexivity.
  - repeat constructor; eexists _, _;
      (split; [vm_compute; reflexivity|]); split; reflexivity.
Defined.
